(** * Verification of the hotel search pipeline

    A shallow embedding of the core of [alex-user-go/hotels]:
    the normalizer and the aggregator ([internal/search/aggregator.go]),
    the single-flight TTL cache ([internal/search/cache/cache.go]),
    the token-bucket limiter ([internal/search/ratelimit/ratelimit.go])
    and the query validation of the HTTP handler ([ParseSearchParams]).

    Conventions.
    - A Go [string] is a byte sequence: Rocq's [string]. [strings.TrimSpace]
      and [strings.ToUpper] are modelled on ASCII text; a theorem that
      depends on what they do to a string states that it is ASCII text
      ([strings.isASCII]).
    - A Go [int] is a [Z]; no computation of the modelled code leaves the
      64-bit range on the inputs it can receive.
    - A Go [float64] is the Standard Library's IEEE 754 specification type
      [spec_float]; [<] and [<=] are [SFltb] and [SFleb].
    - A pointer that may be [nil] is an [option].
    - A [time.Time] read from the monotonic clock and a [time.Duration]
      are integers (nanoseconds); the product [2*l.window] of the limiter's
      sweeper is computed in [int64]. *)

From Stdlib Require Import ZArith Bool Ascii String List Lia SpecFloat.
From Stdlib Require Import Sorting.Sorted Sorting.Permutation.
From stdpp Require Import base option list gmap strings sorting pretty relations.

Local Open Scope string_scope.
Local Open Scope Z_scope.

(** ** float64 *)

Module F64.

Definition float64 : Type := spec_float.

Definition NaN : float64 := S754_nan.
Definition zero : float64 := S754_zero false.

(** Go's [x < y] and [x <= y] on float64. *)
Definition lt (x y : float64) : bool := SFltb x y.
Definition le (x y : float64) : bool := SFleb x y.

Definition isNaN (x : float64) : bool :=
  match x with S754_nan => true | _ => false end.

(** The float64 of a positive integer amount below 2^53: [ofPos 100] is
    100.0. The mantissa is shifted to 53 bits as in binary64. *)
Definition ofPos (p : positive) : float64 :=
  let sh := 53 - Z.log2 (Z.pos p) - 1 in
  match Z.shiftl (Z.pos p) sh with
  | Z.pos m => S754_finite false m (- sh)
  | _ => zero
  end.

Definition neg (x : float64) : float64 := SFopp x.

(** Every value that is not NaN has a place on a line: class, then
    exponent, then mantissa, the last two mirrored for negative numbers. *)
Definition key (x : float64) : option (Z * Z * Z) :=
  match x with
  | S754_nan => None
  | S754_infinity true => Some (-2, 0, 0)
  | S754_infinity false => Some (2, 0, 0)
  | S754_zero _ => Some (0, 0, 0)
  | S754_finite true m e => Some (-1, - e, - Z.pos m)
  | S754_finite false m e => Some (1, e, Z.pos m)
  end.

Definition key_lt (a b : Z * Z * Z) : Prop :=
  let '(c1, e1, m1) := a in
  let '(c2, e2, m2) := b in
  c1 < c2 \/ (c1 = c2 /\ (e1 < e2 \/ (e1 = e2 /\ m1 < m2))).

Definition key_le (a b : Z * Z * Z) : Prop := key_lt a b \/ a = b.

End F64.

Abbreviation float64 := F64.float64.

(** ** Strings *)

Module strings.

(** The bytes Go's [strings.TrimSpace] removes from ASCII text:
    tab, line feed, vertical tab, form feed, carriage return, space. *)
Definition isSpace (c : ascii) : bool :=
  let n := N_of_ascii c in
  ((9 <=? n) && (n <=? 13) || (n =? 32))%N.

Fixpoint trimLeft (s : string) : string :=
  match s with
  | EmptyString => EmptyString
  | String c r => if isSpace c then trimLeft r else s
  end.

Fixpoint trimRight (s : string) : string :=
  match s with
  | EmptyString => EmptyString
  | String c r =>
      match trimRight r with
      | EmptyString => if isSpace c then EmptyString else String c EmptyString
      | r' => String c r'
      end
  end.

(** [strings.TrimSpace] on ASCII text. *)
Definition TrimSpace (s : string) : string := trimRight (trimLeft s).

Definition isLower (c : ascii) : bool :=
  let n := N_of_ascii c in ((97 <=? n) && (n <=? 122))%N.

Definition upperByte (c : ascii) : ascii :=
  if isLower c then ascii_of_N (N_of_ascii c - 32) else c.

(** [strings.ToUpper] on ASCII text. *)
Fixpoint ToUpper (s : string) : string :=
  match s with
  | EmptyString => EmptyString
  | String c r => String (upperByte c) (ToUpper r)
  end.

Fixpoint noLower (s : string) : bool :=
  match s with
  | EmptyString => true
  | String c r => negb (isLower c) && noLower r
  end.

(** The text is ASCII: every byte is below [utf8.RuneSelf]. This is the
    text on which [TrimSpace] and [ToUpper] above are Go's functions; on
    bytes from 0x80 on Go decodes UTF-8 and follows the Unicode tables. *)
Fixpoint isASCII (s : string) : bool :=
  match s with
  | EmptyString => true
  | String c r => (N_of_ascii c <? 128)%N && isASCII r
  end.

End strings.

(** ** Data model *)

(** [providers.Hotel]: a hotel as a provider reports it. *)
Module providers.
Record Hotel : Type := mkHotel {
  HotelID : string;
  Name : string;
  City : string;
  Currency : string;
  Price : float64;
  Nights : Z
}.
End providers.

(** [types.Hotel] and [types.Result]. *)
Module types.
Record Hotel : Type := mkHotel {
  HotelID : string;
  Name : string;
  Currency : string;
  Price : float64
}.

Record Result : Type := mkResult {
  Hotels : list Hotel;
  ProvidersTotal : Z;
  ProvidersSucceeded : Z;
  ProvidersFailed : Z
}.
End types.

(** A Go [error] value, identified by its message. *)
Definition error : Type := string.

(** ** The normalizer *)

Definition normalizeHotel (h : providers.Hotel) : option types.Hotel :=
  let hotelID := strings.TrimSpace (providers.HotelID h) in
  if String.eqb hotelID "" then None else
  let name := strings.TrimSpace (providers.Name h) in
  if String.eqb name "" then None else
  if F64.le (providers.Price h) F64.zero then None else
  let currency := strings.ToUpper (strings.TrimSpace (providers.Currency h)) in
  let currency := if String.eqb currency "" then "EUR" else currency in
  Some (types.mkHotel hotelID name currency (providers.Price h)).

(** A row whose price is not a number. *)
Definition rawNaN : providers.Hotel :=
  providers.mkHotel "H001" "Hotel A" "paris" "EUR" F64.NaN 2.

(** ** The aggregator *)

(** What one provider's unit of work ends with: [provider.Search] returned
    an error, or a slice of hotels. *)
Inductive unitOutcome : Type :=
  | UnitErr (e : error)
  | UnitOk (hotels : list providers.Hotel).

(** The variables the goroutines of [Search] share under [mu]. *)
Record searchState : Type := mkSearchState {
  hotelMap : gmap string types.Hotel;
  succeeded : Z;
  failed : Z;
  errors : list error
}.

Definition searchInit : searchState := mkSearchState ∅ 0 0 [].

(** Dedup by hotel_id, keep lowest price (the body of the inner loop once
    [normalized] is not nil). *)
Definition mergeHotel (m : gmap string types.Hotel) (normalized : types.Hotel)
  : gmap string types.Hotel :=
  match m !! types.HotelID normalized with
  | Some existing =>
      if F64.lt (types.Price normalized) (types.Price existing)
      then <[types.HotelID normalized := normalized]> m
      else m
  | None => <[types.HotelID normalized := normalized]> m
  end.

(** One iteration of [for _, h := range hotels]. *)
Definition mergeRaw (m : gmap string types.Hotel) (h : providers.Hotel)
  : gmap string types.Hotel :=
  match normalizeHotel h with
  | None => m
  | Some normalized => mergeHotel m normalized
  end.

(** The critical section of one goroutine. *)
Definition unitStep (st : searchState) (o : unitOutcome) : searchState :=
  match o with
  | UnitErr e =>
      mkSearchState (hotelMap st) (succeeded st) (failed st + 1) (errors st ++ [e])%list
  | UnitOk hotels =>
      mkSearchState (fold_left mergeRaw hotels (hotelMap st))
                    (succeeded st + 1) (failed st) (errors st)
  end.

(** The state when [wg.Wait()] returns; [units] lists the outcomes in the
    order in which the goroutines entered their critical section. *)
Definition runUnits (units : list unitOutcome) : searchState :=
  fold_left unitStep units searchInit.

(** [insertionSortLessFunc] of package sort: the element at index [i] moves
    left while it is less than its left neighbour. [revPrefix] is the sorted
    prefix, nearest neighbour first. *)
Fixpoint sift {A : Type} (less : A -> A -> bool) (x : A) (revPrefix : list A) : list A :=
  match revPrefix with
  | [] => [x]
  | y :: r => if less x y then y :: sift less x r else x :: revPrefix
  end.

Definition insertionSort {A : Type} (less : A -> A -> bool) (l : list A) : list A :=
  rev (fold_left (fun acc x => sift less x acc) l []).

(** The comparison handed to [sort.Slice]. *)
Definition byPrice (a b : types.Hotel) : bool :=
  F64.lt (types.Price a) (types.Price b).

(** No element is less than an earlier one. *)
Definition sortedBy {A : Type} (less : A -> A -> bool) (l : list A) : Prop :=
  StronglySorted (fun a b => less b a = false) l.

(** What package sort asks of a comparison: a strict weak ordering. *)
Record strictWeak {A : Type} (less : A -> A -> bool) (l : list A) : Prop := {
  sw_irrefl : forall a, In a l -> less a a = false;
  sw_trans : forall a b c, In a l -> In b l -> In c l ->
      less a b = true -> less b c = true -> less a c = true;
  sw_incomp : forall a b c, In a l -> In b l -> In c l ->
      less a b = false -> less b a = false ->
      less b c = false -> less c b = false ->
      less a c = false /\ less c a = false
}.

(** Every adjacent pair in non-decreasing price. *)
Fixpoint priceSorted (l : list types.Hotel) : bool :=
  match l with
  | a :: ((b :: _) as r) => F64.le (types.Price a) (types.Price b) && priceSorted r
  | _ => true
  end.

Section Aggregator.

(** The order in which [for _, h := range hotelMap] visits the map: Go
    leaves it unspecified. *)
Variable rangeMap : gmap string types.Hotel -> list types.Hotel.

(** [pdqsortLessFunc] on more than twelve elements. *)
Variable pdqsort :
  (types.Hotel -> types.Hotel -> bool) -> list types.Hotel -> list types.Hotel.

(** [sort.Slice]: up to twelve elements are sorted by insertion. *)
Definition sortSlice (less : types.Hotel -> types.Hotel -> bool)
    (l : list types.Hotel) : list types.Hotel :=
  if (List.length l <=? 12)%nat then insertionSort less l else pdqsort less l.

(** [Aggregator.Search] once every unit has settled: [units] holds one
    outcome for each configured provider, so its length is
    [len(a.providers)]. *)
Definition Search (units : list unitOutcome) : option types.Result * option error :=
  let st := runUnits units in
  let total := Z.of_nat (List.length units) in
  if (0 <? List.length (errors st))%nat && (failed st =? total)%Z
  then (None, head (errors st))
  else
    let hotels := sortSlice byPrice (rangeMap (hotelMap st)) in
    (Some (types.mkResult hotels total (succeeded st) (failed st)), None).

End Aggregator.

(** The normalized hotels in their order of arrival at the merge. *)
Definition arrivals (units : list unitOutcome) : list types.Hotel :=
  flat_map (fun o => match o with
                     | UnitErr _ => []
                     | UnitOk hotels => omap normalizeHotel hotels
                     end) units.

(** The unit returned an error; the error it returned. *)
Definition unitFailed (o : unitOutcome) : bool :=
  match o with UnitErr _ => true | UnitOk _ => false end.

Definition unitError (o : unitOutcome) : option error :=
  match o with UnitErr e => Some e | UnitOk _ => None end.

(** [h] is the entry the merge keeps from the arrivals [seen]: it arrived,
    every earlier arrival with its identifier was strictly dearer, and no
    later one is cheaper. *)
Definition keptFrom (seen : list types.Hotel) (h : types.Hotel) : Prop :=
  exists l1 l2, seen = (l1 ++ h :: l2)%list /\
    (forall h', In h' l1 -> types.HotelID h' = types.HotelID h ->
                F64.lt (types.Price h) (types.Price h') = true) /\
    (forall h', In h' l2 -> types.HotelID h' = types.HotelID h ->
                F64.le (types.Price h) (types.Price h') = true).

(** The price of a normalized hotel as the data model has it: positive. *)
Definition positivePrice (h : types.Hotel) : Prop :=
  F64.lt F64.zero (types.Price h) = true.

(** Every entry of the map sits at its own identifier. *)
Definition keyed (m : gmap string types.Hotel) : Prop :=
  forall k h, m !! k = Some h -> types.HotelID h = k.

(** What the map holds after the arrivals [seen]. *)
Definition merged (m : gmap string types.Hotel) (seen : list types.Hotel) : Prop :=
  (forall k h, m !! k = Some h -> types.HotelID h = k /\ keptFrom seen h) /\
  (forall h, In h seen -> is_Some (m !! types.HotelID h)).

(** A well-formed row. *)
Definition rawCheap : providers.Hotel :=
  providers.mkHotel "H002" "Hotel B" "paris" "EUR" (F64.ofPos 200) 2.

(** The hotel of [rawNaN] offered at 100. *)
Definition rawOffer : providers.Hotel :=
  providers.mkHotel "H001" "Hotel A" "paris" "EUR" (F64.ofPos 100) 2.

(** The two providers of the deduplication test. *)
Definition unitsDedup : list unitOutcome :=
  [UnitOk [providers.mkHotel "H001" "Hotel A" "paris" "EUR" (F64.ofPos 150) 2;
           providers.mkHotel "H002" "Hotel B" "paris" "EUR" (F64.ofPos 200) 2];
   UnitOk [providers.mkHotel "H001" "Hotel A" "paris" "EUR" (F64.ofPos 120) 2;
           providers.mkHotel "H003" "Hotel C" "paris" "EUR" (F64.ofPos 180) 2]].

(** What [Search] returns for them. *)
Definition resultDedup : types.Result :=
  types.mkResult
    [types.mkHotel "H001" "Hotel A" "EUR" (F64.ofPos 120);
     types.mkHotel "H003" "Hotel C" "EUR" (F64.ofPos 180);
     types.mkHotel "H002" "Hotel B" "EUR" (F64.ofPos 200)] 2 2 0.

(** The sorted prefix of the insertion sort, read from the right: no element
    is less than one further to the left. *)
Definition descending {A : Type} (less : A -> A -> bool) (l : list A) : Prop :=
  StronglySorted (fun a b => less a b = false) l.

(** No provider reports a NaN price. *)
Definition numericPrices (units : list unitOutcome) : Prop :=
  forall hs raw, In (UnitOk hs) units -> In raw hs ->
                 F64.isNaN (providers.Price raw) = false.

(** The price of the hotel is a number. *)
Definition numeric (h : types.Hotel) : Prop := F64.isNaN (types.Price h) = false.

(** The units that returned an error, and those that did not. *)
Definition countFailed (units : list unitOutcome) : Z :=
  Z.of_nat (List.length (List.filter unitFailed units)).

Definition countSucceeded (units : list unitOutcome) : Z :=
  Z.of_nat (List.length (List.filter (fun o => negb (unitFailed o)) units)).

(** The two providers of the partial-failure test. *)
Definition unitsPartial : list unitOutcome :=
  [UnitOk [providers.mkHotel "H001" "Hotel A" "paris" "EUR" (F64.ofPos 100) 2];
   UnitErr "provider unavailable"].

(** The iteration order and the sort used to run the model. *)
Definition rangeListed (m : gmap string types.Hotel) : list types.Hotel :=
  (map_to_list m).*2.

(** ** The cache *)

Module cache.

(** What a fetch returns: a pointer to a result (or nil) and an error (or nil). *)
Definition outcome : Type := option types.Result * option error.

Record cacheEntry : Type := mkEntry {
  result : option types.Result;
  expiresAt : Z
}.

Record inflightRequest : Type := mkInflight {
  done : bool;                      (* the channel [done] is closed *)
  iresult : option types.Result;
  ierr : option error
}.

(** The fields of [Cache] that [mu] guards, and [ttl]. The values of
    [inflight] are pointers: indices into the heap of requests. *)
Record Cache : Type := mkCache {
  entries : gmap string cacheEntry;
  ttl : Z;
  inflight : gmap string nat
}.

Definition NewCache (ttl : Z) : Cache := mkCache ∅ ttl ∅.

(** fmt's [%d]: decimal digits, [-] in front of a negative number. *)
Definition itoa (n : Z) : string := pretty n.

(** [Cache.Key]. *)
Definition Key (city checkin : string) (nights adults : Z) : string :=
  city +:+ ":" +:+ checkin +:+ ":" +:+ itoa nights +:+ ":" +:+ itoa adults.

(** How a caller leaves the first critical section of [GetOrFetch]. *)
Inductive role : Type :=
  | Hit (r : option types.Result)
  | Waiter (p : nat)
  | Leader (p : nat).

(** Check for an existing in-flight request, else create a new one. *)
Definition joinOrLead (c : Cache) (heap : list inflightRequest) (key : string)
  : role * Cache * list inflightRequest :=
  match inflight c !! key with
  | Some p => (Waiter p, c, heap)
  | None =>
      (Leader (List.length heap),
       mkCache (entries c) (ttl c) (<[key := List.length heap]> (inflight c)),
       (heap ++ [mkInflight false None None])%list)
  end.

(** The first critical section: check cache, then the requests in flight. *)
Definition enter (c : Cache) (heap : list inflightRequest) (now : Z) (key : string)
  : role * Cache * list inflightRequest :=
  match entries c !! key with
  | Some entry =>
      if now <? expiresAt entry
      then (Hit (result entry), c, heap)
      else joinOrLead c heap key
  | None => joinOrLead c heap key
  end.

(** [err == nil && result != nil]. *)
Definition cacheable (out : outcome) : bool :=
  match out with
  | (Some _, None) => true
  | _ => false
  end.

Definition record (out : outcome) (q : inflightRequest) : inflightRequest :=
  mkInflight (done q) (fst out) (snd out).

(** The second critical section: store result. *)
Definition settle (c : Cache) (heap : list inflightRequest) (now : Z) (key : string)
    (p : nat) (out : outcome) : Cache * list inflightRequest :=
  let heap' := alter (record out) p heap in
  let entries' :=
    if cacheable out
    then <[key := mkEntry (fst out) (now + ttl c)]> (entries c)
    else entries c in
  (mkCache entries' (ttl c) (delete key (inflight c)), heap').

(** [close(inflight.done)]. *)
Definition closeDone (heap : list inflightRequest) (p : nat) : list inflightRequest :=
  alter (fun q => mkInflight true (iresult q) (ierr q)) p heap.

(** What [GetOrFetch] returns: result, hit, error. *)
Definition answer : Type := option types.Result * bool * option error.

(** [GetOrFetch] by a caller no other goroutine interleaves with: the clock
    reads [now1] in the first critical section and [now2] in the second,
    [fetch] returns [out]. A caller that finds a request in flight waits for
    another goroutine: no answer. The last component tells whether [fetch]
    was called. *)
Definition GetOrFetch (c : Cache) (heap : list inflightRequest) (now1 now2 : Z)
    (key : string) (out : outcome)
  : option answer * Cache * list inflightRequest * bool :=
  match enter c heap now1 key with
  | (Hit r, c1, h1) => (Some (r, true, None), c1, h1, false)
  | (Waiter _, c1, h1) => (None, c1, h1, false)
  | (Leader p, c1, h1) =>
      let '(c2, h2) := settle c1 h1 now2 key p out in
      (Some (fst out, false, snd out), c2, closeDone h2 p, true)
  end.

Definition Invalidate (c : Cache) (key : string) : Cache :=
  mkCache (delete key (entries c)) (ttl c) (inflight c).

Definition Clear (c : Cache) : Cache := mkCache ∅ (ttl c) (inflight c).

(** One pass of the sweeper. *)
Definition cleanup (c : Cache) (now : Z) : Cache :=
  mkCache (filter (fun ke => ¬ (expiresAt (snd ke) < now)) (entries c))
          (ttl c) (inflight c).

(** *** Goroutines calling [GetOrFetch] concurrently

    Each goroutine is at one of the points between which the code holds no
    lock; a step runs one critical section, or one action outside of it. *)

(** The path a goroutine returned on. *)
Inductive how : Type :=
  | ViaHit
  | ViaLead (p : nat)
  | ViaDone (p : nat)       (* [<-inflight.done] fired *)
  | ViaCancel (p : nat).    (* [<-ctx.Done()] fired *)

Inductive pc : Type :=
  | Start (key : string)
  | Waiting (key : string) (p : nat)
  | Fetching (key : string) (p : nat)
  | Fetched (key : string) (p : nat) (out : outcome)
  | Closing (key : string) (p : nat) (out : outcome)
  | Returned (h : how) (a : answer).

Record world : Type := mkWorld {
  wcache : Cache;
  wheap : list inflightRequest;
  wthreads : gmap nat pc;
  wnow : Z
}.

Definition pcOfRole (key : string) (r : role) : pc :=
  match r with
  | Hit res => Returned ViaHit (res, true, None)
  | Waiter p => Waiting key p
  | Leader p => Fetching key p
  end.

Definition setThread (w : world) (t : nat) (x : pc) : gmap nat pc :=
  <[t := x]> (wthreads w).

Inductive step : world -> world -> Prop :=
  | step_call w t key :
      wthreads w !! t = None ->
      step w (mkWorld (wcache w) (wheap w) (setThread w t (Start key)) (wnow w))
  | step_enter w t key r c' h' :
      wthreads w !! t = Some (Start key) ->
      enter (wcache w) (wheap w) (wnow w) key = (r, c', h') ->
      step w (mkWorld c' h' (setThread w t (pcOfRole key r)) (wnow w))
  | step_fetch w t key p out :
      wthreads w !! t = Some (Fetching key p) ->
      step w (mkWorld (wcache w) (wheap w) (setThread w t (Fetched key p out)) (wnow w))
  | step_settle w t key p out c' h' :
      wthreads w !! t = Some (Fetched key p out) ->
      settle (wcache w) (wheap w) (wnow w) key p out = (c', h') ->
      step w (mkWorld c' h' (setThread w t (Closing key p out)) (wnow w))
  | step_close w t key p out :
      wthreads w !! t = Some (Closing key p out) ->
      step w (mkWorld (wcache w) (closeDone (wheap w) p)
                (setThread w t (Returned (ViaLead p) (fst out, false, snd out)))
                (wnow w))
  | step_done w t key p q :
      wthreads w !! t = Some (Waiting key p) ->
      wheap w !! p = Some q ->
      done q = true ->
      step w (mkWorld (wcache w) (wheap w)
                (setThread w t (Returned (ViaDone p) (iresult q, false, ierr q)))
                (wnow w))
  | step_cancel w t key p (cause : error) :
      wthreads w !! t = Some (Waiting key p) ->
      step w (mkWorld (wcache w) (wheap w)
                (setThread w t (Returned (ViaCancel p) (None, false, Some cause)))
                (wnow w))
  | step_tick w d :
      0 <= d ->
      step w (mkWorld (wcache w) (wheap w) (wthreads w) (wnow w + d))
  | step_invalidate w key :
      step w (mkWorld (Invalidate (wcache w) key) (wheap w) (wthreads w) (wnow w))
  | step_clear w :
      step w (mkWorld (Clear (wcache w)) (wheap w) (wthreads w) (wnow w))
  | step_cleanup w :
      step w (mkWorld (cleanup (wcache w) (wnow w)) (wheap w) (wthreads w) (wnow w)).

Definition initial (ttl now : Z) : world := mkWorld (NewCache ttl) [] ∅ now.

Definition reachable (ttl now : Z) (w : world) : Prop := rtc step (initial ttl now) w.


(** The request a goroutine created, as long as it may still write to it or
    has returned as its leader. *)
Definition ownerOf (x : pc) : option nat :=
  match x with
  | Fetching _ p | Fetched _ p _ | Closing _ p _ | Returned (ViaLead p) _ => Some p
  | _ => None
  end.

(** The key and the request of a goroutine between the creation of the
    request and the second critical section. *)
Definition fetchOf (x : pc) : option (string * nat) :=
  match x with
  | Fetching k p | Fetched k p _ => Some (k, p)
  | _ => None
  end.

(** What holds in every reachable world. *)
Record inv (w : world) : Prop := mkInv {
  inv_owner_lt : forall t x p,
    wthreads w !! t = Some x -> ownerOf x = Some p -> (p < List.length (wheap w))%nat;
  inv_owner_uniq : forall t1 t2 x1 x2 p,
    wthreads w !! t1 = Some x1 -> wthreads w !! t2 = Some x2 ->
    ownerOf x1 = Some p -> ownerOf x2 = Some p -> t1 = t2;
  inv_inflight : forall t x k p,
    wthreads w !! t = Some x -> fetchOf x = Some (k, p) ->
    inflight (wcache w) !! k = Some p;
  inv_cold : forall t x k p e,
    wthreads w !! t = Some x -> fetchOf x = Some (k, p) ->
    entries (wcache w) !! k = Some e -> expiresAt e <= wnow w;
  inv_closing : forall t k p out,
    wthreads w !! t = Some (Closing k p out) ->
    exists q, wheap w !! p = Some q /\ iresult q = fst out /\ ierr q = snd out;
  inv_done : forall p q,
    wheap w !! p = Some q -> done q = true ->
    exists t, wthreads w !! t = Some (Returned (ViaLead p) (iresult q, false, ierr q));
  inv_waiter : forall t p a,
    wthreads w !! t = Some (Returned (ViaDone p) a) ->
    exists t', wthreads w !! t' = Some (Returned (ViaLead p) a)
}.



(** The steps as a function of who moves. *)
Inductive action : Type :=
  | ACall (t : nat) (key : string)
  | AEnter (t : nat)
  | AFetch (t : nat) (out : outcome)
  | ASettle (t : nat)
  | AClose (t : nat)
  | ADone (t : nat)
  | ACancel (t : nat) (cause : error)
  | ATick (d : Z)
  | AInvalidate (key : string)
  | AClear
  | ACleanup.

Definition exec (w : world) (a : action) : option world :=
  match a with
  | ACall t key =>
      match wthreads w !! t with
      | None => Some (mkWorld (wcache w) (wheap w) (setThread w t (Start key)) (wnow w))
      | Some _ => None
      end
  | AEnter t =>
      match wthreads w !! t with
      | Some (Start key) =>
          let '(r, c', h') := enter (wcache w) (wheap w) (wnow w) key in
          Some (mkWorld c' h' (setThread w t (pcOfRole key r)) (wnow w))
      | _ => None
      end
  | AFetch t out =>
      match wthreads w !! t with
      | Some (Fetching key p) =>
          Some (mkWorld (wcache w) (wheap w) (setThread w t (Fetched key p out)) (wnow w))
      | _ => None
      end
  | ASettle t =>
      match wthreads w !! t with
      | Some (Fetched key p out) =>
          let '(c', h') := settle (wcache w) (wheap w) (wnow w) key p out in
          Some (mkWorld c' h' (setThread w t (Closing key p out)) (wnow w))
      | _ => None
      end
  | AClose t =>
      match wthreads w !! t with
      | Some (Closing key p out) =>
          Some (mkWorld (wcache w) (closeDone (wheap w) p)
                  (setThread w t (Returned (ViaLead p) (fst out, false, snd out)))
                  (wnow w))
      | _ => None
      end
  | ADone t =>
      match wthreads w !! t with
      | Some (Waiting key p) =>
          match wheap w !! p with
          | Some q =>
              if done q
              then Some (mkWorld (wcache w) (wheap w)
                     (setThread w t (Returned (ViaDone p) (iresult q, false, ierr q)))
                     (wnow w))
              else None
          | None => None
          end
      | _ => None
      end
  | ACancel t cause =>
      match wthreads w !! t with
      | Some (Waiting key p) =>
          Some (mkWorld (wcache w) (wheap w)
                  (setThread w t (Returned (ViaCancel p) (None, false, Some cause)))
                  (wnow w))
      | _ => None
      end
  | ATick d =>
      if 0 <=? d
      then Some (mkWorld (wcache w) (wheap w) (wthreads w) (wnow w + d))
      else None
  | AInvalidate key =>
      Some (mkWorld (Invalidate (wcache w) key) (wheap w) (wthreads w) (wnow w))
  | AClear => Some (mkWorld (Clear (wcache w)) (wheap w) (wthreads w) (wnow w))
  | ACleanup => Some (mkWorld (cleanup (wcache w) (wnow w)) (wheap w) (wthreads w) (wnow w))
  end.

Fixpoint execAll (w : world) (acts : list action) : option world :=
  match acts with
  | [] => Some w
  | a :: rest =>
      match exec w a with
      | Some w' => execAll w' rest
      | None => None
      end
  end.


(** Two callers of a cold key, the second served by the first. *)
Definition sharedRun : list action :=
  [ACall 0 "paris:2025-12-01:2:2"; AEnter 0;
   ACall 1 "paris:2025-12-01:2:2"; AEnter 1;
   AFetch 0 (Some (types.mkResult [] 3 3 0), None); ASettle 0; AClose 0;
   ADone 1].

(** The world a run leads to from a new cache with [ttl = 30] at time 0. *)
Definition worldAfter (acts : list action) : world :=
  match execAll (initial 30 0) acts with
  | Some w => w
  | None => initial 30 0
  end.

(** A result without hotels: every provider succeeded, no row passed. *)
Definition emptyResult : types.Result := types.mkResult [] 3 3 0.

End cache.

(** ** The rate limiter *)

Module ratelimit.

Record bucket : Type := mkBucket {
  tokens : Z;
  lastReset : Z
}.

Record Limiter : Type := mkLimiter {
  buckets : gmap string bucket;
  rate : Z;
  window : Z
}.

Definition New (rate window : Z) : Limiter := mkLimiter ∅ rate window.

(** [Allow] on the bucket of the key, [None] when the map has none. *)
Definition allowBucket (rate window now : Z) (ob : option bucket) : bool * bucket :=
  let b := match ob with
           | Some b => b
           | None => mkBucket rate now
           end in
  let b := if window <=? now - lastReset b then mkBucket rate now else b in
  if 0 <? tokens b
  then (true, mkBucket (tokens b - 1) (lastReset b))
  else (false, b).

(** [Limiter.Allow] with the clock reading [now]. *)
Definition Allow (l : Limiter) (now : Z) (key : string) : bool * Limiter :=
  let '(ok, b) := allowBucket (rate l) (window l) now (buckets l !! key) in
  (ok, mkLimiter (<[key := b]> (buckets l)) (rate l) (window l)).

(** [int64] arithmetic wraps around: the value of [x] in two's complement. *)
Definition wrap64 (x : Z) : Z := (x + 2 ^ 63) mod 2 ^ 64 - 2 ^ 63.

(** One pass of the sweeper: remove buckets inactive for 2x window. The
    product [2*l.window] is computed in [int64]. *)
Definition cleanup (l : Limiter) (now : Z) : Limiter :=
  mkLimiter (filter (fun kb => ¬ (wrap64 (2 * window l) < now - lastReset (snd kb)))
               (buckets l))
            (rate l) (window l).

Inductive event : Type :=
  | EvAllow (now : Z) (key : string)
  | EvCleanup (now : Z).

Definition eventTime (e : event) : Z :=
  match e with EvAllow now _ => now | EvCleanup now => now end.

(** A call of [Allow] with its time, key and answer. *)
Record call : Type := mkCall { at_ : Z; who : string; allowed : bool }.

(** Run the events in order, the log of the [Allow] calls first. *)
Fixpoint run (l : Limiter) (evs : list event) : list call * Limiter :=
  match evs with
  | [] => ([], l)
  | EvAllow now key :: rest =>
      let '(ok, l') := Allow l now key in
      let '(log, l'') := run l' rest in
      (mkCall now key ok :: log, l'')
  | EvCleanup now :: rest => run (cleanup l now) rest
  end.

(** The clock is monotonic. *)
Fixpoint monotonic (evs : list event) : Prop :=
  match evs with
  | e :: ((e' :: _) as rest) => eventTime e <= eventTime e' /\ monotonic rest
  | _ => True
  end.

(** The call is for [key], was answered true, and its time is in [[lo, hi]]. *)
Definition counts (key : string) (lo hi : Z) (c : call) : bool :=
  String.eqb (who c) key && allowed c && (lo <=? at_ c) && (at_ c <=? hi).

Definition admittedIn (key : string) (lo hi : Z) (log : list call) : nat :=
  List.length (List.filter (counts key lo hi) log).

(** The number of calls for [key] answered true within the interval of
    duration [len] that starts at [from]. *)
Definition admitted (key : string) (from len : Z) (log : list call) : nat :=
  admittedIn key from (from + len) log.

(** The bucket of every key has its tokens between [lo] and [hi]. *)
Definition tokensWithin (lo hi : Z) (l : Limiter) : Prop :=
  forall key b, buckets l !! key = Some b -> lo <= tokens b <= hi.

(** How many calls the bucket [ob] of a key can still answer true up to the
    time [hi]: what is left of its window and one refill when no second
    refill can come before [hi], two windows otherwise. *)
Definition budget (R W hi : Z) (ob : option bucket) : Z :=
  match ob with
  | Some b => if hi <? lastReset b + 2 * W then Z.max 0 (tokens b) + R else 2 * R
  | None => 2 * R
  end.

(** A window of 2^62 ns, whose double does not fit in [int64]: a sweep
    after every call. *)
Definition swept : list event :=
  [EvAllow 0 "203.0.113.195"; EvCleanup 1; EvAllow 2 "203.0.113.195"; EvCleanup 3;
   EvAllow 4 "203.0.113.195"].

(** Calls around the boundary of a window: [rate = 2], [window = 10]. *)
Definition burst : list event :=
  [EvAllow 0 "203.0.113.195"; EvAllow 9 "203.0.113.195";
   EvAllow 10 "203.0.113.195"; EvAllow 11 "203.0.113.195"].

End ratelimit.

(** ** The request coordinator *)

Module handler.

Record SearchParams : Type := mkSearchParams {
  City : string;
  Checkin : string;
  Nights : Z;
  Adults : Z
}.

Definition isDigit (c : ascii) : bool :=
  let n := N_of_ascii c in ((48 <=? n) && (n <=? 57))%N.

Definition digitVal (c : ascii) : Z := Z.of_N (N_of_ascii c) - 48.

Fixpoint allDigits (s : string) : bool :=
  match s with
  | EmptyString => true
  | String c r => isDigit c && allDigits r
  end.

Fixpoint digitsVal (acc : Z) (s : string) : Z :=
  match s with
  | EmptyString => acc
  | String c r => digitsVal (acc * 10 + digitVal c) r
  end.

(** [strconv.Atoi]: an optional sign, then decimal digits only; a value
    outside of the 64-bit range is an error. *)
Definition Atoi (s : string) : option Z :=
  let '(negative, body) :=
    match s with
    | String "-" r => (true, r)
    | String "+" r => (false, r)
    | _ => (false, s)
    end in
  match body with
  | EmptyString => None
  | _ =>
      if allDigits body then
        let n := if negative then - digitsVal 0 body else digitsVal 0 body in
        if (- 2 ^ 63 <=? n) && (n <=? 2 ^ 63 - 1) then Some n else None
      else None
  end.

Definition isLeap (year : Z) : bool :=
  (year mod 4 =? 0)%Z && (negb (year mod 100 =? 0)%Z || (year mod 400 =? 0)%Z).

Definition daysIn (month year : Z) : Z :=
  if (month =? 2)%Z then (if isLeap year then 29 else 28)
  else if (month =? 4)%Z || (month =? 6)%Z || (month =? 9)%Z || (month =? 11)%Z
       then 30 else 31.

(** [time.Parse("2006-01-02", s)] succeeds: four digits, two digits, two
    digits with [-] between, nothing after, a month and a day that exist. *)
Definition validDate (s : string) : bool :=
  match s with
  | String y1 (String y2 (String y3 (String y4 (String "-"
      (String m1 (String m2 (String "-" (String d1 (String d2 EmptyString))))))))) =>
      isDigit y1 && isDigit y2 && isDigit y3 && isDigit y4 &&
      isDigit m1 && isDigit m2 && isDigit d1 && isDigit d2 &&
      (let year := digitsVal 0 (String y1 (String y2 (String y3 (String y4 EmptyString)))) in
       let month := digitsVal 0 (String m1 (String m2 EmptyString)) in
       let day := digitsVal 0 (String d1 (String d2 EmptyString)) in
       (1 <=? month) && (month <=? 12) && (1 <=? day) && (day <=? daysIn month year))
  | _ => false
  end.

(** [ParseSearchParams] on the values [query.Get] gives for [city],
    [checkin], [nights] and [adults] (empty when the parameter is absent). *)
Definition ParseSearchParams (qcity qcheckin qnights qadults : string)
  : SearchParams + error :=
  let city := strings.TrimSpace qcity in
  if String.eqb city "" then inr "city is required" else
  let checkin := strings.TrimSpace qcheckin in
  if String.eqb checkin "" then inr "checkin is required" else
  if negb (validDate checkin) then inr "checkin must be in YYYY-MM-DD format" else
  if String.eqb qnights "" then inr "nights is required" else
  match Atoi qnights with
  | None => inr "nights must be a positive integer"
  | Some nights =>
      if nights <=? 0 then inr "nights must be a positive integer" else
      if String.eqb qadults "" then inr "adults is required" else
      match Atoi qadults with
      | None => inr "adults must be a positive integer"
      | Some adults =>
          if adults <=? 0 then inr "adults must be a positive integer" else
          inl (mkSearchParams city checkin nights adults)
      end
  end.

(** The key [SearchHandler] computes for validated parameters. *)
Definition keyOf (q : SearchParams) : string :=
  cache.Key (City q) (Checkin q) (Nights q) (Adults q).

(** The number of [:] in a string. *)
Fixpoint colons (s : string) : nat :=
  match s with
  | EmptyString => 0
  | String c r => ((if Ascii.eqb c ":" then 1 else 0) + colons r)%nat
  end.

(** Two validated queries, the city of the first with a colon in it. *)
Definition queryColon : SearchParams :=
  mkSearchParams "paris:2025-12-01" "2025-12-02" 3 2.

Definition queryPlain : SearchParams :=
  mkSearchParams "paris" "2025-12-01" 3 2.

End handler.

(** ** Further definitions *)

(** A normalized hotel sent through the normalizer again, as the row of a
    provider for [city] and [nights]. *)
Definition reported (h : types.Hotel) (city : string) (nights : Z) : providers.Hotel :=
  providers.mkHotel (types.HotelID h) (types.Name h) city
                    (types.Currency h) (types.Price h) nights.

(** A cache that holds one result for a key: [ttl = 30], stored at time 5. *)
Definition warmCache : cache.Cache :=
  cache.mkCache (<["paris:2025-12-01:2:2" :=
                     cache.mkEntry (Some cache.emptyResult) 35]> ∅) 30 ∅.

(** What holds of the entries in every reachable world. *)
Definition entriesSound (w : cache.world) : Prop :=
  (forall k e, cache.entries (cache.wcache w) !! k = Some e ->
     cache.result e <> None /\
     cache.expiresAt e <= cache.wnow w + cache.ttl (cache.wcache w)) /\
  (forall t a, cache.wthreads w !! t = Some (cache.Returned cache.ViaHit a) ->
     exists r, a = (Some r, true, None)).

(** The request a goroutine has still to complete. *)
Definition activeOf (x : cache.pc) : option nat :=
  match x with
  | cache.Fetching _ p | cache.Fetched _ p _ | cache.Closing _ p _ => Some p
  | _ => None
  end.

(** What a waiter relies on: a request in flight has a goroutine fetching
    for it, and the request a goroutine waits on is completed or has a
    goroutine that will complete it. *)
Definition served (w : cache.world) : Prop :=
  (forall k p, cache.inflight (cache.wcache w) !! k = Some p ->
     exists t x, cache.wthreads w !! t = Some x /\ cache.fetchOf x = Some (k, p)) /\
  (forall t k p, cache.wthreads w !! t = Some (cache.Waiting k p) ->
     (exists q, cache.wheap w !! p = Some q /\ cache.done q = true) \/
     (exists t' x, cache.wthreads w !! t' = Some x /\ activeOf x = Some p)).

(** The steps left to the goroutine that leads a request, when its fetch
    returns [out]. *)
Definition finish (x : cache.pc) (t : nat) (out : cache.outcome) : list cache.action :=
  match x with
  | cache.Fetching _ _ => [cache.AFetch t out; cache.ASettle t; cache.AClose t]
  | cache.Fetched _ _ _ => [cache.ASettle t; cache.AClose t]
  | cache.Closing _ _ _ => [cache.AClose t]
  | _ => []
  end.

(** A second caller joins the first one's request. *)
Definition joinedRun : list cache.action :=
  [cache.ACall 0 "paris:2025-12-01:2:2"; cache.AEnter 0;
   cache.ACall 1 "paris:2025-12-01:2:2"; cache.AEnter 1].

(** The events that touch the bucket of [key]: its own calls and the passes
    of the sweeper. *)
Definition concerns (key : string) (e : ratelimit.event) : bool :=
  match e with
  | ratelimit.EvAllow _ k => String.eqb k key
  | ratelimit.EvCleanup _ => true
  end.

Definition isAllow (e : ratelimit.event) : bool :=
  match e with
  | ratelimit.EvAllow _ _ => true
  | ratelimit.EvCleanup _ => false
  end.

(** Calls of [Allow] for one key at the given times. *)
Definition callsOf (key : string) (times : list Z) : list ratelimit.event :=
  List.map (fun t => ratelimit.EvAllow t key) times.

(** Every refused call of [log] comes after at least [R] admitted calls of
    its key within the window that ends at the call; [past] is the log
    before [log]. *)
Fixpoint justified (R W : Z) (past log : list ratelimit.call) : Prop :=
  match log with
  | [] => True
  | c :: rest =>
      (ratelimit.allowed c = false ->
       R <= Z.of_nat (ratelimit.admittedIn (ratelimit.who c)
                        (ratelimit.at_ c - W + 1) (ratelimit.at_ c) past)) /\
      justified R W (past ++ [c])%list rest
  end.

(** Two clients, and a pass of the sweeper between the calls. *)
Definition twoClients : list ratelimit.event :=
  [ratelimit.EvAllow 0 "203.0.113.195"; ratelimit.EvAllow 1 "198.51.100.7";
   ratelimit.EvAllow 2 "203.0.113.195"; ratelimit.EvCleanup 25;
   ratelimit.EvAllow 26 "203.0.113.195"; ratelimit.EvAllow 27 "203.0.113.195";
   ratelimit.EvAllow 28 "203.0.113.195"].

(** ** Metrics *)

Module obs.

(** [atomic.Int64.Add]: addition in 64 bits, two's complement. *)
Definition add64 (x d : Z) : Z := (x + d + 2 ^ 63) mod 2 ^ 64 - 2 ^ 63.

Record Metrics : Type := mkMetrics {
  requests : Z;
  cacheHits : Z;
  providerErrors : Z
}.

Definition NewMetrics : Metrics := mkMetrics 0 0 0.

Definition IncRequests (m : Metrics) : Metrics :=
  mkMetrics (add64 (requests m) 1) (cacheHits m) (providerErrors m).

Definition IncCacheHits (m : Metrics) : Metrics :=
  mkMetrics (requests m) (add64 (cacheHits m) 1) (providerErrors m).

Definition IncProviderErrors (m : Metrics) : Metrics :=
  mkMetrics (requests m) (cacheHits m) (add64 (providerErrors m) 1).

End obs.

(** ** The bodies of the responses of [/search] *)

Module response.

Record SearchInfo : Type := mkSearchInfo {
  City : string;
  Checkin : string;
  Nights : Z;
  Adults : Z
}.

Record SearchStats : Type := mkSearchStats {
  ProvidersTotal : Z;
  ProvidersSucceeded : Z;
  ProvidersFailed : Z;
  Cache : string;
  DurationMs : Z
}.

Record SearchResponse : Type := mkSearchResponse {
  Search : SearchInfo;
  Stats : SearchStats;
  Hotels : list types.Hotel
}.

(** What the client gets after the status: [{"error": message}], the
    response, or nothing when [Encode] returned an error for the response
    [r] (the status 200 is out by then, the handler only logs). *)
Inductive body : Type :=
  | Error (message : string)
  | Found (r : SearchResponse)
  | NotEncoded (r : SearchResponse).

End response.

(** ** The [/search] endpoint *)

Module endpoint.

(** What [SearchHandler] and [ParseSearchParams] read of a request: the
    first value of two headers ([Header.Get], empty when absent), the peer
    address and four query values. *)
Record Request : Type := mkRequest {
  XForwardedFor : string;
  XRealIP : string;
  RemoteAddr : string;
  qcity : string;
  qcheckin : string;
  qnights : string;
  qadults : string
}.

(** [strings.Split(s, ",")[0]]: the text before the first comma. *)
Fixpoint firstField (s : string) : string :=
  match s with
  | EmptyString => EmptyString
  | String c r => if Ascii.eqb c "," then EmptyString else String c (firstField r)
  end.

(** The readings of the clock during one request, in nanoseconds: at the
    start, in [Allow], in the two critical sections of [GetOrFetch], and at
    [time.Since]. *)
Record clock : Type := mkClock {
  startTime : Z;
  allowAt : Z;
  enterAt : Z;
  settleAt : Z;
  endTime : Z
}.

(** [Duration.Milliseconds]. *)
Definition Milliseconds (d : Z) : Z := Z.quot d 1000000.

(** The handler with what it shares between requests: limiter, cache (with
    the requests in flight it points to) and metrics. *)
Record Handler : Type := mkHandler {
  rateLimiter : ratelimit.Limiter;
  searchCache : cache.Cache;
  requestHeap : list cache.inflightRequest;
  metrics : obs.Metrics
}.

Definition New (searchCache : cache.Cache) (rateLimiter : ratelimit.Limiter)
    (metrics : obs.Metrics) : Handler :=
  mkHandler rateLimiter searchCache [] metrics.

(** How a call of [SearchHandler] ends. *)
Inductive reply : Type :=
  | Wrote (status : Z) (b : response.body)
  | NilDereference       (* [result.ProvidersTotal] on a nil [result] *)
  | Waits.               (* on the request in flight of another goroutine *)

Definition writeError (status : Z) (message : string) : reply :=
  Wrote status (response.Error message).

(** The response [SearchHandler] builds. *)
Definition searchResponse (params : handler.SearchParams) (result : types.Result)
    (cacheStatus : string) (duration : Z) : response.SearchResponse :=
  response.mkSearchResponse
    (response.mkSearchInfo (handler.City params) (handler.Checkin params)
       (handler.Nights params) (handler.Adults params))
    (response.mkSearchStats (types.ProvidersTotal result)
       (types.ProvidersSucceeded result) (types.ProvidersFailed result)
       cacheStatus duration)
    (types.Hotels result).

(** [encoding/json] refuses a float64 that is NaN or infinite. *)
Definition jsonFloat (x : float64) : bool :=
  match x with
  | S754_nan | S754_infinity _ => false
  | _ => true
  end.

(** [json.NewEncoder(w).Encode(response)] returns no error, a failure of
    the connection apart: every price can be encoded (strings and integers
    always can); it writes nothing when it returns an error. *)
Definition encodes (resp : response.SearchResponse) : bool :=
  forallb (fun h => jsonFloat (types.Price h)) (response.Hotels resp).

Definition encoded (resp : response.SearchResponse) : response.body :=
  if encodes resp then response.Found resp else response.NotEncoded resp.

(** [IncProviderErrors] once for every unit of [Search] that failed. *)
Definition countErrors (units : list unitOutcome) (m : obs.Metrics) : obs.Metrics :=
  Nat.iter (List.length (List.filter unitFailed units)) obs.IncProviderErrors m.

Section Endpoint.

Variable rangeMap : gmap string types.Hotel -> list types.Hotel.
Variable pdqsort :
  (types.Hotel -> types.Hotel -> bool) -> list types.Hotel -> list types.Hotel.

(** [net.SplitHostPort]: host and port, or an error. *)
Variable SplitHostPort : string -> option (string * string).

Definition ExtractIP (r : Request) : string :=
  if negb (String.eqb (XForwardedFor r) "")
  then strings.TrimSpace (firstField (XForwardedFor r))
  else if negb (String.eqb (XRealIP r) "")
  then strings.TrimSpace (XRealIP r)
  else match SplitHostPort (RemoteAddr r) with
       | Some (ip, _) => ip
       | None => RemoteAddr r
       end.

(** [SearchHandler] for one request handled with no other in between;
    [units] is what the providers answer if [Search] is called. *)
Definition SearchHandler (h : Handler) (clk : clock) (r : Request)
    (units : list unitOutcome) : reply * Handler :=
  let m := obs.IncRequests (metrics h) in
  let ip := ExtractIP r in
  let '(ok, lim) := ratelimit.Allow (rateLimiter h) (allowAt clk) ip in
  if negb ok
  then (writeError 429 "rate limit exceeded",
        mkHandler lim (searchCache h) (requestHeap h) m)
  else
    match handler.ParseSearchParams (qcity r) (qcheckin r) (qnights r) (qadults r) with
    | inr err => (writeError 400 err, mkHandler lim (searchCache h) (requestHeap h) m)
    | inl params =>
        let key := cache.Key (handler.City params) (handler.Checkin params)
                     (handler.Nights params) (handler.Adults params) in
        let '(ans, c, heap, fetched) :=
          cache.GetOrFetch (searchCache h) (requestHeap h) (enterAt clk) (settleAt clk)
            key (Search rangeMap pdqsort units) in
        let m := if fetched then countErrors units m else m in
        match ans with
        | None => (Waits, mkHandler lim c heap m)
        | Some (_, _, Some err) =>
            (writeError 500 "search failed", mkHandler lim c heap m)
        | Some (result, cacheHit, None) =>
            let duration := Milliseconds (endTime clk - startTime clk) in
            let cacheStatus := if cacheHit then "hit" else "miss" in
            let m := if cacheHit then obs.IncCacheHits m else m in
            match result with
            | None => (NilDereference, mkHandler lim c heap m)
            | Some result =>
                (Wrote 200
                   (encoded (searchResponse params result cacheStatus duration)),
                 mkHandler lim c heap m)
            end
        end
    end.

(** A request with the readings of the clock while it is handled and what
    the providers would answer. *)
Record arrival : Type := mkArrival {
  clockOf : clock;
  requestOf : Request;
  unitsOf : list unitOutcome
}.

(** Requests handled one after the other. *)
Fixpoint serve (h : Handler) (arrivals : list arrival) : list reply * Handler :=
  match arrivals with
  | [] => ([], h)
  | a :: rest =>
      let '(rep, h') := SearchHandler h (clockOf a) (requestOf a) (unitsOf a) in
      let '(reps, h'') := serve h' rest in
      (rep :: reps, h'')
  end.

(** The [Allow] call a request makes. *)
Definition allowOf (a : arrival) : ratelimit.event :=
  ratelimit.EvAllow (allowAt (clockOf a)) (ExtractIP (requestOf a)).

(** The cache holds no request in flight, and every entry holds what a call
    of [Search] returned. *)
Definition sound (h : Handler) : Prop :=
  cache.inflight (searchCache h) = ∅ /\
  forall k e, cache.entries (searchCache h) !! k = Some e ->
    exists units r, cache.result e = Some r /\
                    Search rangeMap pdqsort units = (Some r, None).

End Endpoint.

(** The handler when the server starts. *)
Definition fresh (rate window ttl : Z) : Handler :=
  New (cache.NewCache ttl) (ratelimit.New rate window) obs.NewMetrics.

Definition refused (rep : reply) : bool :=
  match rep with
  | Wrote 429 _ => true
  | _ => false
  end.

(** The response was built from a cache hit, whether or not its body
    could be encoded. *)
Definition servedFromCache (rep : reply) : bool :=
  match rep with
  | Wrote 200 (response.Found r) | Wrote 200 (response.NotEncoded r) =>
      String.eqb (response.Cache (response.Stats r)) "hit"
  | _ => false
  end.

(** A request of the tests, and the clock of a request handled within a
    millisecond from time [t]. *)
Definition parisRequest (forwardedFor : string) : Request :=
  mkRequest forwardedFor "" "192.168.1.1:12345" "paris" "2025-12-01" "2" "2".

Definition clockAt (t : Z) : clock := mkClock t t t t (t + 1000000).

(** A split of the peer address that always reports an error: requests that
    carry X-Forwarded-For do not consult it. *)
Definition noSplit (hostport : string) : option (string * string) := None.

End endpoint.

(** No comma in the string. *)
Fixpoint noComma (s : string) : bool :=
  match s with
  | EmptyString => true
  | String c r => negb (Ascii.eqb c ",") && noComma r
  end.

(** ** The providers over HTTP *)

(** The values of the query parameters of a provider request. *)
Record providerQuery : Type := mkProviderQuery {
  pcity : string;
  pcheckin : string;
  pnights : string;
  padults : string
}.

Module httpprovider.

(** The query [HTTPProvider.Search] sets on the URL: the numbers are printed
    with [%d]. *)
Definition query (city checkin : string) (nights adults : Z) : providerQuery :=
  mkProviderQuery city checkin (cache.itoa nights) (cache.itoa adults).

End httpprovider.

Module mock.

(** How [ServeHTTP] of a mock provider goes on after its checks: a 400 with
    a message, or the call of [search]. *)
Inductive checked : Type :=
  | BadRequest (message : string)
  | Searches (city checkin : string) (nights adults : Z).

(** The checks of [Mock1.ServeHTTP], [Mock2.ServeHTTP] and
    [Mock3.ServeHTTP], which are the same. *)
Definition ServeHTTP (q : providerQuery) : checked :=
  let city := strings.TrimSpace (pcity q) in
  let checkin := strings.TrimSpace (pcheckin q) in
  if String.eqb city "" || String.eqb checkin "" ||
     String.eqb (pnights q) "" || String.eqb (padults q) ""
  then BadRequest "missing required parameters"
  else
    match handler.Atoi (pnights q) with
    | None => BadRequest "invalid nights"
    | Some nights =>
        if nights <=? 0 then BadRequest "invalid nights" else
        match handler.Atoi (padults q) with
        | None => BadRequest "invalid adults"
        | Some adults =>
            if adults <=? 0 then BadRequest "invalid adults"
            else Searches city checkin nights adults
        end
    end.

End mock.

(** ** The logging middleware *)

Module middleware.

(** A call on a [http.ResponseWriter]. *)
Inductive call : Type :=
  | CallWriteHeader (code : Z)
  | CallWrite (b : string).

(** The wrapper of [Logging]; the wrapped writer is what it has been called
    with, oldest call first. *)
Record responseWriter : Type := mkResponseWriter {
  ResponseWriter : list call;
  statusCode : Z;
  written : bool
}.

Definition WriteHeader (rw : responseWriter) (code : Z) : responseWriter :=
  if written rw then rw
  else mkResponseWriter (ResponseWriter rw ++ [CallWriteHeader code])%list code true.

Definition Write (rw : responseWriter) (b : string) : responseWriter :=
  mkResponseWriter (ResponseWriter rw ++ [CallWrite b])%list
    (if written rw then statusCode rw else 200) true.

(** [&responseWriter{ResponseWriter: w, statusCode: http.StatusOK}]. *)
Definition wrap : responseWriter := mkResponseWriter [] 200 false.

(** The calls of the next handler on the wrapper, in order. *)
Definition handled (rw : responseWriter) (calls : list call) : responseWriter :=
  fold_left (fun rw c => match c with
                         | CallWriteHeader code => WriteHeader rw code
                         | CallWrite b => Write rw b
                         end) calls rw.

Definition isWrite (c : call) : bool :=
  match c with CallWrite _ => true | CallWriteHeader _ => false end.

(** The wrapper has forwarded nothing yet, or one [WriteHeader] with the
    recorded status and then writes only, or writes only with status 200. *)
Definition consistent (rw : responseWriter) : Prop :=
  Forall (fun c => isWrite c = true) (List.tl (ResponseWriter rw)) /\
  match ResponseWriter rw with
  | [] => written rw = false /\ statusCode rw = 200
  | CallWriteHeader code :: _ => written rw = true /\ statusCode rw = code
  | CallWrite _ :: _ => written rw = true /\ statusCode rw = 200
  end.

End middleware.

(** * Properties *)

Example normalizeHotel_ex1 :
  normalizeHotel (providers.mkHotel " H006 " "Valid Hotel 2" "paris" "usd" (F64.ofPos 200) 2)
  = Some (types.mkHotel "H006" "Valid Hotel 2" "USD" (F64.ofPos 200)).
Proof. reflexivity. Qed.

Example normalizeHotel_ex2 :
  normalizeHotel (providers.mkHotel "H005" "Invalid Price" "paris" "EUR" (F64.neg (F64.ofPos 50)) 2)
  = None.
Proof. reflexivity. Qed.

Example ofPos_100 : F64.ofPos 100 = S754_finite false 7036874417766400 (-46).
Proof. reflexivity. Qed.

(** The scenarios of the test suite. *)

Example Search_merging :
  Search rangeListed insertionSort
    [UnitOk [providers.mkHotel "H001" "Hotel A" "paris" "EUR" (F64.ofPos 100) 2;
             providers.mkHotel "H002" "Hotel B" "paris" "EUR" (F64.ofPos 150) 2];
     UnitOk [providers.mkHotel "H003" "Hotel C" "paris" "EUR" (F64.ofPos 120) 2;
             providers.mkHotel "H004" "Hotel D" "paris" "EUR" (F64.ofPos 200) 2]]
  = (Some (types.mkResult
       [types.mkHotel "H001" "Hotel A" "EUR" (F64.ofPos 100);
        types.mkHotel "H003" "Hotel C" "EUR" (F64.ofPos 120);
        types.mkHotel "H002" "Hotel B" "EUR" (F64.ofPos 150);
        types.mkHotel "H004" "Hotel D" "EUR" (F64.ofPos 200)] 2 2 0), None).
Proof. vm_compute. reflexivity. Qed.

Example Search_deduplication :
  Search rangeListed insertionSort unitsDedup = (Some resultDedup, None).
Proof. vm_compute. reflexivity. Qed.

Example Search_all_fail :
  Search rangeListed insertionSort [UnitErr "all providers down"; UnitErr "timeout"]
  = (None, Some "all providers down").
Proof. vm_compute. reflexivity. Qed.

Example Allow_window_reset :
  map ratelimit.allowed
    (fst (ratelimit.run (ratelimit.New 2 50)
       [ratelimit.EvAllow 0 "user1"; ratelimit.EvAllow 1 "user1";
        ratelimit.EvAllow 2 "user1"; ratelimit.EvAllow 62 "user1";
        ratelimit.EvAllow 63 "user1"]))
  = [true; true; false; true; true].
Proof. vm_compute. reflexivity. Qed.

Example Key_basic : cache.Key "paris" "2024-01-15" 3 2 = "paris:2024-01-15:3:2".
Proof. vm_compute. reflexivity. Qed.

Example Key_zero : cache.Key "london" "" 0 0 = "london::0:0".
Proof. vm_compute. reflexivity. Qed.

Example ParseSearchParams_bad_date :
  handler.ParseSearchParams "paris" "2025-02-30" "2" "2"
  = inr "checkin must be in YYYY-MM-DD format".
Proof. vm_compute. reflexivity. Qed.

(** ** float64 comparisons *)

Module F64Facts.
Import F64.

Lemma key_None x : key x = None <-> x = NaN.
Proof. destruct x as [[]|[]| |[] m e]; simpl; split; intros H; done. Qed.

Lemma lt_NaN_l x : lt NaN x = false.
Proof. reflexivity. Qed.

Lemma lt_NaN_r x : lt x NaN = false.
Proof. destruct x as [[]|[]| |[] m e]; reflexivity. Qed.

Lemma le_NaN_l x : le NaN x = false.
Proof. reflexivity. Qed.

Lemma le_NaN_r x : le x NaN = false.
Proof. destruct x as [[]|[]| |[] m e]; reflexivity. Qed.

Ltac cmp_cases :=
  repeat match goal with
  | |- context [Z.compare ?a ?b] =>
      let H := fresh in destruct (Z.compare_spec a b) as [H|H|H]; simpl
  | |- context [Pos.compare_cont Eq ?a ?b] =>
      change (Pos.compare_cont Eq a b) with (Pos.compare a b);
      let H := fresh in destruct (Pos.compare_spec a b) as [H|H|H]; simpl
  end.

Lemma lt_key a b ka kb :
  key a = Some ka -> key b = Some kb -> (lt a b = true <-> key_lt ka kb).
Proof.
  destruct a as [[]|[]| |[] m e], b as [[]|[]| |[] m' e']; simpl;
    intros Ha Hb; simplify_eq; unfold lt, SFltb, SFcompare, key_lt;
    cmp_cases; split; intros; try done; try lia.
Qed.

Lemma le_key a b ka kb :
  key a = Some ka -> key b = Some kb -> (le a b = true <-> key_le ka kb).
Proof.
  destruct a as [[]|[]| |[] m e], b as [[]|[]| |[] m' e']; simpl;
    intros Ha Hb; simplify_eq; unfold le, SFleb, SFcompare, key_le, key_lt;
    cmp_cases; split; intros Hx; try done;
    try (by right); try (left; lia); try (right; f_equal; [f_equal|]; lia);
    try (destruct Hx as [Hx|Hx]; [lia | simplify_eq; lia]).
Qed.

Lemma key_lt_trans a b c : key_lt a b -> key_lt b c -> key_lt a c.
Proof. destruct a as [[??]?], b as [[??]?], c as [[??]?]; simpl; lia. Qed.

Lemma key_total a b : key_lt a b \/ a = b \/ key_lt b a.
Proof.
  destruct a as [[c1 e1] m1], b as [[c2 e2] m2]; simpl.
  destruct (Z.lt_total c1 c2) as [|[->|]]; [lia| |lia].
  destruct (Z.lt_total e1 e2) as [|[->|]]; [lia| |lia].
  destruct (Z.lt_total m1 m2) as [|[->|]]; [lia| |lia].
  right; left; reflexivity.
Qed.

Lemma key_lt_irrefl a : ~ key_lt a a.
Proof. destruct a as [[??]?]; simpl; lia. Qed.

Lemma key_is_Some x : isNaN x = false -> exists k, key x = Some k.
Proof. destruct x as [[]|[]| |[] m e]; simpl; intros; try done; eauto. Qed.

(** A positive price is a number. *)
Lemma lt_zero_not_NaN x : lt zero x = true -> isNaN x = false.
Proof. destruct x as [[]|[]| |[] m e]; simpl; intros; done. Qed.

(** Among numbers, [<] and [<=] are the two halves of a total order. *)
Lemma lt_false_le a b :
  isNaN a = false -> isNaN b = false -> lt a b = false -> le b a = true.
Proof.
  intros [ka Ha]%key_is_Some [kb Hb]%key_is_Some Hlt.
  apply (le_key _ _ _ _ Hb Ha).
  destruct (key_total ka kb) as [H|[H|H]].
  - apply (lt_key _ _ _ _ Ha Hb) in H. congruence.
  - right; congruence.
  - left; exact H.
Qed.

Lemma lt_le a b : lt a b = true -> le a b = true.
Proof.
  intros H. destruct (isNaN a) eqn:Ea.
  { destruct a; simpl in Ea; try done. }
  destruct (isNaN b) eqn:Eb.
  { destruct b; simpl in Eb; try done. by rewrite lt_NaN_r in H. }
  apply key_is_Some in Ea as [ka Ha]. apply key_is_Some in Eb as [kb Hb].
  apply (le_key _ _ _ _ Ha Hb). left. by apply (lt_key _ _ _ _ Ha Hb).
Qed.

Lemma le_not_NaN a b : le a b = true -> isNaN a = false /\ isNaN b = false.
Proof.
  intros H; split.
  - destruct a; simpl; try done.
  - destruct b; simpl; try done. by rewrite le_NaN_r in H.
Qed.

Lemma le_trans a b c : le a b = true -> le b c = true -> le a c = true.
Proof.
  intros Hab Hbc.
  destruct (le_not_NaN _ _ Hab) as [[ka Ha]%key_is_Some [kb Hb]%key_is_Some].
  destruct (le_not_NaN _ _ Hbc) as [_ [kc Hc]%key_is_Some].
  apply (le_key _ _ _ _ Ha Hb) in Hab. apply (le_key _ _ _ _ Hb Hc) in Hbc.
  apply (le_key _ _ _ _ Ha Hc).
  destruct Hab as [Hab| ->], Hbc as [Hbc| ->]; unfold key_le; eauto using key_lt_trans.
Qed.

Lemma le_refl a : isNaN a = false -> le a a = true.
Proof.
  intros [ka Ha]%key_is_Some. apply (le_key _ _ _ _ Ha Ha). by right.
Qed.

Lemma lt_trans a b c : lt a b = true -> lt b c = true -> lt a c = true.
Proof.
  intros Hab Hbc.
  destruct (le_not_NaN _ _ (lt_le _ _ Hab)) as [[ka Ha]%key_is_Some [kb Hb]%key_is_Some].
  destruct (le_not_NaN _ _ (lt_le _ _ Hbc)) as [_ [kc Hc]%key_is_Some].
  apply (lt_key _ _ _ _ Ha Hb) in Hab. apply (lt_key _ _ _ _ Hb Hc) in Hbc.
  apply (lt_key _ _ _ _ Ha Hc). eauto using key_lt_trans.
Qed.

Lemma lt_irrefl a : lt a a = false.
Proof.
  destruct (isNaN a) eqn:Ea.
  { destruct a; simpl in Ea; done. }
  apply key_is_Some in Ea as [ka Ha].
  destruct (lt a a) eqn:E; [|done].
  apply (lt_key _ _ _ _ Ha Ha) in E. by apply key_lt_irrefl in E.
Qed.

Lemma le_lt_false a b : le a b = true -> lt b a = false.
Proof.
  intros Hab.
  destruct (le_not_NaN _ _ Hab) as [[ka Ha]%key_is_Some [kb Hb]%key_is_Some].
  apply (le_key _ _ _ _ Ha Hb) in Hab.
  destruct (lt b a) eqn:E; [|done].
  apply (lt_key _ _ _ _ Hb Ha) in E.
  destruct Hab as [Hab| ->].
  - destruct (key_lt_irrefl ka). eauto using key_lt_trans.
  - by apply key_lt_irrefl in E.
Qed.

(** [x <= 0] is false and [x] is a number: [x] is positive. *)
Lemma le_zero_false_pos x :
  isNaN x = false -> le x zero = false -> lt zero x = true.
Proof.
  intros Hx Hle. destruct (lt zero x) eqn:E; [done|].
  apply lt_false_le in E; [congruence|done..].
Qed.

Lemma lt_le_trans a b c : lt a b = true -> le b c = true -> lt a c = true.
Proof.
  intros Hab Hbc.
  destruct (le_not_NaN _ _ (lt_le _ _ Hab)) as [[ka Ha]%key_is_Some [kb Hb]%key_is_Some].
  destruct (le_not_NaN _ _ Hbc) as [_ [kc Hc]%key_is_Some].
  apply (lt_key _ _ _ _ Ha Hb) in Hab. apply (le_key _ _ _ _ Hb Hc) in Hbc.
  apply (lt_key _ _ _ _ Ha Hc).
  destruct Hbc as [Hbc| ->]; eauto using key_lt_trans.
Qed.

End F64Facts.

(** ** The normalizer *)

Lemma trimLeft_head_not_space c r s :
  strings.trimLeft s = String c r -> strings.isSpace c = false.
Proof.
  induction s as [|a s IH]; simpl; [done|].
  destruct (strings.isSpace a) eqn:E; [exact IH|].
  intros [= <- _]. exact E.
Qed.

Lemma ToUpper_noLower s : strings.noLower (strings.ToUpper s) = true.
Proof.
  induction s as [|c s IH]; simpl; [done|].
  rewrite IH, andb_true_r. unfold strings.upperByte.
  destruct (strings.isLower c) eqn:E; [|by rewrite E].
  unfold strings.isLower in *.
  apply andb_true_iff in E as [E1%N.leb_le E2%N.leb_le].
  rewrite N_ascii_embedding by lia.
  apply negb_true_iff, andb_false_iff. left. apply N.leb_gt. lia.
Qed.

(** What [normalizeHotel] lets through: the identifier and the name are not
    empty, the currency is not empty and has no lower-case letter, and the
    price is not [<= 0]; a price that is a number is then positive. *)
Lemma normalizeHotel_Some raw h :
  normalizeHotel raw = Some h ->
  types.HotelID h <> "" /\ types.Name h <> "" /\
  types.Currency h <> "" /\ strings.noLower (types.Currency h) = true /\
  types.Price h = providers.Price raw /\
  F64.le (types.Price h) F64.zero = false /\
  (F64.isNaN (providers.Price raw) = false -> F64.lt F64.zero (types.Price h) = true).
Proof.
  unfold normalizeHotel.
  destruct (String.eqb_spec (strings.TrimSpace (providers.HotelID raw)) "") as [|Hid]; [done|].
  destruct (String.eqb_spec (strings.TrimSpace (providers.Name raw)) "") as [|Hname]; [done|].
  destruct (F64.le (providers.Price raw) F64.zero) eqn:Hp; [done|].
  intros [= <-]; simpl. repeat split; try done.
  - destruct (String.eqb_spec
      (strings.ToUpper (strings.TrimSpace (providers.Currency raw))) ""); done.
  - destruct (String.eqb_spec
      (strings.ToUpper (strings.TrimSpace (providers.Currency raw))) "");
      [done | apply ToUpper_noLower].
  - intros Hn. by apply F64Facts.le_zero_false_pos.
Qed.

(** A price [<= 0] is rejected. *)
Lemma normalizeHotel_rejects raw :
  F64.le (providers.Price raw) F64.zero = true -> normalizeHotel raw = None.
Proof.
  intros H. unfold normalizeHotel. rewrite H.
  repeat match goal with |- context [if ?c then _ else _] => destruct c end; done.
Qed.

(** ** The aggregator: counters *)

Lemma fold_unitStep_counts units st :
  let st' := fold_left unitStep units st in
  failed st' = failed st + countFailed units /\
  succeeded st' = succeeded st + countSucceeded units /\
  errors st' = (errors st ++ omap unitError units)%list.
Proof.
  revert st. induction units as [|o units IH]; intros st; simpl.
  { unfold countFailed, countSucceeded; simpl. rewrite app_nil_r.
    repeat split; lia. }
  destruct (IH (unitStep st o)) as (Hf & Hs & He).
  rewrite Hf, Hs, He. unfold countFailed, countSucceeded in *.
  destruct o as [e|hs]; simpl; rewrite ?Nat2Z.inj_succ, <- ?app_assoc; simpl;
    repeat split; try lia; done.
Qed.

Lemma runUnits_counts units :
  failed (runUnits units) = countFailed units /\
  succeeded (runUnits units) = countSucceeded units /\
  errors (runUnits units) = omap unitError units.
Proof.
  destruct (fold_unitStep_counts units searchInit) as (Hf & Hs & He).
  unfold runUnits. rewrite Hf, Hs, He. simpl. repeat split; lia.
Qed.

Lemma counts_total units :
  countSucceeded units + countFailed units = Z.of_nat (List.length units).
Proof.
  unfold countSucceeded, countFailed.
  induction units as [|o units IH]; simpl; [done|].
  destruct (unitFailed o); simpl; lia.
Qed.

Lemma length_errors units :
  Z.of_nat (List.length (omap unitError units)) = countFailed units.
Proof.
  unfold countFailed. f_equal.
  induction units as [|[e|hs] units IH]; simpl; [done| |done].
  f_equal. exact IH.
Qed.

Lemma countFailed_all units :
  countFailed units = Z.of_nat (List.length units) <->
  Forall (fun o => unitFailed o = true) units.
Proof.
  unfold countFailed. split.
  - induction units as [|o units IH]; simpl; [constructor|].
    pose proof (List.filter_length_le unitFailed units).
    destruct (unitFailed o) eqn:E; simpl; intros Hc; [|lia].
    constructor; [done|]. apply IH. lia.
  - induction 1 as [|o units Ho _ IH]; simpl; [done|].
    rewrite Ho; simpl. lia.
Qed.

(** When [Search] returns an error and when a result. *)
Lemma Search_cases rangeMap pdqsort units :
  (units <> [] /\ Forall (fun o => unitFailed o = true) units /\
   Search rangeMap pdqsort units = (None, head (omap unitError units))) \/
  (~ (units <> [] /\ Forall (fun o => unitFailed o = true) units) /\
   Search rangeMap pdqsort units =
     (Some (types.mkResult
              (sortSlice pdqsort byPrice (rangeMap (hotelMap (runUnits units))))
              (Z.of_nat (List.length units))
              (countSucceeded units) (countFailed units)), None)).
Proof.
  unfold Search. destruct (runUnits_counts units) as (Hf & Hs & He).
  rewrite Hf, Hs, He.
  pose proof (length_errors units) as Hlen.
  pose proof (countFailed_all units) as Hall.
  destruct (Nat.ltb_spec 0 (List.length (omap unitError units))) as [Hpos|Hz]; simpl.
  - destruct (Z.eqb_spec (countFailed units) (Z.of_nat (List.length units))) as [Heq|Hne].
    + left. repeat split; [|by apply Hall]. intros ->. simpl in Hpos. lia.
    + right. split; [|done]. intros [_ H]. by apply Hall in H.
  - right. split; [|done]. intros [Hne H]. apply Hall in H.
    destruct units; [done|]. simpl in *. lia.
Qed.

Lemma head_errors_In units e :
  head (omap unitError units) = Some e -> In (UnitErr e) units.
Proof.
  induction units as [|[e'|hs] units IH]; simpl; [done| |].
  - intros [= ->]. by left.
  - intros H. right. by apply IH.
Qed.

Lemma unitOk_not_all_failed units hs :
  In (UnitOk hs) units -> ~ Forall (fun o => unitFailed o = true) units.
Proof.
  intros Hin Hall. rewrite Forall_forall in Hall.
  apply list_elem_of_In in Hin. specialize (Hall _ Hin). done.
Qed.

(** C1. [normalizeHotel] does not reject a NaN price: Go's [NaN <= 0] is
    false, so the row passes the price guard and a hotel whose price is not
    greater than 0 reaches the result of [Search]. *)
Theorem C1_normalizeHotel_accepts_NaN :
  F64.le (providers.Price rawNaN) F64.zero = false /\
  normalizeHotel rawNaN = Some (types.mkHotel "H001" "Hotel A" "EUR" F64.NaN) /\
  F64.lt F64.zero F64.NaN = false /\
  Search rangeListed insertionSort [UnitOk [rawNaN]] =
    (Some (types.mkResult [types.mkHotel "H001" "Hotel A" "EUR" F64.NaN] 1 1 0), None).
Proof. repeat split; vm_compute; reflexivity. Qed.

(** C2, as stated, fails for an aggregator without providers: every unit
    (there is none) returned an error, and [Search] returns a result. *)
Lemma C2_counterexample :
  ~ (snd (Search rangeListed insertionSort []) <> None <->
     Forall (fun o => unitFailed o = true) []).
Proof.
  intros [_ H]. apply H; [constructor|]. vm_compute. reflexivity.
Qed.

(** C2, amended. [Search] returns an error if and only if there is at least
    one provider and every provider's unit returned an error; the error is
    then the failure of one of the units and no result comes with it. In
    every other case [Search] returns a result that reports the number of
    failed units, whatever the number of hotels that passed normalization;
    that is the case as soon as one unit succeeded. *)
Theorem C2_search_error_iff rangeMap pdqsort units :
  (snd (Search rangeMap pdqsort units) <> None <->
     units <> [] /\ Forall (fun o => unitFailed o = true) units) /\
  (forall e, snd (Search rangeMap pdqsort units) = Some e ->
     fst (Search rangeMap pdqsort units) = None /\ In (UnitErr e) units) /\
  (snd (Search rangeMap pdqsort units) = None ->
     exists r, fst (Search rangeMap pdqsort units) = Some r /\
               types.ProvidersFailed r = countFailed units) /\
  (forall hs, In (UnitOk hs) units -> snd (Search rangeMap pdqsort units) = None).
Proof.
  destruct (Search_cases rangeMap pdqsort units) as [(Hne & Hall & ->)|(Hnot & ->)]; simpl.
  - assert (exists e, head (omap unitError units) = Some e) as [e He].
    { destruct units as [|[e|hs] units]; [done| |].
      - by exists e.
      - inversion Hall; subst; done. }
    repeat split; try done.
    + rewrite He. done.
    + apply head_errors_In. congruence.
    + rewrite He. done.
    + intros hs Hin. by destruct (unitOk_not_all_failed _ _ Hin).
  - repeat split; try done.
    intros _. eexists; split; reflexivity.
Qed.

Lemma C2_witness :
  exists r, fst (Search rangeListed insertionSort unitsPartial) = Some r /\
            types.ProvidersFailed r = countFailed unitsPartial.
Proof.
  destruct (C2_search_error_iff rangeListed insertionSort unitsPartial)
    as (_ & _ & Hres & Hok).
  apply Hres, (Hok [providers.mkHotel "H001" "Hotel A" "paris" "EUR" (F64.ofPos 100) 2]).
  left. reflexivity.
Defined.

(** C5. Every result of [Search] has
    [providers_succeeded + providers_failed = providers_total], and
    [providers_total] is the number of configured providers. *)
Theorem C5_counts_add_up rangeMap pdqsort units r e :
  Search rangeMap pdqsort units = (Some r, e) ->
  types.ProvidersSucceeded r + types.ProvidersFailed r = types.ProvidersTotal r /\
  types.ProvidersTotal r = Z.of_nat (List.length units).
Proof.
  destruct (Search_cases rangeMap pdqsort units) as [(_ & _ & ->)|(_ & ->)]; [done|].
  intros [= <- <-]; simpl. split; [apply counts_total | done].
Qed.

Lemma C5_witness :
  types.ProvidersSucceeded
    (types.mkResult [types.mkHotel "H001" "Hotel A" "EUR" (F64.ofPos 100)] 2 1 1) +
  types.ProvidersFailed
    (types.mkResult [types.mkHotel "H001" "Hotel A" "EUR" (F64.ofPos 100)] 2 1 1) =
  types.ProvidersTotal
    (types.mkResult [types.mkHotel "H001" "Hotel A" "EUR" (F64.ofPos 100)] 2 1 1) /\
  types.ProvidersTotal
    (types.mkResult [types.mkHotel "H001" "Hotel A" "EUR" (F64.ofPos 100)] 2 1 1) =
  Z.of_nat (List.length unitsPartial).
Proof.
  apply (C5_counts_add_up rangeListed insertionSort unitsPartial _ None).
  vm_compute. reflexivity.
Defined.

(** ** The aggregator: merge *)

Lemma fold_mergeRaw hs m :
  fold_left mergeRaw hs m = fold_left mergeHotel (omap normalizeHotel hs) m.
Proof.
  revert m. induction hs as [|h hs IH]; intros m; simpl; [done|].
  unfold mergeRaw at 2. destruct (normalizeHotel h); simpl; apply IH.
Qed.

Lemma hotelMap_fold units st :
  hotelMap (fold_left unitStep units st) =
  fold_left mergeHotel (arrivals units) (hotelMap st).
Proof.
  revert st. induction units as [|o units IH]; intros st; simpl; [done|].
  rewrite IH, fold_left_app. destruct o as [e|hs]; simpl; [done|].
  by rewrite fold_mergeRaw.
Qed.

Lemma hotelMap_runUnits units :
  hotelMap (runUnits units) = fold_left mergeHotel (arrivals units) ∅.
Proof. unfold runUnits. by rewrite hotelMap_fold. Qed.

Lemma mergeHotel_keyed m n :
  keyed m -> keyed (mergeHotel m n).
Proof.
  intros Hm k h. unfold mergeHotel.
  destruct (m !! types.HotelID n) as [e|];
    [destruct (F64.lt (types.Price n) (types.Price e))|];
    try apply Hm; rewrite lookup_insert; case_decide;
    try apply Hm; by intros [= <-].
Qed.

Lemma fold_mergeHotel_keyed arr : forall m,
  keyed m -> keyed (fold_left mergeHotel arr m).
Proof.
  induction arr as [|n arr IH]; intros m Hm; [done|].
  simpl. by apply IH, mergeHotel_keyed.
Qed.

Lemma keptFrom_snoc_other seen h n :
  keptFrom seen h ->
  (types.HotelID n = types.HotelID h ->
   F64.le (types.Price h) (types.Price n) = true) ->
  keptFrom (seen ++ [n]) h.
Proof.
  intros (l1 & l2 & -> & H1 & H2) Hn.
  exists l1, (l2 ++ [n])%list. split; [by rewrite <- app_assoc|].
  split; [done|]. intros h' [Hin|Hin]%in_app_or Hid; [by apply H2|].
  destruct Hin as [<-|[]]. by apply Hn.
Qed.

Lemma merged_step m seen n :
  Forall positivePrice seen -> positivePrice n ->
  merged m seen -> merged (mergeHotel m n) (seen ++ [n]).
Proof.
  intros Hseen Hn [Hkept Hdom]. unfold mergeHotel.
  assert (Hnum : forall h, In h seen -> F64.isNaN (types.Price h) = false).
  { intros h Hin. rewrite Forall_forall in Hseen.
    apply F64Facts.lt_zero_not_NaN, Hseen. by apply list_elem_of_In. }
  assert (Hnn : F64.isNaN (types.Price n) = false)
    by by apply F64Facts.lt_zero_not_NaN.
  destruct (m !! types.HotelID n) as [e|] eqn:He.
  - destruct (Hkept _ _ He) as [Hide Hke].
    destruct (F64.lt (types.Price n) (types.Price e)) eqn:Hlt.
    + (* the new entry is strictly cheaper: it replaces the old one *)
      split.
      * intros k h. rewrite lookup_insert. case_decide as Hk.
        -- intros [= <-]. split; [done|].
           exists seen, []. split; [done|]. split; [|by intros ? []].
           destruct Hke as (l1 & l2 & -> & H1 & H2).
           intros h' Hin Hid. rewrite <- Hide in Hid.
           apply in_app_or in Hin as [Hin|[<-|Hin]].
           ++ eapply F64Facts.lt_trans; [exact Hlt|]. by apply H1.
           ++ done.
           ++ eapply F64Facts.lt_le_trans; [exact Hlt|]. by apply H2.
        -- intros Hh. destruct (Hkept _ _ Hh) as [Hid Hk']. split; [done|].
           apply keptFrom_snoc_other; [done|]. congruence.
      * intros h [Hin|[<-|[]]]%in_app_or.
        -- rewrite lookup_insert. case_decide; [by eexists|]. by apply Hdom.
        -- rewrite lookup_insert_eq. by eexists.
    + (* the old entry stays *)
      split.
      * intros k h Hh. destruct (Hkept _ _ Hh) as [Hid Hk']. split; [done|].
        apply keptFrom_snoc_other; [done|]. intros Hsame.
        assert (h = e) as -> by congruence.
        apply F64Facts.lt_false_le; [done| |done].
        destruct Hke as (l1 & l2 & -> & _). apply Hnum, in_elt.
      * intros h [Hin|[<-|[]]]%in_app_or; [by apply Hdom|]. by eexists.
  - split.
    + intros k h. rewrite lookup_insert. case_decide as Hk.
      * intros [= <-]. split; [done|].
        exists seen, []. split; [done|]. split; [|by intros ? []].
        intros h' Hin Hid. destruct (Hdom _ Hin) as [x Hx]. congruence.
      * intros Hh. destruct (Hkept _ _ Hh) as [Hid Hk']. split; [done|].
        apply keptFrom_snoc_other; [done|]. congruence.
    + intros h [Hin|[<-|[]]]%in_app_or.
      * rewrite lookup_insert. case_decide; [by eexists|]. by apply Hdom.
      * rewrite lookup_insert_eq. by eexists.
Qed.

Lemma merged_fold arr :
  Forall positivePrice arr -> merged (fold_left mergeHotel arr ∅) arr.
Proof.
  induction arr as [|n arr IH] using rev_ind; intros Hall.
  - split; [|by intros ? []]. simpl. intros k h. by rewrite lookup_empty.
  - apply Forall_app in Hall as [Harr Hn]. rewrite fold_left_app. simpl.
    apply merged_step; [done| |by apply IH].
    by inversion Hn.
Qed.

(** ** The aggregator: sort *)

Lemma sift_perm {A : Type} (less : A -> A -> bool) x l : sift less x l ≡ₚ x :: l.
Proof.
  induction l as [|y l IH]; simpl; [done|].
  destruct (less x y); [|done].
  rewrite IH. apply perm_swap.
Qed.

Lemma fold_sift_perm {A : Type} (less : A -> A -> bool) l acc :
  fold_left (fun acc x => sift less x acc) l acc ≡ₚ (l ++ acc)%list.
Proof.
  revert acc. induction l as [|x l IH]; intros acc; simpl; [done|].
  rewrite IH, sift_perm. by rewrite Permutation_middle.
Qed.

Lemma insertionSort_perm {A : Type} (less : A -> A -> bool) l :
  insertionSort less l ≡ₚ l.
Proof.
  unfold insertionSort. rewrite <- Permutation_rev, fold_sift_perm.
  by rewrite app_nil_r.
Qed.

Lemma sortSlice_perm pdqsort less l :
  (forall less l, pdqsort less l ≡ₚ l) -> sortSlice pdqsort less l ≡ₚ l.
Proof.
  intros Hp. unfold sortSlice.
  destruct (List.length l <=? 12)%nat; [apply insertionSort_perm | apply Hp].
Qed.

Lemma rangeListed_perm m : rangeListed m ≡ₚ (map_to_list m).*2.
Proof. reflexivity. Qed.

(** ** The aggregator: the hotels of a result *)

Lemma flattened_ids (l : list (string * types.Hotel)) :
  (forall k h, In (k, h) l -> types.HotelID h = k) ->
  map types.HotelID l.*2 = l.*1.
Proof.
  induction l as [|[k h] l IH]; intros H; simpl; [done|].
  rewrite (H k h) by by left. f_equal. apply IH.
  intros k' h' Hin. apply H. by right.
Qed.

Section ResultHotels.

Variable rangeMap : gmap string types.Hotel -> list types.Hotel.
Variable pdqsort :
  (types.Hotel -> types.Hotel -> bool) -> list types.Hotel -> list types.Hotel.
Hypothesis rangeMap_perm : forall m, rangeMap m ≡ₚ (map_to_list m).*2.
Hypothesis pdqsort_perm : forall less l, pdqsort less l ≡ₚ l.

Lemma flattened_perm m :
  sortSlice pdqsort byPrice (rangeMap m) ≡ₚ (map_to_list m).*2.
Proof. rewrite sortSlice_perm by done. apply rangeMap_perm. Qed.

Lemma flattened_In m h :
  In h (sortSlice pdqsort byPrice (rangeMap m)) <-> exists k, m !! k = Some h.
Proof.
  rewrite <- list_elem_of_In, flattened_perm, list_elem_of_fmap. split.
  - intros ([k h'] & -> & Hin). exists k. by apply elem_of_map_to_list.
  - intros [k Hk]. exists (k, h). split; [done|]. by apply elem_of_map_to_list.
Qed.

Lemma flattened_NoDup m :
  (forall k h, m !! k = Some h -> types.HotelID h = k) ->
  NoDup (map types.HotelID (sortSlice pdqsort byPrice (rangeMap m))).
Proof.
  intros Hid.
  rewrite (Permutation_map types.HotelID (flattened_perm m)).
  rewrite flattened_ids.
  - apply NoDup_fst_map_to_list.
  - intros k h Hin. apply Hid, elem_of_map_to_list. by apply list_elem_of_In.
Qed.

End ResultHotels.

(** The hotels of a result carry pairwise different identifiers. When the
    normalized hotels that arrive have positive prices, each hotel of the
    result is an arrival that was strictly cheaper than every earlier
    arrival with its identifier and at most as dear as every later one (a
    collision is won by the strictly lower price, equal prices keep the
    first seen); and every identifier that arrived is present with a price
    at most the prices reported for it. *)
Lemma merge_keeps_lowest rangeMap pdqsort units r e :
  (forall m, rangeMap m ≡ₚ (map_to_list m).*2) ->
  (forall less l, pdqsort less l ≡ₚ l) ->
  Search rangeMap pdqsort units = (Some r, e) ->
  NoDup (map types.HotelID (types.Hotels r)) /\
  (Forall positivePrice (arrivals units) ->
   (forall h, In h (types.Hotels r) -> keptFrom (arrivals units) h) /\
   (forall h', In h' (arrivals units) ->
      exists h, In h (types.Hotels r) /\ types.HotelID h = types.HotelID h' /\
                F64.le (types.Price h) (types.Price h') = true)).
Proof.
  intros Hrange Hsort.
  destruct (Search_cases rangeMap pdqsort units) as [(_ & _ & ->)|(_ & ->)]; [done|].
  intros [= <- <-]; simpl. rewrite hotelMap_runUnits. split.
  { apply flattened_NoDup; [done..|]. apply fold_mergeHotel_keyed.
    intros k h. by rewrite lookup_empty. }
  intros Hpos. destruct (merged_fold _ Hpos) as [Hkept Hdom]. split.
  - intros h Hh. apply flattened_In in Hh as [k Hk]; [|done..].
    by destruct (Hkept _ _ Hk).
  - intros h' Hin. destruct (Hdom _ Hin) as [h Hh].
    exists h. split; [apply flattened_In; eauto|].
    destruct (Hkept _ _ Hh) as [Hid (l1 & l2 & Heq & H1 & H2)].
    split; [done|]. rewrite Heq in Hin.
    apply in_app_or in Hin as [Hin|[<-|Hin]].
    + apply F64Facts.lt_le, H1; [done|congruence].
    + apply F64Facts.le_refl, F64Facts.lt_zero_not_NaN.
      rewrite Forall_forall in Hpos. apply Hpos.
      rewrite Heq. apply list_elem_of_In, in_elt.
    + apply H2; [done|congruence].
Qed.

Example merge_keeps_lowest_dedup :
  NoDup (map types.HotelID (types.Hotels resultDedup)) /\
  (forall h, In h (types.Hotels resultDedup) -> keptFrom (arrivals unitsDedup) h) /\
  (forall h', In h' (arrivals unitsDedup) ->
     exists h, In h (types.Hotels resultDedup) /\
               types.HotelID h = types.HotelID h' /\
               F64.le (types.Price h) (types.Price h') = true).
Proof.
  destruct (merge_keeps_lowest rangeListed insertionSort unitsDedup resultDedup None)
    as [Hids Hmin].
  - exact rangeListed_perm.
  - exact (@insertionSort_perm types.Hotel).
  - vm_compute. reflexivity.
  - split; [exact Hids|]. apply Hmin. vm_compute. repeat constructor.
Qed.

(** C3. A NaN price that arrives first for an identifier is never replaced:
    [normalizeHotel] lets the row through, and [100 < NaN] is false, so the
    result holds the hotel with the price NaN although 100 was reported for
    it; the entry kept is not the lowest price, whatever order the map is
    visited in. *)
Theorem C3_NaN_price_kept rangeMap pdqsort :
  (forall m, rangeMap m ≡ₚ (map_to_list m).*2) ->
  exists r, Search rangeMap pdqsort [UnitOk [rawNaN; rawOffer]] = (Some r, None) /\
    types.Hotels r = [types.mkHotel "H001" "Hotel A" "EUR" F64.NaN] /\
    In (types.mkHotel "H001" "Hotel A" "EUR" (F64.ofPos 100))
       (arrivals [UnitOk [rawNaN; rawOffer]]) /\
    F64.le F64.NaN (F64.ofPos 100) = false.
Proof.
  intros Hrange.
  destruct (Search_cases rangeMap pdqsort [UnitOk [rawNaN; rawOffer]])
    as [(_ & Hall & _)|(_ & ->)].
  { inversion Hall; subst; done. }
  eexists; split; [reflexivity|]. cbn [types.Hotels].
  split; [|split; [vm_compute; auto|reflexivity]].
  pose proof (Hrange (hotelMap (runUnits [UnitOk [rawNaN; rawOffer]]))) as Hp.
  assert (Hm : (map_to_list (hotelMap (runUnits [UnitOk [rawNaN; rawOffer]]))).*2 =
               [types.mkHotel "H001" "Hotel A" "EUR" F64.NaN])
    by (vm_compute; reflexivity).
  rewrite Hm in Hp.
  generalize dependent (rangeMap (hotelMap (runUnits [UnitOk [rawNaN; rawOffer]]))).
  intros l Hp.
  apply Permutation_sym, Permutation_length_1_inv in Hp as ->. reflexivity.
Qed.

Lemma C3_witness :
  exists r, Search rangeListed insertionSort [UnitOk [rawNaN; rawOffer]] = (Some r, None) /\
    types.Hotels r = [types.mkHotel "H001" "Hotel A" "EUR" F64.NaN] /\
    In (types.mkHotel "H001" "Hotel A" "EUR" (F64.ofPos 100))
       (arrivals [UnitOk [rawNaN; rawOffer]]) /\
    F64.le F64.NaN (F64.ofPos 100) = false.
Proof.
  apply (C3_NaN_price_kept rangeListed insertionSort). exact rangeListed_perm.
Defined.

(** C4. A provider that reports a NaN price breaks the order of the result:
    the hotel passes [normalizeHotel], and whatever order the map is visited
    in, [sort.Slice] leaves an adjacent pair whose earlier price is not
    [<=] the later one. *)
Theorem C4_NaN_price_unsorted rangeMap pdqsort :
  (forall m, rangeMap m ≡ₚ (map_to_list m).*2) ->
  exists r, Search rangeMap pdqsort [UnitOk [rawNaN; rawCheap]] = (Some r, None) /\
            priceSorted (types.Hotels r) = false.
Proof.
  intros Hrange.
  destruct (Search_cases rangeMap pdqsort [UnitOk [rawNaN; rawCheap]])
    as [(_ & Hall & _)|(_ & ->)].
  { inversion Hall; subst; done. }
  eexists; split; [reflexivity|]. cbn [types.Hotels].
  pose proof (Hrange (hotelMap (runUnits [UnitOk [rawNaN; rawCheap]]))) as Hp.
  assert (Hm : (map_to_list (hotelMap (runUnits [UnitOk [rawNaN; rawCheap]]))).*2 =
               [types.mkHotel "H001" "Hotel A" "EUR" F64.NaN;
                types.mkHotel "H002" "Hotel B" "EUR" (F64.ofPos 200)])
    by (vm_compute; reflexivity).
  rewrite Hm in Hp.
  generalize dependent (rangeMap (hotelMap (runUnits [UnitOk [rawNaN; rawCheap]]))).
  intros l Hp.
  apply Permutation_sym, Permutation_length_2_inv in Hp as [-> | ->];
    vm_compute; reflexivity.
Qed.

Lemma C4_witness :
  exists r, Search rangeListed insertionSort [UnitOk [rawNaN; rawCheap]] = (Some r, None) /\
            priceSorted (types.Hotels r) = false.
Proof.
  apply (C4_NaN_price_unsorted rangeListed insertionSort). exact rangeListed_perm.
Defined.

(** ** The aggregator: the order of a result without NaN *)

Section InsertionSort.

Context {A : Type} (less : A -> A -> bool) (P : A -> Prop).
Hypothesis less_asym : forall a b, P a -> P b -> less a b = true -> less b a = false.
Hypothesis less_negtrans : forall a b c, P a -> P b -> P c ->
  less a b = false -> less b c = false -> less a c = false.

Lemma sift_descending x rp :
  P x -> Forall P rp -> descending less rp -> descending less (sift less x rp).
Proof.
  intros Hx. induction rp as [|y r IH]; intros HP Hd; simpl.
  { repeat constructor. }
  apply Forall_cons in HP as [Hy Hr].
  apply StronglySorted_inv in Hd as [Hdr Hyr].
  destruct (less x y) eqn:Hxy.
  - constructor; [by apply IH|].
    rewrite (sift_perm less x r). constructor; [by apply less_asym|done].
  - constructor; [by constructor|].
    constructor; [done|].
    rewrite Forall_forall in Hyr, Hr |- *. intros w Hw.
    apply (less_negtrans x y w); auto.
Qed.

Lemma fold_sift_descending l acc :
  Forall P l -> Forall P acc -> descending less acc ->
  descending less (fold_left (fun acc x => sift less x acc) l acc).
Proof.
  revert acc. induction l as [|x l IH]; intros acc Hl Hacc Hd; simpl; [done|].
  apply Forall_cons in Hl as [Hx Hl].
  apply IH; [done| |by apply sift_descending].
  rewrite (sift_perm less x acc). by constructor.
Qed.

Lemma descending_rev l : descending less l -> sortedBy less (rev l).
Proof.
  unfold descending, sortedBy. induction l as [|x l IH]; intros Hd; simpl.
  { constructor. }
  apply StronglySorted_inv in Hd as [Hd Hx].
  apply StronglySorted_app_2; [|by apply IH|repeat constructor].
  intros a b Ha Hb. apply list_elem_of_singleton in Hb as ->.
  rewrite Forall_forall in Hx. apply Hx.
  by apply list_elem_of_In, in_rev, list_elem_of_In.
Qed.

Lemma insertionSort_sorted l : Forall P l -> sortedBy less (insertionSort less l).
Proof.
  intros Hl. apply descending_rev, fold_sift_descending; [done|constructor..].
Qed.

End InsertionSort.

Lemma byPrice_asym a b : byPrice a b = true -> byPrice b a = false.
Proof. intros H. by apply F64Facts.le_lt_false, F64Facts.lt_le. Qed.

Lemma byPrice_negtrans a b c :
  numeric a -> numeric b -> numeric c ->
  byPrice a b = false -> byPrice b c = false -> byPrice a c = false.
Proof.
  unfold byPrice, numeric. intros Ha Hb Hc Hab Hbc.
  apply F64Facts.le_lt_false.
  apply (F64Facts.le_trans _ (types.Price b)); by apply F64Facts.lt_false_le.
Qed.

(** Among hotels whose prices are numbers, [byPrice] is the comparison that
    package sort asks for. *)
Lemma byPrice_strictWeak l : Forall numeric l -> strictWeak byPrice l.
Proof.
  intros Hl. rewrite Forall_forall in Hl.
  assert (Hn : forall a, In a l -> numeric a)
    by (intros a Ha; by apply Hl, list_elem_of_In).
  split.
  - intros a _. apply F64Facts.lt_irrefl.
  - intros a b c _ _ _. apply F64Facts.lt_trans.
  - intros a b c Ha Hb Hc Hab Hba Hbc Hcb.
    split.
    + apply (byPrice_negtrans a b c); auto.
    + apply (byPrice_negtrans c b a); auto.
Qed.

Lemma sortedBy_priceSorted l :
  Forall numeric l -> sortedBy byPrice l -> priceSorted l = true.
Proof.
  induction l as [|a [|b r] IH]; intros Hn Hs; [done..|].
  cbn [priceSorted].
  apply Forall_cons in Hn as [Ha Hn]. pose proof Hn as [Hb _]%Forall_cons.
  apply StronglySorted_inv in Hs as [Hs Hall].
  apply Forall_cons in Hall as [Hba _].
  apply andb_true_iff. split; [by apply F64Facts.lt_false_le | by apply IH].
Qed.

Lemma arrivals_positive units :
  numericPrices units -> Forall positivePrice (arrivals units).
Proof.
  intros Hnum. apply Forall_forall. intros h Hin.
  apply list_elem_of_In, in_flat_map in Hin as ([e|hs] & Ho & Hh); [done|].
  apply list_elem_of_In, list_elem_of_omap in Hh as (raw & Hraw & Hnorm).
  apply normalizeHotel_Some in Hnorm as (_ & _ & _ & _ & _ & _ & Hpos).
  apply Hpos, (Hnum hs); [done|]. by apply list_elem_of_In.
Qed.

(** When no provider reports a NaN price, the hotels of a result are in
    non-decreasing order of price. *)
Lemma Search_sorted_without_NaN rangeMap pdqsort units r e :
  (forall m, rangeMap m ≡ₚ (map_to_list m).*2) ->
  (forall less l, pdqsort less l ≡ₚ l) ->
  (forall less l, strictWeak less l -> sortedBy less (pdqsort less l)) ->
  numericPrices units ->
  Search rangeMap pdqsort units = (Some r, e) ->
  priceSorted (types.Hotels r) = true.
Proof.
  intros Hrange Hperm Hsorted Hnum%arrivals_positive.
  destruct (Search_cases rangeMap pdqsort units) as [(_ & _ & ->)|(_ & ->)]; [done|].
  intros [= <- <-]; cbn [types.Hotels].
  destruct (merged_fold _ Hnum) as [Hkept _]. rewrite hotelMap_runUnits.
  set (m := fold_left mergeHotel (arrivals units) ∅) in *.
  assert (Hvals : Forall numeric (rangeMap m)).
  { apply Forall_forall. intros h Hh. rewrite Hrange in Hh.
    apply list_elem_of_fmap in Hh as ([k h'] & -> & Hin%elem_of_map_to_list).
    destruct (Hkept _ _ Hin) as [_ (l1 & l2 & Heq & _)].
    apply F64Facts.lt_zero_not_NaN. rewrite Forall_forall in Hnum.
    apply Hnum. rewrite Heq. apply list_elem_of_In, in_elt. }
  apply sortedBy_priceSorted.
  - by rewrite sortSlice_perm.
  - unfold sortSlice. destruct (List.length (rangeMap m) <=? 12)%nat.
    + apply (insertionSort_sorted byPrice numeric); [|apply byPrice_negtrans|done].
      intros a b _ _. apply byPrice_asym.
    + by apply Hsorted, byPrice_strictWeak.
Qed.

(** ** The cache: one caller *)

Module cacheFacts.
Import cache.

Lemma cacheable_iff out :
  cacheable out = true <-> snd out = None /\ fst out <> None.
Proof. destruct out as [[r|] [e|]]; simpl; split; intros H; try done; by destruct H. Qed.

Lemma enter_Leader c heap now key p c' heap' :
  enter c heap now key = (Leader p, c', heap') ->
  p = List.length heap /\
  inflight c !! key = None /\
  (forall e, entries c !! key = Some e -> expiresAt e <= now) /\
  c' = mkCache (entries c) (ttl c) (<[key := p]> (inflight c)) /\
  heap' = (heap ++ [mkInflight false None None])%list.
Proof.
  unfold enter, joinOrLead. destruct (entries c !! key) as [e|] eqn:He.
  - destruct (Z.ltb_spec now (expiresAt e)) as [|Hexp]; [done|].
    destruct (inflight c !! key) eqn:Hi; [done|].
    intros [= <- <- <-]. repeat split; try done. by intros e' [= <-].
  - destruct (inflight c !! key) eqn:Hi; [done|].
    intros [= <- <- <-]. repeat split; done.
Qed.

Lemma enter_cold c heap now key :
  inflight c !! key = None ->
  (forall e, entries c !! key = Some e -> expiresAt e <= now) ->
  enter c heap now key =
    (Leader (List.length heap),
     mkCache (entries c) (ttl c) (<[key := List.length heap]> (inflight c)),
     (heap ++ [mkInflight false None None])%list).
Proof.
  intros Hi Hexp. unfold enter, joinOrLead. rewrite Hi.
  destruct (entries c !! key) as [e|]; [|done].
  specialize (Hexp e eq_refl).
  destruct (Z.ltb_spec now (expiresAt e)); [lia|done].
Qed.

Lemma enter_inflight c heap now key p :
  inflight c !! key = Some p ->
  (forall e, entries c !! key = Some e -> expiresAt e <= now) ->
  enter c heap now key = (Waiter p, c, heap).
Proof.
  intros Hi Hexp. unfold enter, joinOrLead. rewrite Hi.
  destruct (entries c !! key) as [e|]; [|done].
  specialize (Hexp e eq_refl).
  destruct (Z.ltb_spec now (expiresAt e)); [lia|done].
Qed.

(** C6. A call of [GetOrFetch] that runs the fetch stores an entry for the
    key, expiring at [now + ttl], exactly when the fetch returned a nil error
    and a non-nil result, whatever the hotels of the result; otherwise the
    entries are left as they were, and since the request in flight is removed
    in both cases, the next caller of a fetch that was not cached runs a
    fetch of its own. *)
Theorem C6_store_iff_success c heap now1 now2 key out a c' heap' :
  GetOrFetch c heap now1 now2 key out = (Some a, c', heap', true) ->
  a = (fst out, false, snd out) /\
  (cacheable out = true <-> snd out = None /\ fst out <> None) /\
  entries c' = (if cacheable out
                then <[key := mkEntry (fst out) (now2 + ttl c)]> (entries c)
                else entries c) /\
  inflight c' !! key = None /\
  (cacheable out = false ->
   forall now3 now4 out', now1 <= now3 ->
     exists c'' heap'',
       GetOrFetch c' heap' now3 now4 key out' =
         (Some (fst out', false, snd out'), c'', heap'', true)).
Proof.
  unfold GetOrFetch at 1.
  destruct (enter c heap now1 key) as [[[r|p|p] c1] h1] eqn:Hent; [done..|].
  apply enter_Leader in Hent as (-> & Hi & Hexp & -> & ->).
  unfold settle; simpl. intros [= <- <- <-].
  split; [done|]. split; [apply cacheable_iff|]. split; [done|].
  split; [simpl; by rewrite lookup_delete_eq|].
  intros Hno now3 now4 out' Hle. rewrite Hno. unfold GetOrFetch.
  rewrite enter_cold; simpl.
  - by eexists _, _.
  - by rewrite lookup_delete_eq.
  - intros e He. specialize (Hexp e He). lia.
Qed.

Lemma C6_witness :
  (Some emptyResult, false, @None error) = (Some emptyResult, false, None) /\
  (cacheable (Some emptyResult, None) = true <->
     snd (Some emptyResult, @None error) = None /\
     fst (Some emptyResult, @None error) <> None) /\
  entries (mkCache (<["paris:2025-12-01:2:2" := mkEntry (Some emptyResult) 35]> ∅)
                   30 ∅) =
    (if cacheable (Some emptyResult, None)
     then <["paris:2025-12-01:2:2" :=
              mkEntry (fst (Some emptyResult, @None error)) (5 + ttl (NewCache 30))]>
            (entries (NewCache 30))
     else entries (NewCache 30)) /\
  inflight (mkCache (<["paris:2025-12-01:2:2" := mkEntry (Some emptyResult) 35]> ∅)
                    30 ∅) !! "paris:2025-12-01:2:2" = None /\
  (cacheable (Some emptyResult, None) = false ->
   forall now3 now4 out', 0 <= now3 ->
     exists c'' heap'',
       GetOrFetch (mkCache (<["paris:2025-12-01:2:2" := mkEntry (Some emptyResult) 35]> ∅)
                           30 ∅)
                  [mkInflight true (Some emptyResult) None] now3 now4
                  "paris:2025-12-01:2:2" out' =
         (Some (fst out', false, snd out'), c'', heap'', true)).
Proof.
  apply (C6_store_iff_success (NewCache 30) [] 0 5 "paris:2025-12-01:2:2"
           (Some emptyResult, None)).
  vm_compute. reflexivity.
Defined.

End cacheFacts.

(** ** The cache: concurrent callers *)

Module singleflight.
Import cache cacheFacts.

Lemma enter_not_Leader c heap now key r c' heap' :
  enter c heap now key = (r, c', heap') ->
  (forall p, r <> Leader p) -> c' = c /\ heap' = heap.
Proof.
  unfold enter, joinOrLead. intros H Hr.
  repeat match type of H with
  | context [match ?x with _ => _ end] => destruct x
  end; simplify_eq; try done; by destruct (Hr (List.length heap)).
Qed.

Lemma lookup_setThread w t x t0 y :
  setThread w t x !! t0 = Some y <->
  (t0 = t /\ y = x) \/ (t0 <> t /\ wthreads w !! t0 = Some y).
Proof.
  unfold setThread. rewrite lookup_insert. case_decide; subst.
  - split; [intros [= <-]; by left | intros [[_ ->]|[? _]]; done].
  - split; [by right | intros [[-> _]|[_ ?]]; done].
Qed.

(** A goroutine that has not returned moves on its own: the cache, the
    requests and the clock stay as they are. *)
Lemma inv_set_thread w t x' :
  inv w ->
  (forall h a, wthreads w !! t <> Some (Returned h a)) ->
  (forall p, ownerOf x' = Some p ->
     exists x, wthreads w !! t = Some x /\ ownerOf x = Some p) ->
  (forall kp, fetchOf x' = Some kp ->
     exists x, wthreads w !! t = Some x /\ fetchOf x = Some kp) ->
  (forall k p out, x' <> Closing k p out) ->
  (forall p a, x' = Returned (ViaDone p) a ->
     exists t', wthreads w !! t' = Some (Returned (ViaLead p) a)) ->
  inv (mkWorld (wcache w) (wheap w) (setThread w t x') (wnow w)).
Proof.
  intros [Hlt Huniq Hinf Hcold Hclo Hdone Hwait] Hnot Hown Hfetch Hnc Hvia.
  assert (Hkeep : forall t' h a, wthreads w !! t' = Some (Returned h a) ->
                    setThread w t x' !! t' = Some (Returned h a)).
  { intros t' h a Ht'. apply lookup_setThread. right. split; [|done].
    intros ->. by apply (Hnot h a). }
  split; simpl.
  - intros t0 y p [[-> ->]|[Hne Hy]]%lookup_setThread Hp.
    + destruct (Hown _ Hp) as (x & Hx & Hxp). eauto.
    + eauto.
  - intros t1 t2 x1 x2 p [[-> ->]|[Hne1 H1]]%lookup_setThread
      [[-> ->]|[Hne2 H2]]%lookup_setThread Hp1 Hp2; [done| | |eauto].
    + destruct (Hown _ Hp1) as (x & Hx & Hxp). eauto.
    + destruct (Hown _ Hp2) as (x & Hx & Hxp). eauto.
  - intros t0 y k p [[-> ->]|[Hne Hy]]%lookup_setThread Hkp.
    + destruct (Hfetch _ Hkp) as (x & Hx & Hxp). eauto.
    + eauto.
  - intros t0 y k p e [[-> ->]|[Hne Hy]]%lookup_setThread Hkp He.
    + destruct (Hfetch _ Hkp) as (x & Hx & Hxp). eauto.
    + eauto.
  - intros t0 k p out [[-> Heq]|[Hne Hy]]%lookup_setThread.
    + by destruct (Hnc k p out).
    + eauto.
  - intros p q Hq Hd. destruct (Hdone _ _ Hq Hd) as [t' Ht']. eauto.
  - intros t0 p a [[-> Heq]|[Hne Hy]]%lookup_setThread.
    + destruct (Hvia _ _ (eq_sym Heq)) as [t' Ht']. eauto.
    + destruct (Hwait _ _ _ Hy) as [t' Ht']. eauto.
Qed.

(** The sweeper, [Invalidate], [Clear] and the clock only remove entries or
    let them age. *)
Lemma inv_cache_update w c' now' :
  inv w ->
  inflight c' = inflight (wcache w) ->
  (forall k e, entries c' !! k = Some e -> entries (wcache w) !! k = Some e) ->
  wnow w <= now' ->
  inv (mkWorld c' (wheap w) (wthreads w) now').
Proof.
  intros [Hlt Huniq Hinf Hcold Hclo Hdone Hwait] Hsame Hsub Hnow.
  split; simpl; try done.
  - intros t x k p Hx Hkp. rewrite Hsame. eauto.
  - intros t x k p e Hx Hkp He%Hsub. specialize (Hcold _ _ _ _ _ Hx Hkp He). lia.
Qed.

(** The first critical section of a caller that becomes the leader. *)
Lemma inv_lead w t key :
  inv w ->
  wthreads w !! t = Some (Start key) ->
  inflight (wcache w) !! key = None ->
  (forall e, entries (wcache w) !! key = Some e -> expiresAt e <= wnow w) ->
  inv (mkWorld
         (mkCache (entries (wcache w)) (ttl (wcache w))
                  (<[key := List.length (wheap w)]> (inflight (wcache w))))
         (wheap w ++ [mkInflight false None None])
         (setThread w t (Fetching key (List.length (wheap w))))
         (wnow w)).
Proof.
  intros [Hlt Huniq Hinf Hcold Hclo Hdone Hwait] Ht Hnone Hexp.
  assert (Hkeep : forall t' h a, wthreads w !! t' = Some (Returned h a) ->
     setThread w t (Fetching key (List.length (wheap w))) !! t' = Some (Returned h a)).
  { intros t' h a Ht'. apply lookup_setThread. right. split; [|done].
    intros ->. congruence. }
  split; simpl.
  - intros t0 y p [[-> ->]|[Hne Hy]]%lookup_setThread Hp; rewrite length_app; simpl.
    + injection Hp as <-. lia.
    + specialize (Hlt _ _ _ Hy Hp). lia.
  - intros t1 t2 x1 x2 p [[-> ->]|[Hne1 H1]]%lookup_setThread
      [[-> ->]|[Hne2 H2]]%lookup_setThread Hp1 Hp2; [done| | |eauto].
    + injection Hp1 as <-. specialize (Hlt _ _ _ H2 Hp2). lia.
    + injection Hp2 as <-. specialize (Hlt _ _ _ H1 Hp1). lia.
  - intros t0 y k p [[-> ->]|[Hne Hy]]%lookup_setThread Hkp.
    + injection Hkp as <- <-. apply lookup_insert_eq.
    + specialize (Hinf _ _ _ _ Hy Hkp).
      rewrite lookup_insert_ne; [done|]. intros ->. congruence.
  - intros t0 y k p e [[-> ->]|[Hne Hy]]%lookup_setThread Hkp He.
    + injection Hkp as <- <-. eauto.
    + eauto.
  - intros t0 k p out [[-> Heq]|[Hne Hy]]%lookup_setThread; [done|].
    destruct (Hclo _ _ _ _ Hy) as (q & Hq & Hres).
    exists q. split; [|done]. by apply lookup_app_l_Some.
  - intros p q Hq Hd. apply lookup_app_Some in Hq as [Hq|[_ Hq]].
    + destruct (Hdone _ _ Hq Hd) as [t' Ht']. eauto.
    + apply list_lookup_singleton_Some in Hq as [_ <-]. done.
  - intros t0 p a [[-> Heq]|[Hne Hy]]%lookup_setThread; [done|].
    destruct (Hwait _ _ _ Hy) as [t' Ht']. eauto.
Qed.

(** The second critical section. *)
Lemma inv_settle w t key p out c' h' :
  inv w ->
  wthreads w !! t = Some (Fetched key p out) ->
  settle (wcache w) (wheap w) (wnow w) key p out = (c', h') ->
  inv (mkWorld c' h' (setThread w t (Closing key p out)) (wnow w)).
Proof.
  intros [Hlt Huniq Hinf Hcold Hclo Hdone Hwait] Ht. unfold settle. intros [= <- <-].
  assert (Hkeep : forall t' h a, wthreads w !! t' = Some (Returned h a) ->
     setThread w t (Closing key p out) !! t' = Some (Returned h a)).
  { intros t' h a Ht'. apply lookup_setThread. right. split; [|done].
    intros ->. congruence. }
  assert (Hother : forall t0 y k0 p0, t0 <> t -> wthreads w !! t0 = Some y ->
                     fetchOf y = Some (k0, p0) -> k0 <> key).
  { intros t0 y k0 p0 Hne Hy Hkp ->.
    pose proof (Hinf _ _ _ _ Hy Hkp) as H1.
    pose proof (Hinf _ _ _ _ Ht eq_refl) as H2.
    assert (p0 = p) as -> by congruence.
    apply Hne. eapply (Huniq _ _ _ _ p Hy Ht); [|done].
    destruct y; simpl in *; congruence. }
  split; simpl.
  - intros t0 y p0 [[-> ->]|[Hne Hy]]%lookup_setThread Hp; rewrite length_alter.
    + eapply Hlt; [exact Ht|done].
    + eauto.
  - intros t1 t2 x1 x2 p0 [[-> ->]|[Hne1 H1]]%lookup_setThread
      [[-> ->]|[Hne2 H2]]%lookup_setThread Hp1 Hp2; [done| | |eauto].
    + eapply (Huniq _ _ _ _ p0 Ht H2); done.
    + eapply (Huniq _ _ _ _ p0 H1 Ht); done.
  - intros t0 y k p0 [[-> ->]|[Hne Hy]]%lookup_setThread Hkp; [done|].
    rewrite lookup_delete_ne; [eauto|]. intros <-. by eapply Hother.
  - intros t0 y k p0 e [[-> ->]|[Hne Hy]]%lookup_setThread Hkp He; [done|].
    assert (k <> key) by by eapply Hother.
    eapply Hcold; [done..|].
    destruct (cacheable out); [by rewrite lookup_insert_ne in He|done].
  - intros t0 k p0 out0 [[-> Heq]|[Hne Hy]]%lookup_setThread.
    + injection Heq as -> -> ->.
      pose proof (Hlt _ _ _ Ht eq_refl) as Hp.
      apply lookup_lt_is_Some in Hp as [q Hq].
      exists (record out q). split; [|done].
      by rewrite list_lookup_alter_eq, Hq.
    + destruct (Hclo _ _ _ _ Hy) as (q & Hq & Hres).
      exists q. split; [|done]. rewrite list_lookup_alter_ne; [done|].
      intros <-. apply Hne. by eapply (Huniq _ _ _ _ p Hy Ht).
  - intros p0 q. destruct (decide (p0 = p)) as [->|Hne].
    + rewrite list_lookup_alter_eq. destruct (wheap w !! p) as [q0|] eqn:Hq0; [|done].
      simpl. intros [= <-] Hd. simpl in Hd.
      destruct (Hdone _ _ Hq0 Hd) as [t' Ht'].
      assert (t' = t) as -> by by eapply (Huniq _ _ _ _ p Ht' Ht).
      congruence.
    + rewrite list_lookup_alter_ne by done. intros Hq Hd.
      destruct (Hdone _ _ Hq Hd) as [t' Ht']. eauto.
  - intros t0 p0 a [[-> Heq]|[Hne Hy]]%lookup_setThread; [done|].
    destruct (Hwait _ _ _ Hy) as [t' Ht']. eauto.
Qed.

(** The completion signal. *)
Lemma inv_close w t key p out :
  inv w ->
  wthreads w !! t = Some (Closing key p out) ->
  inv (mkWorld (wcache w) (closeDone (wheap w) p)
         (setThread w t (Returned (ViaLead p) (fst out, false, snd out))) (wnow w)).
Proof.
  intros [Hlt Huniq Hinf Hcold Hclo Hdone Hwait] Ht. unfold closeDone.
  assert (Hkeep : forall t' h a, wthreads w !! t' = Some (Returned h a) ->
     setThread w t (Returned (ViaLead p) (fst out, false, snd out)) !! t'
       = Some (Returned h a)).
  { intros t' h a Ht'. apply lookup_setThread. right. split; [|done].
    intros ->. congruence. }
  split; simpl.
  - intros t0 y p0 [[-> ->]|[Hne Hy]]%lookup_setThread Hp; rewrite length_alter.
    + eapply Hlt; [exact Ht|done].
    + eauto.
  - intros t1 t2 x1 x2 p0 [[-> ->]|[Hne1 H1]]%lookup_setThread
      [[-> ->]|[Hne2 H2]]%lookup_setThread Hp1 Hp2; [done| | |eauto].
    + eapply (Huniq _ _ _ _ p0 Ht H2); done.
    + eapply (Huniq _ _ _ _ p0 H1 Ht); done.
  - intros t0 y k p0 [[-> ->]|[Hne Hy]]%lookup_setThread Hkp; [done|eauto].
  - intros t0 y k p0 e [[-> ->]|[Hne Hy]]%lookup_setThread Hkp He; [done|eauto].
  - intros t0 k p0 out0 [[-> Heq]|[Hne Hy]]%lookup_setThread; [done|].
    destruct (Hclo _ _ _ _ Hy) as (q & Hq & Hres).
    exists q. split; [|done]. rewrite list_lookup_alter_ne; [done|].
    intros <-. apply Hne. by eapply (Huniq _ _ _ _ p Hy Ht).
  - intros p0 q. destruct (decide (p0 = p)) as [->|Hne].
    + rewrite list_lookup_alter_eq. destruct (wheap w !! p) as [q0|] eqn:Hq0; [|done].
      simpl. intros [= <-] _. simpl.
      destruct (Hclo _ _ _ _ Ht) as (q & Hq & Hres & Herr).
      assert (q = q0) as -> by congruence.
      exists t. apply lookup_setThread. left. by rewrite Hres, Herr.
    + rewrite list_lookup_alter_ne by done. intros Hq Hd.
      destruct (Hdone _ _ Hq Hd) as [t' Ht']. eauto.
  - intros t0 p0 a [[-> Heq]|[Hne Hy]]%lookup_setThread; [done|].
    destruct (Hwait _ _ _ Hy) as [t' Ht']. eauto.
Qed.

Lemma inv_initial ttl now : inv (initial ttl now).
Proof. split; simpl; intros; by simplify_map_eq. Qed.

Lemma inv_step w w' : step w w' -> inv w -> inv w'.
Proof.
  intros Hstep Hinv. destruct Hstep as
    [w t key Ht | w t key r c' h' Ht Hent | w t key p out Ht
    | w t key p out c' h' Ht Hset | w t key p out Ht | w t key p q Ht Hq Hd
    | w t key p cause Ht | w d Hd | w key | w | w].
  - apply inv_set_thread; try done; congruence.
  - destruct r as [res|p|p].
    + destruct (enter_not_Leader _ _ _ _ _ _ _ Hent) as [-> ->]; [done|].
      apply inv_set_thread; try done; congruence.
    + destruct (enter_not_Leader _ _ _ _ _ _ _ Hent) as [-> ->]; [done|].
      apply inv_set_thread; try done; congruence.
    + apply enter_Leader in Hent as (-> & Hi & Hexp & -> & ->).
      by apply inv_lead.
  - apply inv_set_thread; try done; try congruence.
    + intros p0 [= <-]. eauto.
    + intros kp [= <-]. eauto.
  - by eapply inv_settle.
  - by eapply inv_close.
  - apply inv_set_thread; try done; try congruence.
    intros p0 a [= <- <-]. by eapply inv_done.
  - apply inv_set_thread; try done; congruence.
  - apply inv_cache_update; [done..|simpl; lia].
  - apply inv_cache_update; [done|done| |simpl; lia]. simpl.
    intros k e [_ He]%lookup_delete_Some. done.
  - apply inv_cache_update; [done|done| |simpl; lia]. simpl.
    intros k e. by rewrite lookup_empty.
  - apply inv_cache_update; [done|done| |simpl; lia]. simpl.
    intros k e [He _]%map_lookup_filter_Some. done.
Qed.


Lemma exec_step w a w' : exec w a = Some w' -> step w w'.
Proof.
  destruct a as [t key|t|t out|t|t|t|t cause|d|key| |]; simpl.
  - destruct (wthreads w !! t) eqn:Ht; [done|]. intros [= <-]. by constructor.
  - destruct (wthreads w !! t) as [[key| | | | |]|] eqn:Ht; try done.
    destruct (enter (wcache w) (wheap w) (wnow w) key) as [[r c'] h'] eqn:Hent.
    intros [= <-]. by econstructor.
  - destruct (wthreads w !! t) as [[| |key p| | |]|] eqn:Ht; try done.
    intros [= <-]. by econstructor.
  - destruct (wthreads w !! t) as [[| | |key p out| |]|] eqn:Ht; try done.
    destruct (settle (wcache w) (wheap w) (wnow w) key p out) as [c' h'] eqn:Hset.
    intros [= <-]. by econstructor.
  - destruct (wthreads w !! t) as [[| | | |key p out|]|] eqn:Ht; try done.
    intros [= <-]. by econstructor.
  - destruct (wthreads w !! t) as [[|key p| | | |]|] eqn:Ht; try done.
    destruct (wheap w !! p) as [q|] eqn:Hq; [|done].
    destruct (done q) eqn:Hd; [|done].
    intros [= <-]. by econstructor.
  - destruct (wthreads w !! t) as [[|key p| | | |]|] eqn:Ht; try done.
    intros [= <-]. by econstructor.
  - destruct (Z.leb_spec 0 d); [|done]. intros [= <-]. by constructor.
  - intros [= <-]. constructor.
  - intros [= <-]. constructor.
  - intros [= <-]. constructor.
Qed.

Lemma execAll_rtc w acts w' : execAll w acts = Some w' -> rtc step w w'.
Proof.
  revert w. induction acts as [|a acts IH]; intros w; simpl.
  - intros [= <-]. constructor.
  - destruct (exec w a) as [w1|] eqn:Ha; [|done].
    intros H. eapply rtc_l; [by eapply exec_step|by apply IH].
Qed.




End singleflight.

(** ** The rate limiter *)

Module limiterFacts.
Import ratelimit.

Lemma run_allow l now key rest :
  run l (EvAllow now key :: rest) =
    (mkCall now key (fst (Allow l now key)) :: fst (run (snd (Allow l now key)) rest),
     snd (run (snd (Allow l now key)) rest)).
Proof.
  simpl. destruct (Allow l now key) as [ok l']. simpl.
  by destruct (run l' rest).
Qed.

Lemma run_cleanup l now rest : run l (EvCleanup now :: rest) = run (cleanup l now) rest.
Proof. reflexivity. Qed.

Lemma Allow_fst l now key :
  fst (Allow l now key) = fst (allowBucket (rate l) (window l) now (buckets l !! key)).
Proof. unfold Allow. by destruct allowBucket. Qed.

Lemma Allow_rate l now key : rate (snd (Allow l now key)) = rate l.
Proof. unfold Allow. by destruct allowBucket. Qed.

Lemma Allow_window l now key : window (snd (Allow l now key)) = window l.
Proof. unfold Allow. by destruct allowBucket. Qed.

Lemma Allow_lookup l now key key' :
  buckets (snd (Allow l now key)) !! key' =
    if decide (key = key')
    then Some (snd (allowBucket (rate l) (window l) now (buckets l !! key)))
    else buckets l !! key'.
Proof. unfold Allow. destruct allowBucket. simpl. by rewrite lookup_insert. Qed.

Lemma cleanup_lookup l now key b :
  buckets (cleanup l now) !! key = Some b <->
  buckets l !! key = Some b /\ ~ (wrap64 (2 * window l) < now - lastReset b).
Proof. unfold cleanup. simpl. by rewrite map_lookup_filter_Some. Qed.

(** The double of a window below 2^62 ns fits in [int64]. *)
Lemma wrap64_double w : - 2 ^ 62 <= w < 2 ^ 62 -> wrap64 (2 * w) = 2 * w.
Proof. intros Hw. unfold wrap64. rewrite Z.mod_small; lia. Qed.

Lemma cleanup_lookup_small l now key b :
  - 2 ^ 62 <= window l < 2 ^ 62 ->
  buckets (cleanup l now) !! key = Some b <->
  buckets l !! key = Some b /\ ~ (2 * window l < now - lastReset b).
Proof. intros Hw. by rewrite cleanup_lookup, wrap64_double. Qed.

(** With a window of 2^62 ns the product wraps to a negative number: every
    sweep removes every bucket, and a call after it starts a new window. *)
Example sweep_after_wrap :
  List.map allowed (fst (run (New 1 (2 ^ 62)) swept)) = [true; true; true].
Proof. vm_compute. reflexivity. Qed.

(** The bucket is not refilled: it gives a token if it has one. *)
Lemma allowBucket_keep R W now b :
  now - lastReset b < W ->
  allowBucket R W now (Some b) =
    if 0 <? tokens b then (true, mkBucket (tokens b - 1) (lastReset b)) else (false, b).
Proof.
  intros H. unfold allowBucket.
  destruct (Z.leb_spec W (now - lastReset b)); [lia|done].
Qed.

(** The bucket is created or refilled: a new window starts at [now]. *)
Lemma allowBucket_refill R W now ob :
  (forall b, ob = Some b -> W <= now - lastReset b) ->
  allowBucket R W now ob =
    if 0 <? R then (true, mkBucket (R - 1) now) else (false, mkBucket R now).
Proof.
  intros H. unfold allowBucket. destruct ob as [b|].
  - specialize (H b eq_refl).
    destruct (Z.leb_spec W (now - lastReset b)); [done|lia].
  - simpl. by destruct (W <=? now - now).
Qed.

Lemma allowBucket_tokens R W now ob lo :
  lo <= 0 -> lo <= R ->
  (forall b, ob = Some b -> lo <= tokens b <= R) ->
  lo <= tokens (snd (allowBucket R W now ob)) <= R /\
  (R <= 0 -> fst (allowBucket R W now ob) = false).
Proof.
  intros Hlo HloR Hb. unfold allowBucket.
  set (b0 := match ob with Some b => b | None => mkBucket R now end).
  assert (lo <= tokens b0 <= R) as Hb0.
  { unfold b0. destruct ob as [b|]; [by apply Hb|simpl; lia]. }
  destruct (W <=? now - lastReset b0); simpl.
  - destruct (Z.ltb_spec 0 R); simpl; split; lia.
  - destruct (Z.ltb_spec 0 (tokens b0)); simpl; split; try lia; done.
Qed.

(** [tokens] stays between [min 0 rate] and [rate], and a limiter whose rate is
    not positive answers false. *)
Lemma run_tokens evs : forall l,
  tokensWithin (Z.min 0 (rate l)) (rate l) l ->
  tokensWithin (Z.min 0 (rate l)) (rate l) (snd (run l evs)) /\
  (rate l <= 0 -> Forall (fun c => allowed c = false) (fst (run l evs))).
Proof.
  induction evs as [|[now key|now] evs IH]; intros l Hl.
  - split; [done|]. intros _. constructor.
  - rewrite run_allow. cbn [fst snd].
    destruct (allowBucket_tokens (rate l) (window l) now (buckets l !! key)
                (Z.min 0 (rate l))) as [Hb Hok]; [lia|lia|apply Hl|].
    destruct (IH (snd (Allow l now key))) as [IH1 IH2].
    { rewrite Allow_rate. intros key' b. rewrite Allow_lookup.
      case_decide; [by intros [= <-]|apply Hl]. }
    rewrite Allow_rate in IH1, IH2. split; [done|].
    intros Hr. constructor; [|by apply IH2].
    simpl. rewrite Allow_fst. by apply Hok.
  - rewrite run_cleanup. apply (IH (cleanup l now)).
    intros key b [Hb _]%cleanup_lookup. simpl. by apply (Hl key).
Qed.

(** C8, as stated, fails for a negative rate: the bucket is created with
    [tokens = rate], below 0. *)
Lemma C8_counterexample :
  ~ tokensWithin 0 (-5) (snd (run (New (-5) 60) [EvAllow 0 "user5"])).
Proof.
  intros H. specialize (H "user5" (mkBucket (-5) 0)).
  assert (0 <= -5 <= -5) as Hbad; [|lia].
  apply H. vm_compute. reflexivity.
Qed.

(** C8, amended. After every sequence of [Allow] calls and sweeps, each bucket
    has [0 <= tokens <= rate] when the rate is not negative, and
    [tokens = rate] when it is negative; when the rate is not positive every
    [Allow] call returns false. *)
Theorem C8_tokens_bounds rate window evs :
  (forall key b, buckets (snd (run (New rate window) evs)) !! key = Some b ->
     (0 <= rate -> 0 <= tokens b <= rate) /\ (rate < 0 -> tokens b = rate)) /\
  (rate <= 0 -> Forall (fun c => allowed c = false) (fst (run (New rate window) evs))).
Proof.
  destruct (run_tokens evs (New rate window)) as [H1 H2].
  { intros key b. simpl. by rewrite lookup_empty. }
  simpl in *. split; [|done].
  intros key b Hb%H1. lia.
Qed.

Lemma C8_witness :
  Forall (fun c => allowed c = false)
    (fst (run (New (-5) 60) [EvAllow 0 "user5"; EvAllow 1 "user5"; EvAllow 2 "user5"])).
Proof.
  apply (C8_tokens_bounds (-5) 60). lia.
Defined.

Lemma admittedIn_cons key lo hi c log :
  admittedIn key lo hi (c :: log) =
    ((if counts key lo hi c then 1 else 0) + admittedIn key lo hi log)%nat.
Proof. unfold admittedIn. simpl. by destruct (counts key lo hi c). Qed.

Lemma counts_late key lo hi now k ok : hi < now -> counts key lo hi (mkCall now k ok) = false.
Proof.
  intros H. unfold counts. simpl.
  destruct (Z.leb_spec now hi); [lia|]. by rewrite andb_false_r.
Qed.

Lemma counts_early key lo hi now k ok : now < lo -> counts key lo hi (mkCall now k ok) = false.
Proof.
  intros H. unfold counts. simpl.
  destruct (Z.leb_spec lo now); [lia|]. by rewrite andb_false_r.
Qed.

Lemma counts_other key lo hi now k ok : k <> key -> counts key lo hi (mkCall now k ok) = false.
Proof.
  intros H. unfold counts. simpl. by destruct (String.eqb_spec k key).
Qed.

Lemma counts_denied key lo hi now k : counts key lo hi (mkCall now k false) = false.
Proof. unfold counts. simpl. by rewrite andb_false_r. Qed.

Lemma monotonic_inv e evs :
  monotonic (e :: evs) ->
  Forall (fun e' => eventTime e <= eventTime e') evs /\ monotonic evs.
Proof.
  revert e. induction evs as [|e' evs IH]; intros e; [by split|].
  intros [Hle Hm]. destruct (IH e' Hm) as [Hall _]. split; [|done].
  constructor; [done|]. eapply Forall_impl; [exact Hall|]. simpl. intros; lia.
Qed.

Lemma Forall_later t t' evs :
  t <= t' -> Forall (fun e => t' <= eventTime e) evs ->
  Forall (fun e => t <= eventTime e) evs.
Proof. intros Hle H. eapply Forall_impl; [exact H|]. simpl. intros; lia. Qed.

(** Calls after the end of the interval do not count. *)
Lemma admitted_past key lo hi evs : forall l,
  Forall (fun e => hi < eventTime e) evs ->
  admittedIn key lo hi (fst (run l evs)) = 0%nat.
Proof.
  induction evs as [|[now k|now] evs IH]; intros l Hall; [done|..];
    apply Forall_cons in Hall as [Hnow Hall]; simpl in Hnow.
  - rewrite run_allow. cbn [fst]. rewrite admittedIn_cons, counts_late by done.
    by rewrite IH.
  - rewrite run_cleanup. by apply IH.
Qed.

Lemma admitted_late key lo hi e evs l :
  monotonic (e :: evs) -> hi < eventTime e ->
  admittedIn key lo hi (fst (run l (e :: evs))) = 0%nat.
Proof.
  intros [Hall _]%monotonic_inv Hlate. apply admitted_past.
  constructor; [done|]. eapply Forall_impl; [exact Hall|]. simpl. intros; lia.
Qed.

(** Before the window of the bucket ends, the key is answered true at most
    [tokens] times. *)
Lemma window_budget key lo hi evs : forall l b,
  0 < window l < 2 ^ 62 -> monotonic evs ->
  buckets l !! key = Some b -> hi < lastReset b + window l ->
  Z.of_nat (admittedIn key lo hi (fst (run l evs))) <= Z.max 0 (tokens b).
Proof.
  induction evs as [|[now k|now] evs IH]; intros l b HW Hm Hb Hhi.
  { unfold admittedIn. simpl. lia. }
  - destruct (Z.lt_ge_cases hi now) as [Hlate|Hin].
    { rewrite admitted_late by done. lia. }
    apply monotonic_inv in Hm as [_ Hm].
    rewrite run_allow. cbn [fst]. rewrite admittedIn_cons.
    destruct (decide (k = key)) as [->|Hne].
    + rewrite Allow_fst, Hb, allowBucket_keep by lia.
      pose proof (Allow_lookup l now key key) as Hl.
      rewrite decide_True, Hb, allowBucket_keep in Hl by (done || lia).
      destruct (Z.ltb_spec 0 (tokens b)) as [Hpos|Hnone]; cbn [fst snd] in *.
      * specialize (IH _ _ (eq_ind_r (fun x => 0 < x < 2 ^ 62) HW (Allow_window l now key))
                       Hm Hl).
        rewrite Allow_window in IH. simpl in IH. specialize (IH Hhi).
        destruct (counts key lo hi _); lia.
      * rewrite counts_denied.
        specialize (IH _ _ (eq_ind_r (fun x => 0 < x < 2 ^ 62) HW (Allow_window l now key))
                       Hm Hl).
        rewrite Allow_window in IH. specialize (IH Hhi). lia.
    + rewrite counts_other by done.
      pose proof (Allow_lookup l now k key) as Hl. rewrite decide_False, Hb in Hl by done.
      specialize (IH _ _ (eq_ind_r (fun x => 0 < x < 2 ^ 62) HW (Allow_window l now k)) Hm Hl).
      rewrite Allow_window in IH. specialize (IH Hhi). lia.
  - destruct (Z.lt_ge_cases hi now) as [Hlate|Hin].
    { rewrite admitted_late by done. lia. }
    apply monotonic_inv in Hm as [_ Hm]. rewrite run_cleanup.
    apply (IH (cleanup l now) b); try done.
    apply cleanup_lookup_small; [simpl in HW; lia|]. split; [done|]. lia.
Qed.

Lemma budget_nonneg R W hi ob : 0 <= R -> 0 <= budget R W hi ob.
Proof.
  intros HR. unfold budget. destruct ob as [b|]; [|lia].
  destruct (hi <? lastReset b + 2 * W); lia.
Qed.

Lemma budget_le R W hi ob :
  0 <= R -> (forall b, ob = Some b -> tokens b <= R) -> budget R W hi ob <= 2 * R.
Proof.
  intros HR Hb. unfold budget. destruct ob as [b|]; [|lia].
  specialize (Hb b eq_refl). destruct (hi <? lastReset b + 2 * W); lia.
Qed.

Lemma budget_ge R W hi ob : 0 <= R -> R <= budget R W hi ob.
Proof.
  intros HR. unfold budget. destruct ob as [b|]; [|lia].
  destruct (hi <? lastReset b + 2 * W); lia.
Qed.

(** When the call at [now] refills and a second window can start by [hi],
    nothing was promised less than two windows. *)
Lemma budget_refill R W hi now ob :
  (forall b, ob = Some b -> W <= now - lastReset b) ->
  now + W <= hi -> budget R W hi ob = 2 * R.
Proof.
  intros Hb Hhi. unfold budget. destruct ob as [b|]; [|done].
  specialize (Hb b eq_refl).
  destruct (Z.ltb_spec hi (lastReset b + 2 * W)); [lia|done].
Qed.

(** From the first call inside an interval no longer than the window, the
    key is answered true at most [budget] times. *)
Lemma interval_budget key lo hi evs : forall l,
  0 <= rate l -> 0 < window l < 2 ^ 62 -> monotonic evs ->
  Forall (fun e => lo <= eventTime e) evs -> hi <= lo + window l ->
  (forall b, buckets l !! key = Some b -> tokens b <= rate l) ->
  Z.of_nat (admittedIn key lo hi (fst (run l evs)))
    <= budget (rate l) (window l) hi (buckets l !! key).
Proof.
  induction evs as [|[now k|now] evs IH]; intros l HR HW Hm Hlo Hhi Htok.
  { unfold admittedIn. simpl. by apply budget_nonneg. }
  - destruct (Z.lt_ge_cases hi now) as [Hlate|Hin].
    { rewrite admitted_late by done. by apply budget_nonneg. }
    pose proof Hm as [_ Hm']%monotonic_inv.
    apply Forall_cons in Hlo as [Hnow Hlo]. simpl in Hnow.
    rewrite run_allow. cbn [fst]. rewrite admittedIn_cons.
    pose proof (Allow_lookup l now k key) as Hl.
    specialize (IH (snd (Allow l now k))).
    rewrite Allow_rate, Allow_window in IH.
    destruct (decide (k = key)) as [->|Hne].
    + rewrite Allow_fst.
      assert (Hcases :
        (forall b, buckets l !! key = Some b -> window l <= now - lastReset b) \/
        (exists b, buckets l !! key = Some b /\ now - lastReset b < window l)).
      { destruct (buckets l !! key) as [b|]; [|by left].
        destruct (Z.lt_ge_cases (now - lastReset b) (window l)); [right; eauto|].
        left. by intros ? [= <-]. }
      destruct Hcases as [Hre|(b & Hb & Hlt)].
      * (* a new window starts with this call *)
        rewrite allowBucket_refill in Hl |- * by done.
        destruct (Z.lt_ge_cases hi (now + window l)) as [Hone|Htwo].
        -- pose proof (budget_ge (rate l) (window l) hi (buckets l !! key) HR).
           destruct (Z.ltb_spec 0 (rate l)); cbn [fst snd] in *.
           ++ pose proof (window_budget key lo hi evs (snd (Allow l now key)) _
                 (eq_ind_r (fun x => 0 < x < 2 ^ 62) HW (Allow_window l now key)) Hm' Hl) as Hw.
              rewrite Allow_window in Hw. simpl in Hw. specialize (Hw Hone).
              destruct (counts key lo hi _); lia.
           ++ rewrite counts_denied.
              pose proof (window_budget key lo hi evs (snd (Allow l now key)) _
                 (eq_ind_r (fun x => 0 < x < 2 ^ 62) HW (Allow_window l now key)) Hm' Hl) as Hw.
              rewrite Allow_window in Hw. simpl in Hw. specialize (Hw Hone). lia.
        -- rewrite (budget_refill _ _ _ now) by done.
           rewrite Hl in IH. unfold budget in IH.
           destruct (Z.ltb_spec 0 (rate l)); cbn [fst snd lastReset tokens] in *.
           ++ destruct (Z.ltb_spec hi (now + 2 * window l)); [|lia].
              specialize (IH HR HW Hm' Hlo Hhi). 
              assert (Z.of_nat (admittedIn key lo hi (run (Allow l now key).2 evs).1)
                        <= Z.max 0 (rate l - 1) + rate l) as Hn.
              { apply IH. intros b [= <-]. simpl. lia. }
              destruct (counts key lo hi _); lia.
           ++ rewrite counts_denied.
              destruct (Z.ltb_spec hi (now + 2 * window l)); [|lia].
              specialize (IH HR HW Hm' Hlo Hhi).
              assert (Z.of_nat (admittedIn key lo hi (run (Allow l now key).2 evs).1)
                        <= Z.max 0 (rate l) + rate l) as Hn.
              { apply IH. intros b [= <-]. simpl. lia. }
              lia.
      * (* the bucket is in its window *)
        rewrite Hb in *.
        rewrite allowBucket_keep in Hl |- * by done.
        rewrite Hl in IH. unfold budget in IH |- *.
        destruct (Z.ltb_spec hi (lastReset b + 2 * window l)); [|lia].
        pose proof (Htok b eq_refl) as Htb.
        destruct (Z.ltb_spec 0 (tokens b)); cbn [fst snd lastReset tokens] in *.
        -- destruct (Z.ltb_spec hi (lastReset b + 2 * window l)); [|lia].
           assert (Z.of_nat (admittedIn key lo hi (run (Allow l now key).2 evs).1)
                     <= Z.max 0 (tokens b - 1) + rate l) as Hn.
           { apply IH; try done; intros b' [= <-]; simpl; lia. }
           destruct (counts key lo hi _); lia.
        -- rewrite counts_denied.
           destruct (Z.ltb_spec hi (lastReset b + 2 * window l)); [|lia].
           assert (Z.of_nat (admittedIn key lo hi (run (Allow l now key).2 evs).1)
                     <= Z.max 0 (tokens b) + rate l) as Hn.
           { apply IH; try done; intros b' [= <-]; done. }
           lia.
    + rewrite counts_other by done.
      rewrite Hl in IH. simpl. apply IH; try done.
  - destruct (Z.lt_ge_cases hi now) as [Hlate|Hin].
    { rewrite admitted_late by done. by apply budget_nonneg. }
    pose proof Hm as [_ Hm']%monotonic_inv.
    apply Forall_cons in Hlo as [Hnow Hlo]. simpl in Hnow.
    rewrite run_cleanup.
    pose proof (IH (cleanup l now) HR HW Hm' Hlo Hhi) as IH'.
    change (rate (cleanup l now)) with (rate l) in IH'.
    change (window (cleanup l now)) with (window l) in IH'.
    destruct (buckets (cleanup l now) !! key) as [b|] eqn:Hs.
    + apply cleanup_lookup in Hs as [Hs _]. rewrite Hs.
      apply IH'. intros b' [= <-]. by apply Htok.
    + etrans; [by apply IH'|].
      destruct (buckets l !! key) as [b|] eqn:Hb; [|done].
      unfold budget. destruct (Z.ltb_spec hi (lastReset b + 2 * window l)); [|lia].
      assert (buckets (cleanup l now) !! key = Some b) as Hfalse; [|congruence].
      apply cleanup_lookup_small; [lia|]. split; [done|]. lia.
Qed.

Lemma allowBucket_upper R W now ob :
  (forall b, ob = Some b -> tokens b <= R) ->
  tokens (snd (allowBucket R W now ob)) <= R.
Proof.
  intros Hb. unfold allowBucket.
  set (b0 := match ob with Some b => b | None => mkBucket R now end).
  assert (tokens b0 <= R) as Hb0.
  { unfold b0. destruct ob as [b|]; [by apply Hb|simpl; lia]. }
  destruct (W <=? now - lastReset b0); simpl.
  - destruct (Z.ltb_spec 0 R); simpl; lia.
  - destruct (Z.ltb_spec 0 (tokens b0)); simpl; lia.
Qed.

Lemma admitted_none key lo hi log :
  Forall (fun c => allowed c = false) log -> admittedIn key lo hi log = 0%nat.
Proof.
  induction 1 as [|[t k ok] log Hc _ IH]; [done|].
  simpl in Hc. subst ok. by rewrite admittedIn_cons, counts_denied, IH.
Qed.

(** Whatever happened before the interval, it holds at most two windows. *)
Lemma admitted_bound key from evs : forall l,
  0 <= rate l -> 0 < window l < 2 ^ 62 -> monotonic evs ->
  (forall b, buckets l !! key = Some b -> tokens b <= rate l) ->
  Z.of_nat (admitted key from (window l) (fst (run l evs))) <= 2 * rate l.
Proof.
  unfold admitted.
  induction evs as [|e evs IH]; intros l HR HW Hm Htok.
  { unfold admittedIn. simpl. lia. }
  destruct (Z.lt_ge_cases (eventTime e) from) as [Hearly|Hin].
  - pose proof Hm as [_ Hm']%monotonic_inv.
    destruct e as [now k|now]; simpl in Hearly.
    + rewrite run_allow. cbn [fst]. rewrite admittedIn_cons, counts_early by done.
      specialize (IH (snd (Allow l now k))).
      rewrite Allow_rate, Allow_window in IH. apply IH; try done.
      intros b. rewrite Allow_lookup. case_decide as Hk; [|apply Htok].
      intros [= <-]. apply allowBucket_upper. by subst k.
    + rewrite run_cleanup. apply (IH (cleanup l now)); try done.
      intros b [Hb _]%cleanup_lookup. by apply Htok.
  - etrans; [|by apply (budget_le _ (window l) (from + window l) (buckets l !! key))].
    apply interval_budget; try done.
    pose proof Hm as [Hall _]%monotonic_inv.
    constructor; [done|]. by apply Forall_later with (eventTime e).
Qed.

(** C7, as stated, fails at the boundary of a window: with [rate = 2] and
    [window = 10], calls at 9, 10 and 11 are all answered true, three within
    an interval of duration 10. *)
Lemma C7_counterexample :
  ~ (admitted "203.0.113.195" 9 10 (fst (run (New 2 10) burst)) <= 2)%nat.
Proof. vm_compute. lia. Qed.

(** C7, amended. For every key, every rate, every positive window whose
    double fits in [int64] (a window below 2^62 ns) and every sequence of
    [Allow] calls and sweeps timed by a monotonic clock, the number of calls
    for the key that return true within any interval of duration [window]
    is at most twice the rate (none when the rate is negative): a bucket
    gives at most [rate] tokens per window of its own, and an interval of
    that duration meets at most two of them. *)
Theorem C7_admitted_at_most_twice_rate rate window evs key from :
  0 < window < 2 ^ 62 -> monotonic evs ->
  Z.of_nat (admitted key from window (fst (run (New rate window) evs)))
    <= 2 * Z.max 0 rate.
Proof.
  intros HW Hm. destruct (Z.lt_ge_cases rate 0) as [Hneg|HR].
  - destruct (run_tokens evs (New rate window)) as [_ Hno].
    { intros k b. simpl. by rewrite lookup_empty. }
    unfold admitted. rewrite admitted_none; [lia|]. apply Hno. simpl. lia.
  - rewrite Z.max_r by done.
    apply (admitted_bound key from evs (New rate window)); done.
Qed.

Lemma C7_witness :
  Z.of_nat (admitted "203.0.113.195" 9 10 (fst (run (New 2 10) burst)))
    <= 2 * Z.max 0 2.
Proof.
  apply (C7_admitted_at_most_twice_rate 2 10 burst "203.0.113.195" 9); [lia|].
  simpl. lia.
Defined.

End limiterFacts.

(** ** The cache key *)

Module keyFacts.
Import cache handler.

Lemma app_cons c s t : String c s +:+ t = String c (s +:+ t).
Proof. reflexivity. Qed.

Lemma app_nil s : "" +:+ s = s.
Proof. reflexivity. Qed.

Lemma colons_app s t : colons (s +:+ t) = (colons s + colons t)%nat.
Proof.
  induction s as [|c s IH]; [done|].
  rewrite app_cons. simpl. rewrite IH. lia.
Qed.

(** Two ways to cut one string: the shorter head is a prefix of the longer. *)
Lemma app_split s1 : forall s2 t1 t2,
  s1 +:+ t1 = s2 +:+ t2 -> (String.length s1 <= String.length s2)%nat ->
  exists d, s2 = s1 +:+ d /\ t1 = d +:+ t2.
Proof.
  induction s1 as [|c s1 IH]; intros s2 t1 t2 Heq Hlen.
  - exists s2. split; [reflexivity | exact Heq].
  - destruct s2 as [|c2 s2]; [simpl in Hlen; lia|].
    change (String c (s1 +:+ t1) = String c2 (s2 +:+ t2)) in Heq.
    injection Heq as -> Heq.
    destruct (IH s2 t1 t2 Heq) as (d & -> & ->); [simpl in Hlen; lia|].
    by exists d.
Qed.

(** A string that starts at a [:] and has it as its only new one. *)
Lemma colon_head d t u :
  ":" +:+ t = d +:+ u -> colons d = 0%nat -> d = "".
Proof.
  destruct d as [|c d]; [done|].
  change (String ":" t = String c (d +:+ u) -> colons (String c d) = 0%nat -> String c d = "").
  intros [= <- _]. simpl. lia.
Qed.

(** The city ends where the last three colons start. *)
Lemma split_city c1 c2 t1 t2 :
  c1 +:+ ":" +:+ t1 = c2 +:+ ":" +:+ t2 ->
  colons t1 = colons t2 -> c1 = c2 /\ t1 = t2.
Proof.
  assert (Hle : forall c1 c2 t1 t2,
    c1 +:+ ":" +:+ t1 = c2 +:+ ":" +:+ t2 -> colons t1 = colons t2 ->
    (String.length c1 <= String.length c2)%nat -> c1 = c2 /\ t1 = t2).
  { clear. intros c1 c2 t1 t2 Heq Hc Hlen.
    destruct (app_split _ _ _ _ Heq Hlen) as (d & -> & Ht).
    assert (d = "") as ->.
    { eapply colon_head; [exact Ht|].
      apply (f_equal colons) in Ht. rewrite !colons_app in Ht. simpl in Ht. lia. }
    change (String ":" t1 = String ":" t2) in Ht. injection Ht as ->.
    split; [|done]. clear. induction c1 as [|c c1 IH]; [done|].
    rewrite app_cons. by f_equal. }
  intros Heq Hc.
  destruct (Nat.le_ge_cases (String.length c1) (String.length c2)).
  - by apply Hle.
  - destruct (Hle c2 c1 t2 t1); by subst.
Qed.

(** A field without colon ends at the first colon. *)
Lemma split_field x1 : forall x2 y1 y2,
  x1 +:+ ":" +:+ y1 = x2 +:+ ":" +:+ y2 ->
  colons x1 = 0%nat -> colons x2 = 0%nat -> x1 = x2 /\ y1 = y2.
Proof.
  induction x1 as [|c x1 IH]; intros [|c2 x2] y1 y2 Heq H1 H2.
  - change (String ":" y1 = String ":" y2) in Heq. by injection Heq as ->.
  - change (String ":" y1 = String c2 (x2 +:+ ":" +:+ y2)) in Heq.
    injection Heq as <- _. simpl in H2. lia.
  - change (String c (x1 +:+ ":" +:+ y1) = String ":" y2) in Heq.
    injection Heq as -> _. simpl in H1. lia.
  - change (String c (x1 +:+ ":" +:+ y1) = String c2 (x2 +:+ ":" +:+ y2)) in Heq.
    injection Heq as -> Heq.
    simpl in H1, H2. destruct (Ascii.eqb c2 ":"); [lia|].
    destruct (IH x2 y1 y2 Heq) as [-> ->]; [lia..|]. done.
Qed.

Lemma colons_digit x : colons (String (pretty_N_char x) "") = 0%nat.
Proof. unfold pretty_N_char. by repeat case_match. Qed.

Lemma colons_pretty_N_go x : forall s, colons (pretty_N_go x s) = colons s.
Proof.
  induction (N.lt_wf_0 x) as [x _ IH]. intros s.
  destruct (decide (x = 0%N)) as [->|Hx].
  - by rewrite pretty_N_go_0.
  - rewrite pretty_N_go_step by lia.
    rewrite IH by (apply N.div_lt; lia).
    change (String (pretty_N_char (x `mod` 10)) s)
      with (String (pretty_N_char (x `mod` 10)) "" +:+ s).
    by rewrite colons_app, colons_digit.
Qed.

(** A number in decimal has no colon. *)
Lemma colons_itoa n : colons (itoa n) = 0%nat.
Proof.
  unfold itoa, pretty, pretty_Z.
  assert (Hpos : forall p : positive, colons (pretty p) = 0%nat).
  { intros p. unfold pretty, pretty_positive, pretty, pretty_N.
    case_decide; [done|]. by rewrite colons_pretty_N_go. }
  destruct n as [|p|p]; [done|apply Hpos|].
  rewrite colons_app, Hpos. done.
Qed.

Lemma isDigit_not_colon c : isDigit c = true -> Ascii.eqb c ":" = false.
Proof.
  unfold isDigit. intros [_ H%N.leb_le]%andb_true_iff.
  destruct (Ascii.eqb_spec c ":") as [->|]; [|done]. simpl in H. lia.
Qed.

(** A date that [time.Parse] accepts has no colon. *)
Lemma colons_validDate s : validDate s = true -> colons s = 0%nat.
Proof.
  unfold validDate. intros H.
  repeat match type of H with
  | match ?x with _ => _ end = true => destruct x; try discriminate H
  | (if ?b then _ else _) = true => destruct b; try discriminate H
  end.
  repeat match type of H with
  | _ && _ = true => apply andb_true_iff in H as [H ?]
  end.
  simpl. by rewrite !isDigit_not_colon.
Qed.

(** What [ParseSearchParams] has checked when it returns parameters. *)
Lemma ParseSearchParams_inl qcity qcheckin qnights qadults q :
  ParseSearchParams qcity qcheckin qnights qadults = inl q ->
  City q = strings.TrimSpace qcity /\ City q <> "" /\
  validDate (Checkin q) = true /\ 0 < Nights q /\ 0 < Adults q.
Proof.
  unfold ParseSearchParams.
  destruct (String.eqb_spec (strings.TrimSpace qcity) "") as [|Hcity]; [done|].
  destruct (String.eqb (strings.TrimSpace qcheckin) ""); [done|].
  destruct (validDate (strings.TrimSpace qcheckin)) eqn:Hdate; [|done]. simpl.
  destruct (String.eqb qnights ""); [done|].
  destruct (Atoi qnights) as [nights|]; [|done].
  destruct (Z.leb_spec nights 0); [done|].
  destruct (String.eqb qadults ""); [done|].
  destruct (Atoi qadults) as [adults|]; [|done].
  destruct (Z.leb_spec adults 0); [done|].
  intros [= <-]. simpl. repeat split; done || lia.
Qed.

Lemma colons_tail checkin nights adults :
  colons checkin = 0%nat ->
  colons (checkin +:+ ":" +:+ itoa nights +:+ ":" +:+ itoa adults) = 2%nat.
Proof.
  intros H. rewrite !colons_app, !colons_itoa, H. reflexivity.
Qed.

(** C10. For two queries that [ParseSearchParams] validated, [Cache.Key]
    gives the same string if and only if the queries have the same city,
    checkin, nights and adults, also when a city contains colons. *)
Theorem C10_key_injective qc1 qd1 qn1 qa1 qc2 qd2 qn2 qa2 q1 q2 :
  ParseSearchParams qc1 qd1 qn1 qa1 = inl q1 ->
  ParseSearchParams qc2 qd2 qn2 qa2 = inl q2 ->
  (keyOf q1 = keyOf q2 <->
   City q1 = City q2 /\ Checkin q1 = Checkin q2 /\
   Nights q1 = Nights q2 /\ Adults q1 = Adults q2).
Proof.
  intros (_ & _ & Hd1%colons_validDate & _)%ParseSearchParams_inl
         (_ & _ & Hd2%colons_validDate & _)%ParseSearchParams_inl.
  unfold keyOf, Key. split.
  - intros Hkey.
    apply split_city in Hkey as [Hcity Htail];
      [|by rewrite !colons_tail].
    apply split_field in Htail as [Hdate Htail]; [|done..].
    apply split_field in Htail as [Hn Ha]; [|apply colons_itoa..].
    repeat split; try done; by apply (inj pretty).
  - intros (-> & -> & -> & ->). reflexivity.
Qed.

Lemma C10_witness :
  keyOf queryColon = keyOf queryPlain <->
  City queryColon = City queryPlain /\ Checkin queryColon = Checkin queryPlain /\
  Nights queryColon = Nights queryPlain /\ Adults queryColon = Adults queryPlain.
Proof.
  apply (C10_key_injective " paris:2025-12-01" "2025-12-02" "3" "2"
                           "paris " "2025-12-01" "+3" "02");
    vm_compute; reflexivity.
Defined.

End keyFacts.

(** * Further properties *)

(** ** Strings *)

Module stringsFacts.
Import strings.

Lemma trimRight_idem s : trimRight (trimRight s) = trimRight s.
Proof.
  induction s as [|c s IH]; [done|]. simpl.
  destruct (trimRight s) as [|c' r'] eqn:E.
  - destruct (isSpace c) eqn:Ec; simpl; [done|]. by rewrite Ec.
  - simpl. simpl in IH. by rewrite IH.
Qed.

Lemma trimRight_head c r :
  isSpace c = false -> exists r', trimRight (String c r) = String c r'.
Proof.
  intros Hc. simpl. destruct (trimRight r); [rewrite Hc|]; eauto.
Qed.

Lemma trimLeft_cases s :
  trimLeft s = "" \/ exists c r, trimLeft s = String c r /\ isSpace c = false.
Proof.
  destruct (trimLeft s) as [|c r] eqn:E; [by left|right].
  exists c, r. split; [done|]. by eapply trimLeft_head_not_space.
Qed.

(** Trimming what is trimmed changes nothing. *)
Lemma TrimSpace_idem s : TrimSpace (TrimSpace s) = TrimSpace s.
Proof.
  unfold TrimSpace.
  destruct (trimLeft_cases s) as [->|(c & r & -> & Hc)]; [done|].
  destruct (trimRight_head c r Hc) as [r' Hr]. rewrite Hr.
  simpl trimLeft. rewrite Hc, <- Hr. apply trimRight_idem.
Qed.

Lemma isSpace_upperByte c : isSpace (upperByte c) = isSpace c.
Proof.
  unfold upperByte. destruct (isLower c) eqn:E; [|done].
  unfold isLower in E. apply andb_true_iff in E as [E1%N.leb_le E2%N.leb_le].
  unfold isSpace. rewrite N_ascii_embedding by lia.
  repeat match goal with
  | |- context [(?a <=? ?b)%N] => destruct (N.leb_spec a b)
  | |- context [(?a =? ?b)%N] => destruct (N.eqb_spec a b)
  end; simpl; try done; lia.
Qed.

Lemma trimLeft_ToUpper s : trimLeft (ToUpper s) = ToUpper (trimLeft s).
Proof.
  induction s as [|c s IH]; [done|]. simpl.
  rewrite isSpace_upperByte. by destruct (isSpace c).
Qed.

Lemma trimRight_ToUpper s : trimRight (ToUpper s) = ToUpper (trimRight s).
Proof.
  induction s as [|c s IH]; [done|]. simpl. rewrite IH, isSpace_upperByte.
  destruct (trimRight s); simpl; [|done]. by destruct (isSpace c).
Qed.

Lemma TrimSpace_ToUpper s : TrimSpace (ToUpper s) = ToUpper (TrimSpace s).
Proof. unfold TrimSpace. by rewrite trimLeft_ToUpper, trimRight_ToUpper. Qed.

Lemma upperByte_idem c : upperByte (upperByte c) = upperByte c.
Proof.
  unfold upperByte at 1. destruct (isLower (upperByte c)) eqn:E; [|done].
  pose proof (ToUpper_noLower (String c "")) as H. simpl in H.
  rewrite E in H. done.
Qed.

Lemma ToUpper_idem s : ToUpper (ToUpper s) = ToUpper s.
Proof.
  induction s as [|c s IH]; [done|]. simpl. by rewrite upperByte_idem, IH.
Qed.

Lemma isASCII_trimLeft s : isASCII s = true -> isASCII (trimLeft s) = true.
Proof.
  induction s as [|c s IH]; [done|]. simpl. intros H.
  destruct (isSpace c); [|done]. apply andb_true_iff in H as [_ H]. by apply IH.
Qed.

Lemma isASCII_trimRight s : isASCII s = true -> isASCII (trimRight s) = true.
Proof.
  induction s as [|c s IH]; [done|]. simpl. intros [Hc H]%andb_true_iff.
  specialize (IH H). destruct (trimRight s) as [|c' s'].
  - destruct (isSpace c); [done|]. simpl. by rewrite Hc.
  - change (isASCII (String c (String c' s')) = true). simpl. simpl in IH.
    by rewrite Hc, IH.
Qed.

Lemma isASCII_TrimSpace s : isASCII s = true -> isASCII (TrimSpace s) = true.
Proof. intros H. unfold TrimSpace. by apply isASCII_trimRight, isASCII_trimLeft. Qed.

Lemma isASCII_ToUpper s : isASCII s = true -> isASCII (ToUpper s) = true.
Proof.
  induction s as [|c s IH]; [done|]. simpl. intros [Hc H]%andb_true_iff.
  rewrite IH by done. rewrite andb_true_r. unfold upperByte.
  destruct (isLower c) eqn:E; [|done].
  unfold isLower in E. apply andb_true_iff in E as [E1%N.leb_le E2%N.leb_le].
  rewrite N_ascii_embedding by lia. apply N.ltb_lt. lia.
Qed.

End stringsFacts.

(** ** The normalizer, again *)

(** What [normalizeHotel] leaves of a row is left alone by [TrimSpace] and
    [ToUpper]. *)
Lemma normalizeHotel_fixed raw h :
  normalizeHotel raw = Some h ->
  (strings.TrimSpace (types.HotelID h) = types.HotelID h /\ types.HotelID h <> "") /\
  (strings.TrimSpace (types.Name h) = types.Name h /\ types.Name h <> "") /\
  (strings.TrimSpace (types.Currency h) = types.Currency h /\
   strings.ToUpper (types.Currency h) = types.Currency h /\ types.Currency h <> "") /\
  F64.le (types.Price h) F64.zero = false.
Proof.
  intros H. pose proof (normalizeHotel_Some _ _ H) as (Hid & Hname & Hcur & Hlow & Hp & Hle & _).
  revert H. unfold normalizeHotel.
  destruct (String.eqb (strings.TrimSpace (providers.HotelID raw)) ""); [done|].
  destruct (String.eqb (strings.TrimSpace (providers.Name raw)) ""); [done|].
  destruct (F64.le (providers.Price raw) F64.zero); [done|].
  intros [= <-]. simpl in *.
  repeat split; try done; try apply stringsFacts.TrimSpace_idem.
  - destruct (String.eqb _ ""); [done|].
    by rewrite stringsFacts.TrimSpace_ToUpper, stringsFacts.TrimSpace_idem.
  - destruct (String.eqb _ ""); [done|apply stringsFacts.ToUpper_idem].
Qed.

(** The hotel made of a row of ASCII text is ASCII text. *)
Lemma normalizeHotel_ascii raw h :
  strings.isASCII (providers.HotelID raw) = true ->
  strings.isASCII (providers.Name raw) = true ->
  strings.isASCII (providers.Currency raw) = true ->
  normalizeHotel raw = Some h ->
  strings.isASCII (types.HotelID h) = true /\
  strings.isASCII (types.Name h) = true /\
  strings.isASCII (types.Currency h) = true.
Proof.
  intros Hid Hname Hcur. unfold normalizeHotel.
  destruct (String.eqb (strings.TrimSpace (providers.HotelID raw)) ""); [done|].
  destruct (String.eqb (strings.TrimSpace (providers.Name raw)) ""); [done|].
  destruct (F64.le (providers.Price raw) F64.zero); [done|].
  intros [= <-]. simpl.
  repeat split; try by apply stringsFacts.isASCII_TrimSpace.
  destruct (String.eqb _ ""); [done|].
  by apply stringsFacts.isASCII_ToUpper, stringsFacts.isASCII_TrimSpace.
Qed.

(** X1. For a row whose identifier, name and currency are ASCII text (on
    which [strings.TrimSpace] and [strings.ToUpper] are as modelled): a
    hotel that [normalizeHotel] returns has the trimmed identifier and name
    of the row, both non-empty and free of surrounding white space; a
    currency that is non-empty, trimmed and without lower-case letter; the
    price of the row, which is not [<= 0]; and its three strings are ASCII
    text again. *)
Theorem normalizeHotel_wellformed raw h :
  strings.isASCII (providers.HotelID raw) = true ->
  strings.isASCII (providers.Name raw) = true ->
  strings.isASCII (providers.Currency raw) = true ->
  normalizeHotel raw = Some h ->
  (strings.isASCII (types.HotelID h) = true /\
   strings.isASCII (types.Name h) = true /\
   strings.isASCII (types.Currency h) = true) /\
  (types.HotelID h = strings.TrimSpace (providers.HotelID raw) /\
   strings.TrimSpace (types.HotelID h) = types.HotelID h /\ types.HotelID h <> "") /\
  (types.Name h = strings.TrimSpace (providers.Name raw) /\
   strings.TrimSpace (types.Name h) = types.Name h /\ types.Name h <> "") /\
  (types.Currency h <> "" /\ strings.noLower (types.Currency h) = true /\
   strings.TrimSpace (types.Currency h) = types.Currency h) /\
  types.Price h = providers.Price raw /\
  F64.le (types.Price h) F64.zero = false.
Proof.
  intros Hrid Hrname Hrcur H. split; [by eapply normalizeHotel_ascii|].
  pose proof (normalizeHotel_Some _ _ H) as (Hid & Hname & Hcur & Hlow & Hp & Hle & _).
  revert H. unfold normalizeHotel.
  destruct (String.eqb (strings.TrimSpace (providers.HotelID raw)) ""); [done|].
  destruct (String.eqb (strings.TrimSpace (providers.Name raw)) ""); [done|].
  destruct (F64.le (providers.Price raw) F64.zero); [done|].
  intros [= <-]. simpl in *.
  repeat split; try done; try apply stringsFacts.TrimSpace_idem.
  destruct (String.eqb _ ""); [done|].
  by rewrite stringsFacts.TrimSpace_ToUpper, stringsFacts.TrimSpace_idem.
Qed.

Lemma normalizeHotel_wellformed_witness :
  strings.TrimSpace "H006" = "H006" /\ strings.noLower "USD" = true.
Proof.
  destruct (normalizeHotel_wellformed
    (providers.mkHotel " H006 " "Valid Hotel 2" "paris" " usd" (F64.ofPos 200) 2)
    (types.mkHotel "H006" "Valid Hotel 2" "USD" (F64.ofPos 200)))
    as (_ & (_ & Hid & _) & _ & (_ & Hlow & _) & _); [reflexivity..|].
  split; [exact Hid | exact Hlow].
Defined.

(** X2. On ASCII text normalizing is idempotent: a hotel that
    [normalizeHotel] returned for a row whose identifier, name and currency
    are ASCII text has ASCII strings and, reported again with any city and
    nights, is returned unchanged. *)
Theorem normalizeHotel_idempotent raw h city nights :
  strings.isASCII (providers.HotelID raw) = true ->
  strings.isASCII (providers.Name raw) = true ->
  strings.isASCII (providers.Currency raw) = true ->
  normalizeHotel raw = Some h ->
  (strings.isASCII (providers.HotelID (reported h city nights)) = true /\
   strings.isASCII (providers.Name (reported h city nights)) = true /\
   strings.isASCII (providers.Currency (reported h city nights)) = true) /\
  normalizeHotel (reported h city nights) = Some h.
Proof.
  intros Hrid Hrname Hrcur H. split; [by eapply normalizeHotel_ascii|].
  destruct (normalizeHotel_fixed _ _ H)
    as ((Hid & Hid') & (Hname & Hname') & (Hcur & Hup & Hcur') & Hle).
  unfold normalizeHotel, reported. simpl.
  rewrite Hid, Hname, Hcur, Hup, Hle.
  destruct (String.eqb_spec (types.HotelID h) ""); [done|].
  destruct (String.eqb_spec (types.Name h) ""); [done|].
  destruct (String.eqb_spec (types.Currency h) ""); [done|].
  by destruct h.
Qed.

Lemma normalizeHotel_idempotent_witness :
  normalizeHotel (reported (types.mkHotel "H006" "Valid Hotel 2" "USD" (F64.ofPos 200))
                           "rome" 1)
  = Some (types.mkHotel "H006" "Valid Hotel 2" "USD" (F64.ofPos 200)).
Proof.
  apply (normalizeHotel_idempotent
    (providers.mkHotel " H006 " "Valid Hotel 2" "paris" " usd" (F64.ofPos 200) 2));
    reflexivity.
Defined.

(** ** The aggregator, again *)

Lemma le_antisym_positive a b :
  F64.lt F64.zero a = true -> F64.le a b = true -> F64.le b a = true -> a = b.
Proof.
  intros Hpos Hab Hba.
  destruct (F64Facts.le_not_NaN _ _ Hab)
    as [[ka Ha]%F64Facts.key_is_Some [kb Hb]%F64Facts.key_is_Some].
  apply (F64Facts.le_key _ _ _ _ Ha Hb) in Hab.
  apply (F64Facts.le_key _ _ _ _ Hb Ha) in Hba.
  assert (ka = kb) as ->.
  { destruct Hab as [Hab|]; [|done]. destruct Hba as [Hba|]; [|done].
    destruct (F64Facts.key_lt_irrefl ka). eauto using F64Facts.key_lt_trans. }
  destruct a as [[]|[]| |[] m e], b as [[]|[]| |[] m' e']; simpl in *;
    simplify_eq; done.
Qed.

Lemma arrivals_In units h :
  In h (arrivals units) <->
  exists hs raw, In (UnitOk hs) units /\ In raw hs /\ normalizeHotel raw = Some h.
Proof.
  unfold arrivals. rewrite in_flat_map. split.
  - intros ([e|hs] & Ho & Hh); [done|].
    apply list_elem_of_In, list_elem_of_omap in Hh as (raw & Hraw%list_elem_of_In & Hn).
    eauto.
  - intros (hs & raw & Ho & Hraw & Hn). exists (UnitOk hs). split; [done|].
    apply list_elem_of_In, list_elem_of_omap. exists raw.
    split; [by apply list_elem_of_In|done].
Qed.

(** The entries of the map are arrivals, no more of them than arrivals, and
    every arrival has an entry at its identifier. *)
Lemma fold_mergeHotel_from arr : forall m,
  (forall k h, fold_left mergeHotel arr m !! k = Some h ->
     m !! k = Some h \/ In h arr) /\
  (size (fold_left mergeHotel arr m) <= size m + List.length arr)%nat /\
  (forall h, In h arr -> is_Some (fold_left mergeHotel arr m !! types.HotelID h)) /\
  (forall k, is_Some (m !! k) -> is_Some (fold_left mergeHotel arr m !! k)).
Proof.
  induction arr as [|n arr IH]; intros m; simpl.
  { repeat split; auto; try lia; by intros ? []. }
  destruct (IH (mergeHotel m n)) as (Hin & Hsize & Hdom & Hkeep).
  assert (Hstep : forall k h, mergeHotel m n !! k = Some h -> m !! k = Some h \/ h = n).
  { intros k h. unfold mergeHotel.
    destruct (m !! types.HotelID n) as [e|];
      [destruct (F64.lt (types.Price n) (types.Price e))|]; auto;
      rewrite lookup_insert; case_decide; auto; intros [= <-]; auto. }
  assert (Hmono : forall k, is_Some (m !! k) -> is_Some (mergeHotel m n !! k)).
  { intros k Hk. unfold mergeHotel.
    destruct (m !! types.HotelID n) as [e|];
      [destruct (F64.lt (types.Price n) (types.Price e))|]; auto;
      rewrite lookup_insert; case_decide; auto; by eexists. }
  assert (Hn : is_Some (mergeHotel m n !! types.HotelID n)).
  { unfold mergeHotel. destruct (m !! types.HotelID n) as [e|] eqn:He;
      [destruct (F64.lt (types.Price n) (types.Price e))|];
      rewrite ?lookup_insert_eq, ?He; by eexists. }
  assert (Hsz : (size (mergeHotel m n) <= S (size m))%nat).
  { unfold mergeHotel. destruct (m !! types.HotelID n) as [e|] eqn:He;
      [destruct (F64.lt (types.Price n) (types.Price e))|]; try lia.
    - rewrite map_size_insert_Some by by eexists. lia.
    - rewrite map_size_insert_None by done. lia. }
  repeat split.
  - intros k h [Hm| Ha]%Hin; [|by auto]. apply Hstep in Hm as [?| ->]; auto.
  - lia.
  - intros h [<-|Ha]; [by apply Hkeep|by apply Hdom].
  - intros k Hk. by apply Hkeep, Hmono.
Qed.

(** X3. [Search] invents nothing and loses no identifier: every hotel of a
    result is what [normalizeHotel] made of a row that a successful unit
    reported, the result has at most as many hotels as rows passed
    normalization, and every identifier that passed is in the result. *)
Theorem Search_reports_rows rangeMap pdqsort units r e :
  (forall m, rangeMap m ≡ₚ (map_to_list m).*2) ->
  (forall less l, pdqsort less l ≡ₚ l) ->
  Search rangeMap pdqsort units = (Some r, e) ->
  (forall h, In h (types.Hotels r) ->
     exists hs raw, In (UnitOk hs) units /\ In raw hs /\ normalizeHotel raw = Some h) /\
  (List.length (types.Hotels r) <= List.length (arrivals units))%nat /\
  (forall hs raw h', In (UnitOk hs) units -> In raw hs -> normalizeHotel raw = Some h' ->
     exists h, In h (types.Hotels r) /\ types.HotelID h = types.HotelID h').
Proof.
  intros Hrange Hsort.
  destruct (Search_cases rangeMap pdqsort units) as [(_ & _ & ->)|(_ & ->)]; [done|].
  intros [= <- <-]; cbn [types.Hotels]. rewrite hotelMap_runUnits.
  destruct (fold_mergeHotel_from (arrivals units) ∅) as (Hin & Hsize & Hdom & _).
  split; [|split].
  - intros h Hh. apply flattened_In in Hh as [k Hk]; [|done..].
    apply arrivals_In. destruct (Hin _ _ Hk) as [Hm|]; [|done].
    by rewrite lookup_empty in Hm.
  - rewrite (Permutation_length (flattened_perm rangeMap pdqsort Hrange Hsort _)).
    rewrite length_fmap, length_map_to_list. rewrite map_size_empty in Hsize. lia.
  - intros hs raw h' Ho Hraw Hn.
    destruct (Hdom h') as [h Hh]; [apply arrivals_In; eauto|].
    exists h. split; [apply flattened_In; eauto|].
    eapply (fold_mergeHotel_keyed (arrivals units) ∅); [|exact Hh].
    intros k x. by rewrite lookup_empty.
Qed.

Lemma Search_reports_rows_witness :
  (List.length (types.Hotels resultDedup) <= List.length (arrivals unitsDedup))%nat.
Proof.
  refine (proj1 (proj2 (Search_reports_rows rangeListed insertionSort unitsDedup
                          resultDedup None _ _ _))).
  - exact rangeListed_perm.
  - exact (@insertionSort_perm types.Hotel).
  - vm_compute. reflexivity.
Defined.

(** Each hotel of a result is the cheapest arrival with its identifier. *)
Lemma Search_minimal rangeMap pdqsort units r e :
  (forall m, rangeMap m ≡ₚ (map_to_list m).*2) ->
  (forall less l, pdqsort less l ≡ₚ l) ->
  Forall positivePrice (arrivals units) ->
  Search rangeMap pdqsort units = (Some r, e) ->
  forall h, In h (types.Hotels r) ->
    In h (arrivals units) /\
    forall x, In x (arrivals units) -> types.HotelID x = types.HotelID h ->
              F64.le (types.Price h) (types.Price x) = true.
Proof.
  intros Hrange Hsort Hpos.
  destruct (Search_cases rangeMap pdqsort units) as [(_ & _ & ->)|(_ & ->)]; [done|].
  intros [= <- <-]; cbn [types.Hotels]. rewrite hotelMap_runUnits.
  destruct (merged_fold _ Hpos) as [Hkept _].
  intros h Hh. apply flattened_In in Hh as [k Hk]; [|done..].
  destruct (Hkept _ _ Hk) as [_ (l1 & l2 & Heq & H1 & H2)].
  split; [rewrite Heq; apply in_elt|].
  intros x Hx Hid. rewrite Heq in Hx.
  apply in_app_or in Hx as [Hx|[<-|Hx]].
  - by apply F64Facts.lt_le, H1.
  - apply F64Facts.le_refl, F64Facts.lt_zero_not_NaN.
    rewrite Forall_forall in Hpos. apply Hpos. rewrite Heq. apply list_elem_of_In, in_elt.
  - by apply H2.
Qed.

(** X4. When no provider reports a NaN price, every hotel of a result has a
    price greater than 0 and the hotels are in non-decreasing order of
    price. *)
Theorem Search_sorted_positive rangeMap pdqsort units r e :
  (forall m, rangeMap m ≡ₚ (map_to_list m).*2) ->
  (forall less l, pdqsort less l ≡ₚ l) ->
  (forall less l, strictWeak less l -> sortedBy less (pdqsort less l)) ->
  numericPrices units ->
  Search rangeMap pdqsort units = (Some r, e) ->
  Forall positivePrice (types.Hotels r) /\ priceSorted (types.Hotels r) = true.
Proof.
  intros Hrange Hperm Hsorted Hnum Hs. split.
  - apply Forall_forall. intros h Hh%list_elem_of_In.
    destruct (Search_minimal _ _ _ _ _ Hrange Hperm (arrivals_positive _ Hnum) Hs h Hh)
      as [Hin _].
    pose proof (arrivals_positive _ Hnum) as Hall. rewrite Forall_forall in Hall.
    by apply Hall, list_elem_of_In.
  - by eapply Search_sorted_without_NaN.
Qed.

Lemma insertionSort_contract (less : types.Hotel -> types.Hotel -> bool) l :
  strictWeak less l -> sortedBy less (insertionSort less l).
Proof.
  intros [Hirr Htr Hinc].
  apply (insertionSort_sorted less (fun a => In a l)).
  - intros a b Ha Hb Hab. destruct (less b a) eqn:Hba; [|done].
    pose proof (Htr a b a Ha Hb Ha Hab Hba). pose proof (Hirr a Ha). congruence.
  - intros a b c Ha Hb Hc Hab Hbc. destruct (less a c) eqn:Hac; [|done].
    destruct (less b a) eqn:Hba.
    { pose proof (Htr b a c Hb Ha Hc Hba Hac). congruence. }
    destruct (less c b) eqn:Hcb.
    { pose proof (Htr a c b Ha Hc Hb Hac Hcb). congruence. }
    destruct (Hinc a b c) as [Hf _]; try done. congruence.
  - apply Forall_forall. intros a Ha. by apply list_elem_of_In.
Qed.

Lemma Search_sorted_positive_witness :
  Forall positivePrice (types.Hotels resultDedup) /\
  priceSorted (types.Hotels resultDedup) = true.
Proof.
  apply (Search_sorted_positive rangeListed insertionSort unitsDedup resultDedup None).
  - exact rangeListed_perm.
  - exact (@insertionSort_perm types.Hotel).
  - exact insertionSort_contract.
  - intros hs raw Hu Hraw. simpl in Hu.
    destruct Hu as [[= <-]|[[= <-]|[]]]; simpl in Hraw;
      destruct Hraw as [<-|[<-|[]]]; reflexivity.
  - vm_compute. reflexivity.
Defined.

Lemma countFailed_perm units units' :
  units ≡ₚ units' -> countFailed units = countFailed units'.
Proof.
  intros Hp. unfold countFailed. f_equal. apply Permutation_length.
  induction Hp as [|o l l' _ IH|a b l|l1 l2 l3 _ IH1 _ IH2]; simpl; [done|..].
  - destruct (unitFailed o); [by constructor|done].
  - destruct (unitFailed a), (unitFailed b); try done. apply perm_swap.
  - by etrans.
Qed.

Lemma countSucceeded_perm units units' :
  units ≡ₚ units' -> countSucceeded units = countSucceeded units'.
Proof.
  intros Hp. pose proof (counts_total units). pose proof (counts_total units').
  pose proof (countFailed_perm _ _ Hp). pose proof (Permutation_length Hp). lia.
Qed.

(** X5. The schedule of the goroutines does not show in what [Search]
    reports: for the same outcomes in another order of arrival, [Search]
    fails or succeeds alike, with the same counts, and, when the prices that
    pass are positive, with the same price for every identifier of the
    result. *)
Theorem Search_order_independent rangeMap pdqsort units units' r e :
  (forall m, rangeMap m ≡ₚ (map_to_list m).*2) ->
  (forall less l, pdqsort less l ≡ₚ l) ->
  units ≡ₚ units' ->
  Search rangeMap pdqsort units = (Some r, e) ->
  exists r', Search rangeMap pdqsort units' = (Some r', None) /\
    types.ProvidersTotal r' = types.ProvidersTotal r /\
    types.ProvidersSucceeded r' = types.ProvidersSucceeded r /\
    types.ProvidersFailed r' = types.ProvidersFailed r /\
    (Forall positivePrice (arrivals units) ->
     forall h, In h (types.Hotels r) ->
       exists h', In h' (types.Hotels r') /\ types.HotelID h' = types.HotelID h /\
                  types.Price h' = types.Price h).
Proof.
  intros Hrange Hsort Hp Hs.
  destruct (Search_cases rangeMap pdqsort units) as [(_ & _ & Herr)|(Hok & Hres)];
    [congruence|].
  destruct (Search_cases rangeMap pdqsort units') as [(Hne & Hall & _)|(_ & Hres')].
  { destruct Hok. split.
    - intros ->. apply Permutation_nil in Hp. done.
    - by rewrite Hp. }
  eexists. split; [exact Hres'|].
  rewrite Hres in Hs. injection Hs as <- <-. cbn [types.ProvidersTotal
    types.ProvidersSucceeded types.ProvidersFailed].
  rewrite (Permutation_length Hp), (countSucceeded_perm _ _ Hp), (countFailed_perm _ _ Hp).
  repeat split; try done.
  intros Hpos h Hh.
  assert (Harr : arrivals units ≡ₚ arrivals units') by by apply Permutation_flat_map.
  assert (Hpos' : Forall positivePrice (arrivals units')) by by rewrite <- Harr.
  destruct (Search_minimal _ _ _ _ _ Hrange Hsort Hpos Hres h Hh) as [Hin Hmin].
  destruct (fold_mergeHotel_from (arrivals units') ∅) as (_ & _ & Hdom & _).
  destruct (Hdom h) as [h' Hh'].
  { apply list_elem_of_In. rewrite <- Harr. by apply list_elem_of_In. }
  assert (Hin' : In h' (sortSlice pdqsort byPrice (rangeMap (hotelMap (runUnits units'))))).
  { rewrite hotelMap_runUnits. apply flattened_In; eauto. }
  assert (Hid : types.HotelID h' = types.HotelID h).
  { eapply (fold_mergeHotel_keyed (arrivals units') ∅); [|exact Hh'].
    intros k x. by rewrite lookup_empty. }
  exists h'. split; [exact Hin'|]. split; [done|].
  destruct (Search_minimal _ _ _ _ _ Hrange Hsort Hpos' Hres' h' Hin') as [Hin2 Hmin'].
  symmetry. apply le_antisym_positive.
  - rewrite Forall_forall in Hpos. by apply Hpos, list_elem_of_In.
  - apply Hmin; [|done]. apply list_elem_of_In. rewrite Harr. by apply list_elem_of_In.
  - apply Hmin'; [|done]. apply list_elem_of_In. rewrite <- Harr. by apply list_elem_of_In.
Qed.

Lemma Search_order_independent_witness :
  exists r', Search rangeListed insertionSort (rev unitsDedup) = (Some r', None) /\
    types.ProvidersTotal r' = types.ProvidersTotal resultDedup /\
    types.ProvidersSucceeded r' = types.ProvidersSucceeded resultDedup /\
    types.ProvidersFailed r' = types.ProvidersFailed resultDedup /\
    (Forall positivePrice (arrivals unitsDedup) ->
     forall h, In h (types.Hotels resultDedup) ->
       exists h', In h' (types.Hotels r') /\ types.HotelID h' = types.HotelID h /\
                  types.Price h' = types.Price h).
Proof.
  apply (Search_order_independent rangeListed insertionSort unitsDedup (rev unitsDedup)
           resultDedup None).
  - exact rangeListed_perm.
  - exact (@insertionSort_perm types.Hotel).
  - apply Permutation_rev.
  - vm_compute. reflexivity.
Defined.

(** ** The cache, again *)

Module cacheMore.
Import cache cacheFacts.

Lemma enter_Hit c heap now key r c' heap' :
  enter c heap now key = (Hit r, c', heap') ->
  exists e, entries c !! key = Some e /\ now < expiresAt e /\
            r = result e /\ c' = c /\ heap' = heap.
Proof.
  unfold enter, joinOrLead. destruct (entries c !! key) as [e|] eqn:He.
  - destruct (Z.ltb_spec now (expiresAt e)).
    + intros [= <- <- <-]. eauto 6.
    + destruct (inflight c !! key); intros [=].
  - destruct (inflight c !! key); intros [=].
Qed.

Lemma enter_fresh c heap now key e :
  entries c !! key = Some e -> now < expiresAt e ->
  enter c heap now key = (Hit (result e), c, heap).
Proof.
  intros He Hlt. unfold enter. rewrite He.
  destruct (Z.ltb_spec now (expiresAt e)); [done|lia].
Qed.

(** X6. After a fetch whose result was cached at [now2], a caller of the key
    is served from the cache, without a fetch and without a change to the
    cache, as long as the clock reads less than [now2 + ttl]; from
    [now2 + ttl] on the caller runs a fetch again. *)
Theorem GetOrFetch_hit_until_ttl c heap now1 now2 key r a c' heap' :
  GetOrFetch c heap now1 now2 key (Some r, None) = (Some a, c', heap', true) ->
  forall now3 now4 out',
    (now3 < now2 + ttl c ->
     GetOrFetch c' heap' now3 now4 key out' = (Some (Some r, true, None), c', heap', false)) /\
    (now2 + ttl c <= now3 ->
     exists c'' heap'',
       GetOrFetch c' heap' now3 now4 key out' =
         (Some (fst out', false, snd out'), c'', heap'', true)).
Proof.
  unfold GetOrFetch at 1.
  destruct (enter c heap now1 key) as [[[r0|p|p] c1] h1] eqn:Hent; [done..|].
  apply enter_Leader in Hent as (-> & Hi & Hexp & -> & ->).
  unfold settle; simpl. intros [= <- <- <-] now3 now4 out'. split.
  - intros Hlt. unfold GetOrFetch.
    rewrite (enter_fresh _ _ _ _ (mkEntry (Some r) (now2 + ttl c)));
      [done|simpl; apply lookup_insert_eq|done].
  - intros Hge. unfold GetOrFetch. rewrite enter_cold; simpl.
    + by eexists _, _.
    + by rewrite lookup_delete_eq.
    + intros e. rewrite lookup_insert_eq. intros [= <-]. simpl. lia.
Qed.

Lemma GetOrFetch_hit_until_ttl_witness :
  GetOrFetch warmCache [mkInflight true (Some emptyResult) None] 34 40
     "paris:2025-12-01:2:2" (None, Some "unused")
  = (Some (Some emptyResult, true, None), warmCache,
     [mkInflight true (Some emptyResult) None], false).
Proof.
  pose proof (GetOrFetch_hit_until_ttl (NewCache 30) [] 0 5 "paris:2025-12-01:2:2"
                emptyResult _ _ _ eq_refl 34 40 (None, Some "unused")) as [H _].
  apply H. reflexivity.
Defined.

(** X7. After [Invalidate] a caller of the key is not served from the cache,
    whatever the clock reads: with no request in flight it runs the fetch.
    The callers of every other key leave the first critical section as they
    would have without it. *)
Theorem Invalidate_forces_fetch c heap key :
  (inflight c !! key = None ->
   forall now1 now2 out, exists c' heap',
     GetOrFetch (Invalidate c key) heap now1 now2 key out =
       (Some (fst out, false, snd out), c', heap', true)) /\
  (forall key' now, key' <> key ->
     fst (fst (enter (Invalidate c key) heap now key')) =
     fst (fst (enter c heap now key'))).
Proof.
  split.
  - intros Hi now1 now2 out. unfold GetOrFetch. rewrite enter_cold; simpl.
    + by eexists _, _.
    + done.
    + intros e. by rewrite lookup_delete_eq.
  - intros key' now Hne. unfold enter, joinOrLead, Invalidate. simpl.
    rewrite lookup_delete_ne by done.
    destruct (entries c !! key') as [e|]; [destruct (now <? expiresAt e); [done|]|];
      by destruct (inflight c !! key').
Qed.

Lemma Invalidate_forces_fetch_witness :
  exists c' heap',
    GetOrFetch (Invalidate warmCache "paris:2025-12-01:2:2") [] 6 7
      "paris:2025-12-01:2:2" (Some emptyResult, None) =
      (Some (Some emptyResult, false, None), c', heap', true).
Proof.
  apply (proj1 (Invalidate_forces_fetch warmCache [] "paris:2025-12-01:2:2")
           eq_refl 6 7 (Some emptyResult, None)).
Defined.

(** X8. After [Clear] no caller is served from the cache: a caller of any
    key with no request in flight runs the fetch, and the requests in flight
    are still joined. *)
Theorem Clear_forces_fetch c heap key now :
  (inflight c !! key = None ->
   forall now2 out, exists c' heap',
     GetOrFetch (Clear c) heap now now2 key out =
       (Some (fst out, false, snd out), c', heap', true)) /\
  (forall p, inflight c !! key = Some p ->
     enter (Clear c) heap now key = (Waiter p, Clear c, heap)).
Proof.
  split.
  - intros Hi now2 out. unfold GetOrFetch. rewrite enter_cold; simpl.
    + by eexists _, _.
    + done.
    + intros e. by rewrite lookup_empty.
  - intros p Hp. apply enter_inflight; simpl; [done|].
    intros e. by rewrite lookup_empty.
Qed.

Lemma Clear_forces_fetch_witness :
  exists c' heap',
    GetOrFetch (Clear warmCache) [] 6 7 "paris:2025-12-01:2:2" (Some emptyResult, None) =
      (Some (Some emptyResult, false, None), c', heap', true).
Proof.
  apply (proj1 (Clear_forces_fetch warmCache [] "paris:2025-12-01:2:2" 6)
           eq_refl 7 (Some emptyResult, None)).
Defined.

(** X9. The sweeper is not observable: once the clock has reached the time of
    the sweep, a caller leaves the first critical section with the same role,
    the same requests and the same requests in flight as without the sweep,
    and the entries it then finds are those the sweep would have left. *)
Theorem cleanup_unobservable c heap now now' key :
  now <= now' ->
  enter (cleanup c now) heap now' key =
    (fst (fst (enter c heap now' key)),
     cleanup (snd (fst (enter c heap now' key))) now,
     snd (enter c heap now' key)).
Proof.
  intros Hle. unfold enter, joinOrLead.
  destruct (entries (cleanup c now) !! key) as [e'|] eqn:He'.
  - apply map_lookup_filter_Some in He' as [He Hkeep]. simpl in He, Hkeep.
    rewrite He. destruct (now' <? expiresAt e'); [done|].
    simpl. by destruct (inflight c !! key).
  - destruct (entries c !! key) as [e|] eqn:He.
    + destruct (Z.ltb_spec now' (expiresAt e)) as [Hlt|_].
      * assert (entries (cleanup c now) !! key = Some e) as Hx; [|congruence].
        apply map_lookup_filter_Some. split; [done|]. simpl. lia.
      * simpl. by destruct (inflight c !! key).
    + simpl. by destruct (inflight c !! key).
Qed.

Lemma cleanup_unobservable_witness :
  enter (cleanup warmCache 40) [] 41 "paris:2025-12-01:2:2" =
    (fst (fst (enter warmCache [] 41 "paris:2025-12-01:2:2")),
     cleanup (snd (fst (enter warmCache [] 41 "paris:2025-12-01:2:2"))) 40,
     snd (enter warmCache [] 41 "paris:2025-12-01:2:2")).
Proof.
  apply (cleanup_unobservable warmCache [] 40 41). lia.
Defined.

(** X10. A caller that no other goroutine interleaves with always gets an
    answer when no request is in flight, leaves no request in flight behind,
    and leaves the entries of every other key as they were. *)
Theorem GetOrFetch_alone c heap now1 now2 key out :
  inflight c = ∅ ->
  exists a c' heap' fetched,
    GetOrFetch c heap now1 now2 key out = (Some a, c', heap', fetched) /\
    inflight c' = ∅ /\ ttl c' = ttl c /\
    (forall key', key' <> key -> entries c' !! key' = entries c !! key') /\
    (fetched = false -> c' = c /\ snd (fst a) = true /\ snd a = None).
Proof.
  intros Hi. unfold GetOrFetch.
  destruct (enter c heap now1 key) as [[[r|p|p] c1] h1] eqn:Hent.
  - apply enter_Hit in Hent as (e & He & Hlt & -> & -> & ->).
    eexists _, _, _, _. repeat split; done.
  - exfalso. revert Hent. unfold enter, joinOrLead. rewrite Hi, lookup_empty.
    destruct (entries c !! key) as [e|]; [destruct (now1 <? expiresAt e)|]; done.
  - apply enter_Leader in Hent as (-> & _ & _ & -> & ->).
    unfold settle. simpl. eexists _, _, _, _. split; [reflexivity|]. simpl.
    rewrite Hi. repeat split; try done.
    + apply map_eq. intros k. rewrite lookup_delete, lookup_insert, lookup_empty.
      by repeat case_decide.
    + intros key' Hne. destruct (cacheable out); [|done].
      by rewrite lookup_insert_ne.
Qed.

Lemma GetOrFetch_alone_witness :
  exists a c' heap' fetched,
    GetOrFetch warmCache [] 50 51 "rome:2025-12-01:2:2" (None, Some "all providers down")
      = (Some a, c', heap', fetched) /\
    inflight c' = ∅ /\ ttl c' = ttl warmCache /\
    (forall key', key' <> "rome:2025-12-01:2:2" ->
                  entries c' !! key' = entries warmCache !! key') /\
    (fetched = false -> c' = warmCache /\ snd (fst a) = true /\ snd a = None).
Proof.
  apply (GetOrFetch_alone warmCache [] 50 51 "rome:2025-12-01:2:2"). reflexivity.
Defined.

End cacheMore.

(** ** The cache under concurrent callers, again *)

Module cacheWorld.
Import cache cacheFacts singleflight cacheMore.

Lemma entriesSound_initial ttl0 now0 : entriesSound (initial ttl0 now0).
Proof. split; simpl; intros; by simplify_map_eq. Qed.

Lemma entriesSound_threads w t x c' h' :
  entriesSound w ->
  entries c' = entries (wcache w) -> ttl c' = ttl (wcache w) ->
  (forall a, x = Returned ViaHit a -> exists r, a = (Some r, true, None)) ->
  entriesSound (mkWorld c' h' (setThread w t x) (wnow w)).
Proof.
  intros [He Ht] Hc Httl Hx. split; simpl.
  - rewrite Hc, Httl. apply He.
  - intros t0 a. rewrite lookup_setThread. intros [[-> <-]|[_ H0]].
    + by apply Hx.
    + by eapply Ht.
Qed.

Lemma entriesSound_entries w c' :
  entriesSound w ->
  (forall k e, entries c' !! k = Some e -> entries (wcache w) !! k = Some e) ->
  ttl c' = ttl (wcache w) ->
  entriesSound (mkWorld c' (wheap w) (wthreads w) (wnow w)).
Proof.
  intros [He Ht] Hc Httl. split; simpl; [|done].
  intros k e Hk. rewrite Httl. apply (He k e). by apply Hc.
Qed.

Lemma entriesSound_step w w' : step w w' -> entriesSound w -> entriesSound w'.
Proof.
  intros Hstep Hs. destruct Hstep as
    [w t key Ht | w t key r c' h' Ht Hent | w t key p out Ht
    | w t key p out c' h' Ht Hset | w t key p out Ht | w t key p q Ht Hq Hd
    | w t key p cause Ht | w d Hd | w key | w | w].
  - by apply entriesSound_threads.
  - destruct r as [res|p|p].
    + apply enter_Hit in Hent as (e & He & Hlt & -> & -> & ->).
      apply entriesSound_threads; try done.
      intros a [= <-]. destruct Hs as [Hs _]. destruct (Hs _ _ He) as [Hr _].
      destruct (result e); [by eexists|done].
    + destruct (enter_not_Leader _ _ _ _ _ _ _ Hent) as [-> ->]; [done|].
      by apply entriesSound_threads.
    + apply enter_Leader in Hent as (_ & _ & _ & -> & ->).
      by apply entriesSound_threads.
  - by apply entriesSound_threads.
  - unfold settle in Hset. injection Hset as <- <-.
    destruct Hs as [He Hth]. split; simpl.
    + intros k e. destruct (cacheable out) eqn:Hc; [|apply He].
      rewrite lookup_insert. case_decide; [|apply He].
      intros [= <-]. simpl. split; [|lia].
      by destruct out as [[r|] [err|]].
    + intros t0 a. rewrite lookup_setThread. intros [[_ [=]]|[_ H0]]. by eapply Hth.
  - by apply entriesSound_threads.
  - by apply entriesSound_threads.
  - by apply entriesSound_threads.
  - destruct Hs as [He Hth]. split; simpl; [|done].
    intros k e Hk. destruct (He _ _ Hk). split; [done|lia].
  - apply entriesSound_entries; try done. simpl. intros k e.
    rewrite lookup_delete_Some. tauto.
  - by apply entriesSound_entries.
  - apply entriesSound_entries; try done. simpl. intros k e.
    rewrite map_lookup_filter_Some. tauto.
Qed.

(** X11. Whatever the interleaving of callers, [Invalidate], [Clear], the
    sweeper and the clock: every entry of the cache holds a result that is
    not nil and expires at most [ttl] after the current time, and every
    caller served from the cache got a result that is not nil, with
    [hit = true] and a nil error. *)
Theorem cache_entries_sound ttl0 now0 w :
  reachable ttl0 now0 w -> entriesSound w.
Proof.
  unfold reachable. revert w. apply rtc_ind_r.
  - apply entriesSound_initial.
  - intros w1 w2 _ Hstep IH. by eapply entriesSound_step.
Qed.

Lemma cache_entries_sound_witness : entriesSound (worldAfter sharedRun).
Proof.
  apply (cache_entries_sound 30 0).
  apply execAll_rtc with sharedRun. vm_compute. reflexivity.
Defined.

Lemma served_initial ttl0 now0 : served (initial ttl0 now0).
Proof. split; simpl; intros; by simplify_map_eq. Qed.

Lemma enter_Waiter c heap now key p c' heap' :
  enter c heap now key = (Waiter p, c', heap') -> inflight c !! key = Some p.
Proof.
  unfold enter, joinOrLead.
  destruct (entries c !! key) as [e|]; [destruct (now <? expiresAt e); [done|]|];
    destruct (inflight c !! key); by intros [= <-].
Qed.

Lemma fetchOf_active x k p : fetchOf x = Some (k, p) -> activeOf x = Some p.
Proof. destruct x; simpl; congruence. Qed.

(** A step that moves goroutine [t] only, to a point that is not a wait and
    that keeps what [t] had to fetch and to complete. *)
Lemma served_set_thread w t x' h' c' :
  served w ->
  inflight c' = inflight (wcache w) ->
  (forall p q, wheap w !! p = Some q -> done q = true ->
               exists q', h' !! p = Some q' /\ done q' = true) ->
  (forall k p, x' <> Waiting k p) ->
  (forall x kp, wthreads w !! t = Some x -> fetchOf x = Some kp -> fetchOf x' = Some kp) ->
  (forall x p, wthreads w !! t = Some x -> activeOf x = Some p ->
     activeOf x' = Some p \/ exists q', h' !! p = Some q' /\ done q' = true) ->
  served (mkWorld c' h' (setThread w t x') (wnow w)).
Proof.
  intros [HJ HW] Hi Hh Hx' Hf Ha. split; simpl.
  - rewrite Hi. intros k p Hk. destruct (HJ _ _ Hk) as (t0 & x0 & Ht0 & Hx0).
    destruct (decide (t0 = t)) as [->|Hne].
    + exists t, x'. split; [apply lookup_setThread; by left|by eapply Hf].
    + exists t0, x0. split; [apply lookup_setThread; by right|done].
  - intros t1 k p. rewrite lookup_setThread. intros [[_ Heq]|[Hne Ht1]].
    { by destruct (Hx' k p). }
    destruct (HW _ _ _ Ht1) as [(q & Hq & Hd)|(t' & x & Ht' & Hx)].
    + left. by eapply Hh.
    + destruct (decide (t' = t)) as [->|Hne'].
      * destruct (Ha _ _ Ht' Hx) as [Hact|Hdone]; [|by left].
        right. exists t, x'. split; [apply lookup_setThread; by left|done].
      * right. exists t', x. split; [apply lookup_setThread; by right|done].
Qed.

Lemma closeDone_lookup (heap : list inflightRequest) (p p1 : nat) q :
  heap !! p1 = Some q ->
  exists q', closeDone heap p !! p1 = Some q' /\
             done q' = (if decide (p1 = p) then true else done q).
Proof.
  intros Hq. unfold closeDone. case_decide as Hp.
  - subst. rewrite list_lookup_alter_eq, Hq. by eexists.
  - rewrite list_lookup_alter_ne by done. by eexists.
Qed.

Lemma record_lookup (heap : list inflightRequest) (p : nat) out (p1 : nat) q :
  heap !! p1 = Some q ->
  exists q', alter (record out) p heap !! p1 = Some q' /\ done q' = done q.
Proof.
  intros Hq. destruct (decide (p1 = p)) as [->|Hp].
  - rewrite list_lookup_alter_eq, Hq. by eexists.
  - rewrite list_lookup_alter_ne by done. by eexists.
Qed.

Lemma served_step w w' : step w w' -> inv w -> served w -> served w'.
Proof.
  intros Hstep Hinv Hs. destruct Hstep as
    [w t key Ht | w t key r c' h' Ht Hent | w t key p out Ht
    | w t key p out c' h' Ht Hset | w t key p out Ht | w t key p q Ht Hq Hd
    | w t key p cause Ht | w d Hd | w key | w | w].
  - apply served_set_thread; try done; eauto; congruence.
  - destruct r as [res|p|p].
    + destruct (enter_not_Leader _ _ _ _ _ _ _ Hent) as [-> ->]; [done|].
      apply served_set_thread; try done; eauto;
        intros x ? Hx; rewrite Ht in Hx; by injection Hx as <-.
    + pose proof (enter_Waiter _ _ _ _ _ _ _ Hent) as Hi.
      destruct (enter_not_Leader _ _ _ _ _ _ _ Hent) as [-> ->]; [done|].
      destruct Hs as [HJ HW]. split; simpl.
      * intros k p0 Hk. destruct (HJ _ _ Hk) as (t0 & x0 & Ht0 & Hx0).
        exists t0, x0. split; [|done]. apply lookup_setThread. right.
        split; [|done]. intros ->. rewrite Ht in Ht0. by injection Ht0 as <-.
      * intros t1 k p0. rewrite lookup_setThread. intros [[-> [= <- <-]]|[Hne Ht1]].
        -- right. destruct (HJ _ _ Hi) as (t0 & x0 & Ht0 & Hx0).
           exists t0, x0. split; [|by eapply fetchOf_active].
           apply lookup_setThread. right. split; [|done].
           intros ->. rewrite Ht in Ht0. by injection Ht0 as <-.
        -- destruct (HW _ _ _ Ht1) as [?|(t' & x & Ht' & Hx)]; [by left|].
           right. exists t', x. split; [|done]. apply lookup_setThread. right.
           split; [|done]. intros ->. rewrite Ht in Ht'. by injection Ht' as <-.
    + apply enter_Leader in Hent as (-> & Hi & _ & -> & ->).
      destruct Hs as [HJ HW]. split; simpl.
      * intros k p0. rewrite lookup_insert. case_decide as Hk.
        -- intros [= <-]. subst k. exists t, (Fetching key (List.length (wheap w))).
           split; [apply lookup_setThread; by left|done].
        -- intros Hk0. destruct (HJ _ _ Hk0) as (t0 & x0 & Ht0 & Hx0).
           exists t0, x0. split; [|done]. apply lookup_setThread. right.
           split; [|done]. intros ->. rewrite Ht in Ht0. by injection Ht0 as <-.
      * intros t1 k p0. rewrite lookup_setThread. intros [[_ [=]]|[Hne Ht1]].
        destruct (HW _ _ _ Ht1) as [(q & Hq & Hd)|(t' & x & Ht' & Hx)].
        -- left. exists q. split; [|done]. by apply lookup_app_l_Some.
        -- right. exists t', x. split; [|done]. apply lookup_setThread. right.
           split; [|done]. intros ->. rewrite Ht in Ht'. by injection Ht' as <-.
  - apply served_set_thread; try done; eauto.
    + intros x kp Hx. rewrite Ht in Hx. by injection Hx as <-.
    + intros x p0 Hx. rewrite Ht in Hx. injection Hx as <-. by left.
  - unfold settle in Hset. injection Hset as <- <-.
    destruct Hs as [HJ HW]. split; simpl.
    + intros k p0. rewrite lookup_delete_Some. intros [Hne Hk].
      destruct (HJ _ _ Hk) as (t0 & x0 & Ht0 & Hx0).
      exists t0, x0. split; [|done]. apply lookup_setThread. right.
      split; [|done]. intros ->. rewrite Ht in Ht0. injection Ht0 as <-.
      simpl in Hx0. congruence.
    + intros t1 k p0. rewrite lookup_setThread. intros [[_ [=]]|[Hne Ht1]].
      destruct (HW _ _ _ Ht1) as [(q & Hq & Hd)|(t' & x & Ht' & Hx)].
      * left. destruct (record_lookup _ p out _ _ Hq) as (q' & Hq' & Hd').
        exists q'. split; [done|congruence].
      * right. destruct (decide (t' = t)) as [->|Hne'].
        -- rewrite Ht in Ht'. injection Ht' as <-. simpl in Hx.
           exists t, (Closing key p out). split; [apply lookup_setThread; by left|done].
        -- exists t', x. split; [apply lookup_setThread; by right|done].
  - assert (exists q, wheap w !! p = Some q) as [q Hq].
    { apply lookup_lt_is_Some_2. by eapply (inv_owner_lt _ Hinv). }
    apply served_set_thread; try done.
    + intros p1 q1 Hq1 Hd1. destruct (closeDone_lookup _ p _ _ Hq1) as (q' & Hq' & Hd').
      exists q'. split; [done|]. rewrite Hd'. by case_decide.
    + intros x kp Hx. rewrite Ht in Hx. by injection Hx as <-.
    + intros x p0 Hx. rewrite Ht in Hx. injection Hx as <-. simpl. intros [= <-].
      right. destruct (closeDone_lookup _ p _ _ Hq) as (q' & Hq' & Hd').
      exists q'. split; [done|]. rewrite Hd'. by case_decide.
  - apply served_set_thread; try done; eauto;
      intros x ? Hx; rewrite Ht in Hx; by injection Hx as <-.
  - apply served_set_thread; try done; eauto;
      intros x ? Hx; rewrite Ht in Hx; by injection Hx as <-.
  - done.
  - done.
  - done.
  - done.
Qed.

Lemma served_reachable ttl0 now0 w : reachable ttl0 now0 w -> inv w /\ served w.
Proof.
  unfold reachable. revert w. apply rtc_ind_r.
  - split; [apply inv_initial|apply served_initial].
  - intros w1 w2 _ Hstep [Hinv Hs]. split; [by eapply inv_step|by eapply served_step].
Qed.

(** The leader's remaining steps complete its request and move no other
    goroutine. *)
Lemma finish_completes w t x p q out :
  wthreads w !! t = Some x -> activeOf x = Some p -> wheap w !! p = Some q ->
  exists w' q',
    execAll w (finish x t out) = Some w' /\
    wheap w' !! p = Some q' /\ done q' = true /\
    (forall t0, t0 <> t -> wthreads w' !! t0 = wthreads w !! t0).
Proof.
  intros Ht Hx Hq.
  assert (Hclose : forall w k out q, wthreads w !! t = Some (Closing k p out) ->
            wheap w !! p = Some q ->
            exists w' q', execAll w [AClose t] = Some w' /\
              wheap w' !! p = Some q' /\ done q' = true /\
              (forall t0, t0 <> t -> wthreads w' !! t0 = wthreads w !! t0)).
  { clear. intros w k out q Ht Hq. simpl. rewrite Ht.
    destruct (closeDone_lookup _ p _ _ Hq) as (q' & Hq' & Hd').
    eexists _, q'. split; [done|]. simpl. split; [done|].
    split; [rewrite Hd'; by case_decide|].
    intros t0 Hne. unfold setThread. by rewrite lookup_insert_ne. }
  assert (Hsettle : forall w k out q, wthreads w !! t = Some (Fetched k p out) ->
            wheap w !! p = Some q ->
            exists w' q', execAll w [ASettle t; AClose t] = Some w' /\
              wheap w' !! p = Some q' /\ done q' = true /\
              (forall t0, t0 <> t -> wthreads w' !! t0 = wthreads w !! t0)).
  { clear -Hclose. intros w k out q Ht Hq.
    destruct (record_lookup _ p out _ _ Hq) as (q1 & Hq1 & _).
    destruct (Hclose (mkWorld (fst (settle (wcache w) (wheap w) (wnow w) k p out))
                        (alter (record out) p (wheap w))
                        (setThread w t (Closing k p out)) (wnow w)) k out q1)
      as (w' & q' & Hex & Hq' & Hd' & Hoth); simpl.
    { unfold setThread. apply lookup_insert_eq. }
    { done. }
    exists w', q'. split; [|split; [done|split; [done|]]].
    - change (execAll w [ASettle t; AClose t])
        with (match exec w (ASettle t) with Some w1 => execAll w1 [AClose t] | None => None end).
      simpl exec. rewrite Ht. unfold settle in *. simpl in *. exact Hex.
    - intros t0 Hne. rewrite Hoth by done. simpl. unfold setThread.
      by rewrite lookup_insert_ne. }
  destruct x as [|k p0|k p0|k p0 out0|k p0 out0|]; simpl in Hx; try done;
    injection Hx as ->.
  - destruct (Hsettle (mkWorld (wcache w) (wheap w) (setThread w t (Fetched k p out))
                         (wnow w)) k out q)
      as (w' & q' & Hex & Hq' & Hd' & Hoth); simpl.
    { unfold setThread. apply lookup_insert_eq. }
    { done. }
    exists w', q'. split; [|split; [done|split; [done|]]].
    + change (execAll w (finish (Fetching k p) t out))
        with (match exec w (AFetch t out) with
              | Some w1 => execAll w1 [ASettle t; AClose t] | None => None end).
      simpl exec. rewrite Ht. exact Hex.
    + intros t0 Hne. rewrite Hoth by done. simpl. unfold setThread.
      by rewrite lookup_insert_ne.
  - by eapply Hsettle.
  - by eapply Hclose.
Qed.

(** X12. No waiter is left behind: from every reachable state, a goroutine
    that waits on a request can still return on the completion signal, after
    at most the three steps the leader of the request has left (the return of
    its fetch, the second critical section, the close of the channel) and
    without a step of any other goroutine, whatever the fetch returns. *)
Theorem waiter_is_served ttl0 now0 w t key p (out : outcome) :
  reachable ttl0 now0 w ->
  wthreads w !! t = Some (Waiting key p) ->
  exists acts w' a,
    (acts = [ADone t] \/
     exists t' x, wthreads w !! t' = Some x /\ activeOf x = Some p /\
                  acts = (finish x t' out ++ [ADone t])%list) /\
    execAll w acts = Some w' /\
    wthreads w' !! t = Some (Returned (ViaDone p) a) /\
    reachable ttl0 now0 w'.
Proof.
  intros Hr Ht. destruct (served_reachable _ _ _ Hr) as [Hinv [_ HW]].
  assert (Hdone : forall w0 q, wthreads w0 !! t = Some (Waiting key p) ->
            wheap w0 !! p = Some q -> done q = true ->
            exists w', execAll w0 [ADone t] = Some w' /\
              wthreads w' !! t = Some (Returned (ViaDone p) (iresult q, false, ierr q))).
  { intros w0 q Ht0 Hq Hd. simpl. rewrite Ht0, Hq, Hd. eexists. split; [done|].
    simpl. unfold setThread. apply lookup_insert_eq. }
  destruct (HW _ _ _ Ht) as [(q & Hq & Hd)|(t' & x & Ht' & Hx)].
  - destruct (Hdone w q Ht Hq Hd) as (w' & Hex & Hret).
    exists [ADone t], w', (iresult q, false, ierr q).
    split; [by left|]. split; [done|]. split; [done|].
    unfold reachable; etrans; [exact Hr|by eapply execAll_rtc].
  - assert (exists q, wheap w !! p = Some q) as [q Hq].
    { apply lookup_lt_is_Some_2. eapply (inv_owner_lt _ Hinv); [exact Ht'|].
      destruct x; simpl in *; congruence. }
    assert (t' <> t) as Hne.
    { intros ->. rewrite Ht in Ht'. by injection Ht' as <-. }
    destruct (finish_completes w t' x p q out Ht' Hx Hq)
      as (w1 & q1 & Hex1 & Hq1 & Hd1 & Hoth).
    destruct (Hdone w1 q1) as (w' & Hex & Hret); [by rewrite Hoth|done..|].
    assert (execAll w (finish x t' out ++ [ADone t]) = Some w') as Hall.
    { clear -Hex1 Hex. revert w Hex1. induction (finish x t' out) as [|a l IH];
        intros w Hex1; simpl in *.
      - injection Hex1 as ->. exact Hex.
      - destruct (exec w a); [by apply IH|done]. }
    exists (finish x t' out ++ [ADone t])%list, w', (iresult q1, false, ierr q1).
    split; [|split; [done|split; [done|]]].
    + right. by exists t', x.
    + unfold reachable; etrans; [exact Hr|by eapply execAll_rtc].
Qed.

Lemma waiter_is_served_witness :
  exists acts w' a,
    (acts = [ADone 1%nat] \/
     exists t' x, wthreads (worldAfter joinedRun) !! t' = Some x /\
                  activeOf x = Some 0%nat /\
                  acts = (finish x t' (Some emptyResult, None) ++ [ADone 1%nat])%list) /\
    execAll (worldAfter joinedRun) acts = Some w' /\
    wthreads w' !! 1%nat = Some (Returned (ViaDone 0) a) /\
    reachable 30 0 w'.
Proof.
  apply (waiter_is_served 30 0 (worldAfter joinedRun) 1 "paris:2025-12-01:2:2" 0
           (Some emptyResult, None)).
  - apply execAll_rtc with joinedRun. vm_compute. reflexivity.
  - vm_compute. reflexivity.
Defined.

End cacheWorld.

(** ** The rate limiter, again *)

Module limiterMore.
Import ratelimit limiterFacts.

Lemma cleanup_lookup_eq l now key :
  buckets (cleanup l now) !! key =
    match buckets l !! key with
    | Some b => if decide (wrap64 (2 * window l) < now - lastReset b) then None else Some b
    | None => None
    end.
Proof.
  destruct (buckets (cleanup l now) !! key) as [b|] eqn:E.
  - apply cleanup_lookup in E as [-> Hk]. by case_decide.
  - destruct (buckets l !! key) as [b|] eqn:Hb; [|done].
    case_decide as Hk; [done|].
    assert (buckets (cleanup l now) !! key = Some b) as E'; [|congruence].
    by apply cleanup_lookup.
Qed.

Lemma isolation evs : forall key l1 l2,
  rate l1 = rate l2 -> window l1 = window l2 ->
  buckets l1 !! key = buckets l2 !! key ->
  List.filter (fun c => String.eqb (who c) key) (fst (run l1 evs)) =
  fst (run l2 (List.filter (concerns key) evs)).
Proof.
  induction evs as [|[now k|now] evs IH]; intros key l1 l2 HR HW Hb; [done|..].
  - rewrite run_allow. cbn [fst List.filter concerns who].
    destruct (String.eqb_spec k key) as [->|Hne].
    + rewrite run_allow. cbn [fst]. f_equal.
      * f_equal. by rewrite !Allow_fst, HR, HW, Hb.
      * apply IH; rewrite ?Allow_rate, ?Allow_window; try done.
        rewrite !Allow_lookup. case_decide; [|done]. by rewrite HR, HW, Hb.
    + apply IH; rewrite ?Allow_rate, ?Allow_window; try done.
      rewrite Allow_lookup. by case_decide.
  - cbn [List.filter concerns]. rewrite !run_cleanup. apply IH; try done.
    by rewrite !cleanup_lookup_eq, Hb, HW.
Qed.

(** X13. The calls of other clients never change what a client is answered:
    the answers to the calls for a key are those the limiter gives when the
    calls for every other key are left out. *)
Theorem Allow_key_isolation l evs key :
  List.filter (fun c => String.eqb (who c) key) (fst (run l evs)) =
  fst (run l (List.filter (concerns key) evs)).
Proof. by apply isolation. Qed.

Lemma sweep_sim evs : forall t l1 l2,
  rate l1 = rate l2 -> window l1 = window l2 -> 0 <= window l1 < 2 ^ 62 ->
  (forall key, buckets l1 !! key = buckets l2 !! key \/
     (buckets l1 !! key = None /\
      exists b, buckets l2 !! key = Some b /\ 2 * window l1 < t - lastReset b)) ->
  Forall (fun e => t <= eventTime e) evs -> monotonic evs ->
  fst (run l1 evs) = fst (run l2 (List.filter isAllow evs)).
Proof.
  induction evs as [|[now k|now] evs IH]; intros t l1 l2 HR HW HW0 Hsim Hall Hm; [done|..];
    apply Forall_cons in Hall as [Hnow Hall]; simpl in Hnow;
    apply monotonic_inv in Hm as [Hlater Hm]; simpl in Hlater.
  - cbn [List.filter isAllow]. rewrite !run_allow. cbn [fst].
    assert (allowBucket (rate l1) (window l1) now (buckets l1 !! k) =
            allowBucket (rate l2) (window l2) now (buckets l2 !! k)) as Heq.
    { rewrite <- HR, <- HW. destruct (Hsim k) as [->|(-> & b & -> & Hexp)]; [done|].
      rewrite !allowBucket_refill; [done| |done].
      intros b' [= <-]. lia. }
    f_equal.
    + f_equal. by rewrite !Allow_fst, Heq.
    + apply (IH now); rewrite ?Allow_rate, ?Allow_window; try done.
      intros key. rewrite !Allow_lookup. case_decide; [left; by rewrite Heq|].
      destruct (Hsim key) as [?|(? & b & ? & ?)]; [by left|right].
      split; [done|]. exists b. split; [done|lia].
  - cbn [List.filter isAllow]. rewrite run_cleanup.
    apply (IH now); try done.
    intros key. rewrite cleanup_lookup_eq, wrap64_double by lia. simpl.
    destruct (Hsim key) as [Heq|(-> & b & Hb & Hexp)].
    + destruct (buckets l1 !! key) as [b|] eqn:Hb; [|by left].
      case_decide; [|by left]. right. split; [done|]. by exists b.
    + right. split; [done|]. exists b. split; [done|lia].
Qed.

(** X14. The sweeper is not observable: with a window that is not negative
    and whose double fits in [int64] (a window below 2^62 ns), and a
    monotonic clock, every call of [Allow] is answered as if no bucket had
    ever been removed. *)
Theorem cleanup_never_shows l evs :
  0 <= window l < 2 ^ 62 -> monotonic evs ->
  fst (run l evs) = fst (run l (List.filter isAllow evs)).
Proof.
  intros HW Hm. destruct evs as [|e evs]; [done|].
  apply (sweep_sim _ (eventTime e)); try done; [by left|].
  apply monotonic_inv in Hm as [Hall _]. constructor; [lia|done].
Qed.

Lemma cleanup_never_shows_witness :
  fst (run (New 2 10) twoClients) = fst (run (New 2 10) (List.filter isAllow twoClients)).
Proof.
  apply (cleanup_never_shows (New 2 10) twoClients); simpl; lia.
Defined.

Lemma run_between key times : forall l k t0,
  buckets l !! key = Some (mkBucket k t0) ->
  Forall (fun t => t - t0 < window l) times ->
  fst (run l (callsOf key times)) =
    imap (fun i t => mkCall t key (Z.of_nat i <? k)) times.
Proof.
  induction times as [|t times IH]; intros l k t0 Hb Hall; [done|].
  apply Forall_cons in Hall as [Ht Hall].
  cbn [callsOf List.map]. rewrite run_allow. cbn [fst]. rewrite imap_cons.
  assert (allowBucket (rate l) (window l) t (buckets l !! key) =
          if 0 <? k then (true, mkBucket (k - 1) t0) else (false, mkBucket k t0)) as Heq.
  { rewrite Hb, allowBucket_keep by done. done. }
  f_equal.
  - rewrite Allow_fst, Heq. change (Z.of_nat 0) with 0. by destruct (0 <? k).
  - rewrite (IH _ (if 0 <? k then k - 1 else k) t0).
    + apply imap_ext. intros i x _. simpl. f_equal.
      destruct (Z.ltb_spec 0 k);
        [destruct (Z.ltb_spec (Z.of_nat i) (k - 1))|destruct (Z.ltb_spec (Z.of_nat i) k)];
        destruct (Z.ltb_spec (Z.of_nat (S i)) k); try done; lia.
    + rewrite Allow_lookup. case_decide; [|done]. rewrite Heq. by destruct (0 <? k).
    + by rewrite Allow_window.
Qed.

(** X15. Within one window a client gets exactly [rate] calls through: from
    a call that starts a window (the first call of a key, or one that comes
    when the window of its bucket has passed), of the calls for the key that
    follow before the window has passed, the first [rate] ones in all are
    answered true and every later one false. *)
Theorem Allow_exact_in_window l key t0 rest :
  (forall b, buckets l !! key = Some b -> window l <= t0 - lastReset b) ->
  Forall (fun t => t - t0 < window l) rest ->
  fst (run l (callsOf key (t0 :: rest))) =
    imap (fun i t => mkCall t key (Z.of_nat i <? rate l)) (t0 :: rest).
Proof.
  intros Hfresh Hall. cbn [callsOf List.map]. rewrite run_allow. cbn [fst].
  rewrite imap_cons.
  assert (allowBucket (rate l) (window l) t0 (buckets l !! key) =
          if 0 <? rate l then (true, mkBucket (rate l - 1) t0)
          else (false, mkBucket (rate l) t0)) as Heq.
  { by apply allowBucket_refill. }
  f_equal.
  - rewrite Allow_fst, Heq. change (Z.of_nat 0) with 0. by destruct (0 <? rate l).
  - rewrite (run_between key rest _ (if 0 <? rate l then rate l - 1 else rate l) t0).
    + apply imap_ext. intros i x _. simpl. f_equal.
      destruct (Z.ltb_spec 0 (rate l));
        [destruct (Z.ltb_spec (Z.of_nat i) (rate l - 1))
        |destruct (Z.ltb_spec (Z.of_nat i) (rate l))];
        destruct (Z.ltb_spec (Z.of_nat (S i)) (rate l)); try done; lia.
    + rewrite Allow_lookup. case_decide; [|done]. rewrite Heq. by destruct (0 <? rate l).
    + by rewrite Allow_window.
Qed.

Lemma Allow_exact_in_window_witness :
  fst (run (New 3 60) (callsOf "user2" [0; 1; 2; 3; 59])) =
    [mkCall 0 "user2" true; mkCall 1 "user2" true; mkCall 2 "user2" true;
     mkCall 3 "user2" false; mkCall 59 "user2" false].
Proof.
  apply (Allow_exact_in_window (New 3 60) "user2" 0 [1; 2; 3; 59]).
  - intros b. simpl. by rewrite lookup_empty.
  - repeat constructor; simpl; lia.
Defined.

Lemma admittedIn_app key lo hi log1 log2 :
  admittedIn key lo hi (log1 ++ log2) =
    (admittedIn key lo hi log1 + admittedIn key lo hi log2)%nat.
Proof. unfold admittedIn. by rewrite List.filter_app, length_app. Qed.

Lemma admittedIn_mono key lo hi lo' hi' log :
  lo' <= lo -> hi <= hi' ->
  (admittedIn key lo hi log <= admittedIn key lo' hi' log)%nat.
Proof.
  intros Hlo Hhi. induction log as [|c log IH]; [done|].
  rewrite !admittedIn_cons.
  assert (counts key lo hi c = true -> counts key lo' hi' c = true) as Hc.
  { unfold counts. rewrite !andb_true_iff, !Z.leb_le. intros [[[? ?] ?] ?].
    repeat split; try done; lia. }
  destruct (counts key lo hi c); [rewrite Hc by done|destruct (counts key lo' hi' c)]; lia.
Qed.

Lemma justified_run evs : forall l past T,
  (forall key b, buckets l !! key = Some b ->
     lastReset b <= T /\
     rate l - Z.of_nat (admittedIn key (lastReset b) T past) <= tokens b) ->
  Forall (fun e => T <= eventTime e) evs -> monotonic evs ->
  justified (rate l) (window l) past (fst (run l evs)).
Proof.
  induction evs as [|[now k|now] evs IH]; intros l past T Hinv Hall Hm; [done|..];
    apply Forall_cons in Hall as [Hnow Hall]; simpl in Hnow;
    apply monotonic_inv in Hm as [Hlater Hm]; simpl in Hlater.
  - rewrite run_allow. cbn [fst justified who at_ allowed].
    set (c := mkCall now k (fst (Allow l now k))).
    assert (Hone : fst (Allow l now k) = true ->
              forall lo, lo <= now -> (1 <= admittedIn k lo now [c])%nat).
    { intros Hok lo Hlo. unfold admittedIn, counts, c. simpl. rewrite Hok.
      rewrite String.eqb_refl. simpl.
      destruct (Z.leb_spec lo now); [|lia]. destruct (Z.leb_spec now now); [|lia].
      simpl. lia. }
    split.
    + rewrite Allow_fst. unfold allowBucket.
      destruct (buckets l !! k) as [b|] eqn:Hb.
      * destruct (Hinv _ _ Hb) as [HT Htok].
        destruct (Z.leb_spec (window l) (now - lastReset b)) as [Hre|Hkeep]; simpl.
        -- destruct (Z.ltb_spec 0 (rate l)); [done|]. intros _. lia.
        -- destruct (Z.ltb_spec 0 (tokens b)); [done|]. intros _.
           pose proof (admittedIn_mono k (lastReset b) T (now - window l + 1) now past).
           lia.
      * simpl. destruct (window l <=? now - now); simpl;
          (destruct (Z.ltb_spec 0 (rate l)); [done|]); intros _; lia.
    + rewrite <- (Allow_rate l now k), <- (Allow_window l now k).
      apply (IH _ _ now); [|done|done].
      intros key b'. rewrite Allow_lookup, Allow_rate. case_decide as Hk.
      * subst key. intros [= <-]. fold c. rewrite admittedIn_app.
        pose proof Hone as Hone'. rewrite Allow_fst in Hone'. revert Hone'.
        unfold allowBucket.
        destruct (buckets l !! k) as [b|] eqn:Hb.
        -- destruct (Hinv _ _ Hb) as [HT Htok].
           pose proof (admittedIn_mono k (lastReset b) T (lastReset b) now past).
           destruct (Z.leb_spec (window l) (now - lastReset b)) as [Hre|Hkeep]; simpl.
           ++ destruct (Z.ltb_spec 0 (rate l)); simpl; intros Hc.
              ** specialize (Hc eq_refl now). lia.
              ** lia.
           ++ destruct (Z.ltb_spec 0 (tokens b)); simpl; intros Hc.
              ** specialize (Hc eq_refl (lastReset b)). lia.
              ** lia.
        -- simpl. destruct (window l <=? now - now); simpl;
             (destruct (Z.ltb_spec 0 (rate l)); simpl; intros Hc;
              [specialize (Hc eq_refl now); lia|lia]).
      * intros Hb. destruct (Hinv _ _ Hb) as [HT Htok]. split; [lia|].
        rewrite admittedIn_app.
        pose proof (admittedIn_mono key (lastReset b') T (lastReset b') now past). lia.
  - rewrite run_cleanup.
    change (justified (rate (cleanup l now)) (window (cleanup l now)) past
              (fst (run (cleanup l now) evs))).
    apply (IH _ _ now); [|done|done].
    intros key b [Hb _]%cleanup_lookup. destruct (Hinv _ _ Hb) as [HT Htok].
    split; [lia|].
    pose proof (admittedIn_mono key (lastReset b) T (lastReset b) now past).
    change (rate (cleanup l now)) with (rate l). lia.
Qed.

Lemma justified_at R W log : forall past pre c post,
  justified R W past log -> log = (pre ++ c :: post)%list -> allowed c = false ->
  R <= Z.of_nat (admittedIn (who c) (at_ c - W + 1) (at_ c) (past ++ pre)).
Proof.
  induction log as [|c0 log IH]; intros past pre c post Hj Heq Hc.
  { by destruct pre. }
  destruct Hj as [Hhead Hrest]. destruct pre as [|c1 pre]; simpl in Heq.
  - injection Heq as -> ->. rewrite app_nil_r. by apply Hhead.
  - injection Heq as -> ->.
    specialize (IH _ _ _ _ Hrest eq_refl Hc).
    by rewrite <- app_assoc in IH.
Qed.

(** X16. A client is refused only when it has used up its rate: with a
    monotonic clock, every call of [Allow] that is answered false comes
    after at least [rate] calls for the same key that were answered true
    within the window that ends at it. *)
Theorem Allow_refusal_justified rate window evs pre c post :
  monotonic evs ->
  fst (run (New rate window) evs) = (pre ++ c :: post)%list ->
  allowed c = false ->
  rate <= Z.of_nat (admittedIn (who c) (at_ c - window + 1) (at_ c) pre).
Proof.
  intros Hm Hlog Hc.
  apply (justified_at rate window (fst (run (New rate window) evs)) [] pre c post);
    [|done|done].
  clear Hlog. destruct evs as [|e evs]; [done|].
  apply (justified_run _ (New rate window) [] (eventTime e)).
  - intros key b. simpl. by rewrite lookup_empty.
  - apply monotonic_inv in Hm as [Hall _]. constructor; [lia|done].
  - done.
Qed.

Lemma Allow_refusal_justified_witness :
  2 <= Z.of_nat (admittedIn "203.0.113.195" (28 - 10 + 1) 28
                   (removelast (fst (run (New 2 10) twoClients)))).
Proof.
  apply (Allow_refusal_justified 2 10 twoClients
           (removelast (fst (run (New 2 10) twoClients)))
           (mkCall 28 "203.0.113.195" false) []).
  - simpl. lia.
  - vm_compute. reflexivity.
  - reflexivity.
Defined.

End limiterMore.

(** ** The [/search] endpoint *)

Module endpointFacts.
Import endpoint.

Lemma GetOrFetch_lone c heap now1 now2 key out :
  cache.inflight c = ∅ ->
  (exists e, cache.entries c !! key = Some e /\ now1 < cache.expiresAt e /\
     cache.GetOrFetch c heap now1 now2 key out =
       (Some (cache.result e, true, None), c, heap, false)) \/
  ((forall e, cache.entries c !! key = Some e -> cache.expiresAt e <= now1) /\
   exists c' heap',
     cache.GetOrFetch c heap now1 now2 key out =
       (Some (fst out, false, snd out), c', heap', true) /\
     cache.inflight c' = ∅ /\ cache.ttl c' = cache.ttl c /\
     cache.entries c' =
       if cache.cacheable out
       then <[key := cache.mkEntry (fst out) (now2 + cache.ttl c)]> (cache.entries c)
       else cache.entries c).
Proof.
  intros Hi.
  assert (Hcold : (forall e, cache.entries c !! key = Some e -> cache.expiresAt e <= now1) ->
    exists c' heap',
     cache.GetOrFetch c heap now1 now2 key out =
       (Some (fst out, false, snd out), c', heap', true) /\
     cache.inflight c' = ∅ /\ cache.ttl c' = cache.ttl c /\
     cache.entries c' =
       if cache.cacheable out
       then <[key := cache.mkEntry (fst out) (now2 + cache.ttl c)]> (cache.entries c)
       else cache.entries c).
  { intros Hexp. unfold cache.GetOrFetch.
    rewrite cacheFacts.enter_cold; [|by rewrite Hi, lookup_empty|done].
    unfold cache.settle. simpl. eexists _, _. split; [reflexivity|]. simpl.
    split; [|done]. by rewrite Hi, delete_insert_eq, delete_empty. }
  destruct (cache.entries c !! key) as [e|] eqn:He.
  - destruct (Z.lt_ge_cases now1 (cache.expiresAt e)) as [Hlt|Hge].
    + left. exists e. split; [done|]. split; [done|].
      unfold cache.GetOrFetch. by rewrite (cacheMore.enter_fresh _ _ _ _ e He Hlt).
    + right. split; [by intros e' [= <-]|]. apply Hcold. by intros e' [= <-].
  - right. split; [done|]. by apply Hcold.
Qed.

Lemma failed_head units :
  units <> [] -> Forall (fun o => unitFailed o = true) units ->
  exists e, head (omap unitError units) = Some e.
Proof.
  destruct units as [|[e|hs] units]; [done|by eexists|].
  intros _ Hall. by apply Forall_cons in Hall as [? _].
Qed.

Lemma add64_succ x : - 2 ^ 63 <= x -> x + 1 < 2 ^ 63 -> obs.add64 x 1 = x + 1.
Proof. intros H1 H2. unfold obs.add64. rewrite Z.mod_small; lia. Qed.

Lemma countErrors_requests units m :
  obs.requests (countErrors units m) = obs.requests m /\
  obs.cacheHits (countErrors units m) = obs.cacheHits m.
Proof.
  unfold countErrors. induction (List.length (List.filter unitFailed units)) as [|n IH];
    [done|]. simpl. done.
Qed.

Lemma noComma_firstField s : noComma (firstField s) = true.
Proof.
  induction s as [|c s IH]; [done|]. simpl.
  destruct (Ascii.eqb c ",") eqn:E; [done|]. simpl. by rewrite E.
Qed.

Lemma firstField_all s : noComma s = true -> firstField s = s.
Proof.
  induction s as [|c s IH]; [done|]. simpl.
  destruct (Ascii.eqb c ","); [done|]. simpl. intros H. by rewrite IH.
Qed.

Lemma firstField_app first rest :
  noComma first = true -> firstField (first +:+ "," +:+ rest) = first.
Proof.
  induction first as [|c s IH]; [done|]. rewrite keyFacts.app_cons. simpl.
  destruct (Ascii.eqb c ","); [done|]. simpl. intros H. by rewrite IH.
Qed.

Lemma noComma_trimLeft s : noComma s = true -> noComma (strings.trimLeft s) = true.
Proof.
  induction s as [|c s IH]; [done|]. simpl. intros H.
  destruct (strings.isSpace c); [|done].
  apply andb_true_iff in H as [_ H]. by apply IH.
Qed.

Lemma noComma_trimRight s : noComma s = true -> noComma (strings.trimRight s) = true.
Proof.
  induction s as [|c s IH]; [done|]. simpl. intros [Hc H]%andb_true_iff.
  specialize (IH H). destruct (strings.trimRight s) as [|c' s'].
  - destruct (strings.isSpace c); [done|]. simpl. by rewrite Hc.
  - change (noComma (String c (String c' s')) = true). simpl. simpl in IH.
    by rewrite Hc, IH.
Qed.

Lemma isASCII_firstField s :
  strings.isASCII s = true -> strings.isASCII (firstField s) = true.
Proof.
  induction s as [|c s IH]; [done|]. simpl. intros [Hc H]%andb_true_iff.
  destruct (Ascii.eqb c ","); [done|]. simpl. by rewrite Hc, IH.
Qed.

Lemma noComma_TrimSpace s : noComma s = true -> noComma (strings.TrimSpace s) = true.
Proof. intros H. unfold strings.TrimSpace. by apply noComma_trimRight, noComma_trimLeft. Qed.

Section Served.

Variable rangeMap : gmap string types.Hotel -> list types.Hotel.
Variable pdqsort :
  (types.Hotel -> types.Hotel -> bool) -> list types.Hotel -> list types.Hotel.
Variable SplitHostPort : string -> option (string * string).

Local Abbreviation handle := (SearchHandler rangeMap pdqsort SplitHostPort).
Local Abbreviation serving := (serve rangeMap pdqsort SplitHostPort).
Local Abbreviation ipOf r := (ExtractIP SplitHostPort r).
Local Abbreviation parse r :=
  (handler.ParseSearchParams (qcity r) (qcheckin r) (qnights r) (qadults r)).
Local Abbreviation isSound := (sound rangeMap pdqsort).
Local Abbreviation SearchOf := (Search rangeMap pdqsort).
Local Abbreviation elapsed clk := (Milliseconds (endTime clk - startTime clk)).

Lemma Search_adds_up units r :
  SearchOf units = (Some r, None) ->
  types.ProvidersSucceeded r + types.ProvidersFailed r = types.ProvidersTotal r.
Proof.
  destruct (Search_cases rangeMap pdqsort units) as [(_ & _ & ->)|(_ & ->)]; [done|].
  intros [= <-]. simpl. apply counts_total.
Qed.

(** The five ways a request is answered when no other is in flight. *)
Lemma SearchHandler_cases h clk r units :
  isSound h ->
  exists rep c heap m',
    handle h clk r units =
      (rep, mkHandler (snd (ratelimit.Allow (rateLimiter h) (allowAt clk) (ipOf r)))
              c heap m') /\
    isSound (mkHandler (snd (ratelimit.Allow (rateLimiter h) (allowAt clk) (ipOf r)))
               c heap m') /\
    cache.ttl c = cache.ttl (searchCache h) /\
    ((fst (ratelimit.Allow (rateLimiter h) (allowAt clk) (ipOf r)) = false /\
      rep = writeError 429 "rate limit exceeded" /\
      c = searchCache h /\ heap = requestHeap h /\ m' = obs.IncRequests (metrics h)) \/
     (fst (ratelimit.Allow (rateLimiter h) (allowAt clk) (ipOf r)) = true /\
      exists err, parse r = inr err /\ rep = writeError 400 err /\
      c = searchCache h /\ heap = requestHeap h /\ m' = obs.IncRequests (metrics h)) \/
     (fst (ratelimit.Allow (rateLimiter h) (allowAt clk) (ipOf r)) = true /\
      exists params e res, parse r = inl params /\
      cache.entries (searchCache h) !! handler.keyOf params = Some e /\
      enterAt clk < cache.expiresAt e /\ cache.result e = Some res /\
      rep = Wrote 200 (encoded (searchResponse params res "hit" (elapsed clk))) /\
      c = searchCache h /\ heap = requestHeap h /\
      m' = obs.IncCacheHits (obs.IncRequests (metrics h))) \/
     (fst (ratelimit.Allow (rateLimiter h) (allowAt clk) (ipOf r)) = true /\
      exists params, parse r = inl params /\
      (forall e, cache.entries (searchCache h) !! handler.keyOf params = Some e ->
                 cache.expiresAt e <= enterAt clk) /\
      units <> [] /\ Forall (fun o => unitFailed o = true) units /\
      rep = writeError 500 "search failed" /\
      cache.entries c = cache.entries (searchCache h) /\
      m' = countErrors units (obs.IncRequests (metrics h))) \/
     (fst (ratelimit.Allow (rateLimiter h) (allowAt clk) (ipOf r)) = true /\
      exists params res, parse r = inl params /\
      (forall e, cache.entries (searchCache h) !! handler.keyOf params = Some e ->
                 cache.expiresAt e <= enterAt clk) /\
      SearchOf units = (Some res, None) /\
      rep = Wrote 200 (encoded (searchResponse params res "miss" (elapsed clk))) /\
      cache.entries c =
        <[handler.keyOf params :=
            cache.mkEntry (Some res) (settleAt clk + cache.ttl (searchCache h))]>
          (cache.entries (searchCache h)) /\
      m' = countErrors units (obs.IncRequests (metrics h)))).
Proof.
  intros [Hi He]. unfold SearchHandler.
  destruct (ratelimit.Allow (rateLimiter h) (allowAt clk) (ipOf r)) as [ok lim].
  cbn [fst snd]. destruct ok; cbn [negb].
  2:{ eexists _, _, _, _. split; [reflexivity|]. split; [by split|]. split; [done|].
      left. done. }
  destruct (parse r) as [params|err] eqn:HP.
  2:{ eexists _, _, _, _. split; [reflexivity|]. split; [by split|]. split; [done|].
      right; left. split; [done|]. by exists err. }
  fold (handler.keyOf params).
  destruct (GetOrFetch_lone (searchCache h) (requestHeap h) (enterAt clk) (settleAt clk)
              (handler.keyOf params) (SearchOf units) Hi)
    as [(e & Hk & Hlt & ->)|(Hcold & c' & heap' & -> & Hi' & Httl & Hent)].
  - destruct (He _ _ Hk) as (us & res & Hres & HS). rewrite Hres.
    eexists _, _, _, _. split; [reflexivity|]. split; [by split|]. split; [done|].
    right; right; left. split; [done|]. by exists params, e, res.
  - destruct (Search_cases rangeMap pdqsort units) as [(Hne & Hall & HS)|(Hnot & HS)].
    + destruct (failed_head _ Hne Hall) as [err Herr].
      rewrite HS, Herr in *. simpl in Hent. cbn [fst snd].
      eexists _, _, _, _. split; [reflexivity|]. split; [|split; [done|]].
      * split; [done|]. simpl. rewrite Hent. apply He.
      * do 3 right; left. split; [done|]. by exists params.
    + rewrite HS in *. simpl in Hent. cbn [fst snd].
      eexists _, _, _, _. split; [reflexivity|]. split; [|split; [done|]].
      * split; [done|]. simpl. rewrite Hent. intros k e.
        rewrite lookup_insert. case_decide; [|apply He].
        intros [= <-]. eexists units, _. by split.
      * do 4 right. split; [done|]. eexists params, _. by repeat split.
Qed.

(** X17. Requests handled one after the other from a handler whose cache
    holds results of [Search] and no request in flight: every call of
    [SearchHandler] writes a status (it neither dereferences a nil result
    nor waits): 400, 429 or 500 with an error message, or 200, followed by
    the search response when every price of it can be encoded, and by
    nothing when a price is NaN or infinite. *)
Theorem serve_always_answers h arrivals :
  isSound h ->
  Forall (fun rep => exists status b, rep = Wrote status b /\
            ((status = 200 /\ exists resp,
                (b = response.Found resp /\ encodes resp = true) \/
                (b = response.NotEncoded resp /\ encodes resp = false)) \/
             ((status = 400 \/ status = 429 \/ status = 500) /\
              exists message, b = response.Error message)))
         (fst (serving h arrivals)) /\
  isSound (snd (serving h arrivals)).
Proof.
  revert h. induction arrivals as [|a arrivals IH]; intros h Hs; [by split|].
  simpl.
  destruct (SearchHandler_cases h (clockOf a) (requestOf a) (unitsOf a) Hs)
    as (rep & c & heap & m' & -> & Hs' & _ & Hcase).
  destruct (IH _ Hs') as [Hall Hfin].
  destruct (serving _ arrivals) as [reps h'']. simpl in *. split; [|done].
  constructor; [|done].
  assert (Hok : forall resp, exists status b, Wrote 200 (encoded resp) = Wrote status b /\
            ((status = 200 /\ exists resp,
                (b = response.Found resp /\ encodes resp = true) \/
                (b = response.NotEncoded resp /\ encodes resp = false)) \/
             ((status = 400 \/ status = 429 \/ status = 500) /\
              exists message, b = response.Error message))).
  { intros resp. eexists _, _. split; [reflexivity|]. left. split; [done|].
    exists resp. unfold encoded. destruct (encodes resp); [by left|by right]. }
  destruct Hcase as [(_ & -> & _)|[(_ & err & _ & -> & _)|[(_ & p & e & res & _ & _ & _ & _ & -> & _)
    |[(_ & p & _ & _ & _ & _ & -> & _)|(_ & p & res & _ & _ & _ & -> & _)]]]];
    try apply Hok; eexists _, _; (split; [reflexivity|]); eauto 10.
Qed.

(** X18. Every 200 response is built from the validated parameters of its
    request and from the hotels and the counts of one call of [Search], also
    when it is served from the cache: [providers_succeeded +
    providers_failed = providers_total], the cache field is hit or miss, and
    the duration is what the clock measured. The client gets this response
    when every price of it can be encoded, and an empty body when a price is
    NaN or infinite. *)
Theorem serve_responses h arrivals :
  isSound h ->
  Forall2 (fun a rep => forall b, rep = Wrote 200 b ->
     exists params units res status,
       parse (requestOf a) = inl params /\
       SearchOf units = (Some res, None) /\
       (status = "hit" \/ status = "miss") /\
       types.ProvidersSucceeded res + types.ProvidersFailed res =
         types.ProvidersTotal res /\
       ((b = response.Found
               (searchResponse params res status (elapsed (clockOf a))) /\
         forallb (fun h => jsonFloat (types.Price h)) (types.Hotels res) = true) \/
        (b = response.NotEncoded
               (searchResponse params res status (elapsed (clockOf a))) /\
         forallb (fun h => jsonFloat (types.Price h)) (types.Hotels res) = false)))
    arrivals (fst (serving h arrivals)).
Proof.
  revert h. induction arrivals as [|a arrivals IH]; intros h Hs; [constructor|].
  simpl.
  destruct (SearchHandler_cases h (clockOf a) (requestOf a) (unitsOf a) Hs)
    as (rep & c & heap & m' & -> & Hs' & _ & Hcase).
  specialize (IH _ Hs').
  destruct (serving _ arrivals) as [reps h'']. simpl in *.
  constructor; [|done]. intros b ->.
  assert (Hb : forall params res status,
            (encoded (searchResponse params res status (elapsed (clockOf a))) =
               response.Found (searchResponse params res status (elapsed (clockOf a))) /\
             forallb (fun h => jsonFloat (types.Price h)) (types.Hotels res) = true) \/
            (encoded (searchResponse params res status (elapsed (clockOf a))) =
               response.NotEncoded
                 (searchResponse params res status (elapsed (clockOf a))) /\
             forallb (fun h => jsonFloat (types.Price h)) (types.Hotels res) = false)).
  { intros params res status. unfold encoded, encodes. cbn [searchResponse response.Hotels].
    destruct (forallb _ _); [by left|by right]. }
  destruct Hcase as [(_ & [=] & _)|[(_ & err & _ & [=] & _)
    |[(_ & p & e & res & HP & Hk & _ & Hres & [= ->] & _)
    |[(_ & p & _ & _ & _ & _ & [=] & _)|(_ & p & res & HP & _ & HS & [= ->] & _)]]]].
  - destruct Hs as [_ He]. destruct (He _ _ Hk) as (us & res' & Hres' & HS).
    assert (res' = res) as -> by congruence.
    exists p, us, res, "hit".
    split; [done|]. split; [done|]. split; [by left|].
    split; [by eapply Search_adds_up|]. apply Hb.
  - exists p, (unitsOf a), res, "miss".
    split; [done|]. split; [done|]. split; [by right|].
    split; [by eapply Search_adds_up|]. apply Hb.
Qed.

(** The requests handled in between leave the entry of a key alone when
    they enter the cache before it expires. *)
Lemma serve_keeps_entry arrivals : forall h key e,
  isSound h ->
  cache.entries (searchCache h) !! key = Some e ->
  Forall (fun a => enterAt (clockOf a) < cache.expiresAt e) arrivals ->
  isSound (snd (serving h arrivals)) /\
  cache.entries (searchCache (snd (serving h arrivals))) !! key = Some e.
Proof.
  induction arrivals as [|a arrivals IH]; intros h key e Hs Hk Hall; [by split|].
  apply Forall_cons in Hall as [Ha Hall]. simpl.
  destruct (SearchHandler_cases h (clockOf a) (requestOf a) (unitsOf a) Hs)
    as (rep & c & heap & m' & -> & Hs' & _ & Hcase).
  specialize (IH _ key e Hs').
  destruct (serving _ arrivals) as [reps h'']. cbn [fst snd searchCache] in *.
  apply IH; [|done].
  destruct Hcase as [(_ & _ & -> & _)|[(_ & err & _ & _ & -> & _)
    |[(_ & p & e' & res & _ & _ & _ & _ & _ & -> & _)
    |[(_ & p & _ & _ & _ & _ & _ & -> & _)|(_ & p & res & _ & Hcold & _ & _ & -> & _)]]]];
    try done.
  rewrite lookup_insert. case_decide as Heq; [|done].
  subst key. specialize (Hcold _ Hk). lia.
Qed.

(** X19. A valid request answered by a search fills the cache for the
    requests that follow: after any requests handled in between that enter
    the cache before the result expires, a request with the same validated
    parameters that the limiter admits and that enters the cache less than
    [ttl] after the result was stored gets the same parameters, counts and
    hotels with the cache field [hit], and no provider is called for it. *)
Theorem repeat_is_hit h clk r units resp h' between clk' r' units' :
  isSound h ->
  handle h clk r units = (Wrote 200 (response.Found resp), h') ->
  response.Cache (response.Stats resp) = "miss" ->
  Forall (fun a => enterAt (clockOf a) < settleAt clk + cache.ttl (searchCache h))
         between ->
  parse r' = parse r ->
  fst (ratelimit.Allow (rateLimiter (snd (serving h' between))) (allowAt clk') (ipOf r'))
    = true ->
  enterAt clk' < settleAt clk + cache.ttl (searchCache h) ->
  exists h'',
    handle (snd (serving h' between)) clk' r' units' =
      (Wrote 200 (response.Found
         (response.mkSearchResponse (response.Search resp)
            (response.mkSearchStats
               (response.ProvidersTotal (response.Stats resp))
               (response.ProvidersSucceeded (response.Stats resp))
               (response.ProvidersFailed (response.Stats resp))
               "hit" (elapsed clk'))
            (response.Hotels resp))), h'') /\
    searchCache h'' = searchCache (snd (serving h' between)) /\
    obs.providerErrors (metrics h'') =
      obs.providerErrors (metrics (snd (serving h' between))).
Proof.
  intros Hs Hrun Hmiss Hmid Hparse Hok Hlt.
  destruct (SearchHandler_cases h clk r units Hs)
    as (rep & c & heap & m' & Hrun' & Hs' & Httl & Hcase).
  rewrite Hrun in Hrun'. injection Hrun' as <- ->.
  assert (Hfound : forall resp0, Wrote 200 (response.Found resp) = Wrote 200 (encoded resp0) ->
            resp0 = resp /\ encodes resp = true).
  { intros resp0. unfold encoded. destruct (encodes resp0) eqn:E; [|done].
    intros [= <-]. by split. }
  destruct Hcase as [(_ & [=] & _)|[(_ & err & _ & [=] & _)
    |[(_ & p & e & res & _ & _ & _ & _ & Hrep & _)
    |[(_ & p & _ & _ & _ & _ & [=] & _)|(_ & p & res & HP & _ & HS & Hrep & Hent & _)]]]].
  { apply Hfound in Hrep as [<- _]. done. }
  apply Hfound in Hrep as [<- Henc].
  assert (Hk : cache.entries c !! handler.keyOf p =
               Some (cache.mkEntry (Some res) (settleAt clk + cache.ttl (searchCache h)))).
  { rewrite Hent. apply lookup_insert_eq. }
  destruct (serve_keeps_entry between _ _ _ Hs' Hk Hmid) as [Hs2 Hk2].
  destruct (SearchHandler_cases _ clk' r' units' Hs2)
    as (rep' & c' & heap' & m'' & -> & _ & _ & Hcase).
  rewrite Hparse, HP in Hcase.
  destruct Hcase as [(Hno & _)|[(_ & err & [=] & _)
    |[(_ & p' & e & res' & [= <-] & Hk' & _ & Hres' & -> & -> & -> & ->)
    |[(_ & p' & [= <-] & Hcold & _)|(_ & p' & res' & [= <-] & Hcold & _)]]]].
  - congruence.
  - rewrite Hk2 in Hk'. injection Hk' as <-. simpl in Hres'. injection Hres' as <-.
    assert (encoded (searchResponse p res "hit" (elapsed clk')) =
            response.Found (searchResponse p res "hit" (elapsed clk'))) as ->.
    { unfold encoded. unfold encodes in *. cbn [searchResponse response.Hotels] in *.
      by rewrite Henc. }
    eexists. split; [reflexivity|by split].
  - specialize (Hcold _ Hk2). simpl in Hcold. lia.
  - specialize (Hcold _ Hk2). simpl in Hcold. lia.
Qed.

(** X20. The metrics count what they say: after requests handled one after
    the other, as long as the counter does not wrap around, [requests] has
    grown by the number of requests and [cacheHits] by the number of
    responses served from the cache, so that cache hits never exceed
    requests. *)
Theorem metrics_count h arrivals :
  isSound h ->
  0 <= obs.cacheHits (metrics h) <= obs.requests (metrics h) ->
  obs.requests (metrics h) + Z.of_nat (List.length arrivals) < 2 ^ 63 ->
  obs.requests (metrics (snd (serving h arrivals))) =
    obs.requests (metrics h) + Z.of_nat (List.length arrivals) /\
  obs.cacheHits (metrics (snd (serving h arrivals))) =
    obs.cacheHits (metrics h) +
    Z.of_nat (List.length (List.filter servedFromCache (fst (serving h arrivals)))) /\
  obs.cacheHits (metrics (snd (serving h arrivals))) <=
    obs.requests (metrics (snd (serving h arrivals))).
Proof.
  revert h. induction arrivals as [|a arrivals IH]; intros h Hs Hm Hn.
  { simpl. lia. }
  simpl.
  destruct (SearchHandler_cases h (clockOf a) (requestOf a) (unitsOf a) Hs)
    as (rep & c & heap & m' & -> & Hs' & _ & Hcase).
  specialize (IH _ Hs').
  destruct (serving _ arrivals) as [reps h'']. cbn [fst snd metrics] in *.
  cbn [List.length] in Hn. rewrite Nat2Z.inj_succ in Hn.
  assert (obs.requests m' = obs.requests (metrics h) + 1 /\
          obs.cacheHits m' = obs.cacheHits (metrics h) +
                             (if servedFromCache rep then 1 else 0)) as [Hr Hc].
  { pose proof (countErrors_requests (unitsOf a) (obs.IncRequests (metrics h))) as [Hr Hc].
    assert (obs.add64 (obs.requests (metrics h)) 1 = obs.requests (metrics h) + 1) as Hadd.
    { apply add64_succ; lia. }
    assert (obs.add64 (obs.cacheHits (metrics h)) 1 = obs.cacheHits (metrics h) + 1) as Hadd'.
    { apply add64_succ; lia. }
    destruct Hcase as [(_ & -> & _ & _ & ->)|[(_ & err & _ & -> & _ & _ & ->)
      |[(_ & p & e & res & _ & _ & _ & _ & -> & _ & _ & ->)
      |[(_ & p & _ & _ & _ & _ & -> & _ & ->)|(_ & p & res & _ & _ & _ & -> & _ & ->)]]]];
      cbn [servedFromCache writeError]; unfold encoded; try destruct (encodes _);
      simpl; rewrite ?Hr, ?Hc; simpl; lia. }
  rewrite Hr, Hc in IH.
  destruct IH as (IH1 & IH2 & IH3).
  { destruct (servedFromCache rep); lia. }
  { lia. }
  rewrite IH1, IH2 in *. cbn [List.filter List.length].
  destruct (servedFromCache rep); cbn [List.length]; lia.
Qed.

Lemma SearchHandler_limiter h clk r units :
  refused (fst (handle h clk r units)) =
    negb (fst (ratelimit.Allow (rateLimiter h) (allowAt clk) (ipOf r))) /\
  rateLimiter (snd (handle h clk r units)) =
    snd (ratelimit.Allow (rateLimiter h) (allowAt clk) (ipOf r)).
Proof.
  unfold SearchHandler.
  destruct (ratelimit.Allow (rateLimiter h) (allowAt clk) (ipOf r)) as [[|] lim];
    cbn [fst snd negb]; [|done].
  destruct (parse r) as [params|err]; [|done].
  destruct (cache.GetOrFetch _ _ _ _ _ _) as [[[[[[res hit] [err|]]|] c] heap] fetched];
    try done.
  destruct res; [|done]. unfold encoded. by destruct (encodes _).
Qed.

Lemma serve_run h arrivals :
  List.map refused (fst (serving h arrivals)) =
    List.map (fun c => negb (ratelimit.allowed c))
      (fst (ratelimit.run (rateLimiter h) (List.map (allowOf SplitHostPort) arrivals))) /\
  rateLimiter (snd (serving h arrivals)) =
    snd (ratelimit.run (rateLimiter h) (List.map (allowOf SplitHostPort) arrivals)).
Proof.
  revert h. induction arrivals as [|a arrivals IH]; intros h; [done|].
  cbn [List.map].
  change (allowOf SplitHostPort a)
    with (ratelimit.EvAllow (allowAt (clockOf a)) (ipOf (requestOf a))).
  rewrite limiterFacts.run_allow. cbn [fst snd serve].
  destruct (SearchHandler_limiter h (clockOf a) (requestOf a) (unitsOf a)) as [Hr Hl].
  destruct (handle h (clockOf a) (requestOf a) (unitsOf a)) as [rep h'].
  cbn [fst snd] in *. specialize (IH h'). rewrite Hl in IH.
  destruct (serving h' arrivals) as [reps h'']. cbn [fst snd List.map ratelimit.allowed] in *.
  destruct IH as [IH1 IH2]. by rewrite Hr, IH1, IH2.
Qed.


(** X21. Every request makes exactly one call of [Allow], keyed by what
    [ExtractIP] returns, whether its parameters are valid or not, and it is
    answered 429 exactly when that call returns false: the limiter sees the
    requests as the sequence of these calls. *)
Theorem serve_limiter h arrivals :
  List.map refused (fst (serving h arrivals)) =
    List.map (fun c => negb (ratelimit.allowed c))
      (fst (ratelimit.run (rateLimiter h) (List.map (allowOf SplitHostPort) arrivals))) /\
  rateLimiter (snd (serving h arrivals)) =
    snd (ratelimit.run (rateLimiter h) (List.map (allowOf SplitHostPort) arrivals)).
Proof. apply serve_run. Qed.

(** X22. With a non-empty X-Forwarded-For header of ASCII text (on which
    [strings.TrimSpace] is as modelled) [ExtractIP] returns the text before
    the first comma of the header, trimmed: the result is ASCII text with no
    comma and no white space around it, and neither X-Real-IP nor the peer
    address of the connection has a part in it. *)
Theorem ExtractIP_forwarded r :
  XForwardedFor r <> "" ->
  strings.isASCII (XForwardedFor r) = true ->
  strings.isASCII (ipOf r) = true /\
  (forall first rest, XForwardedFor r = first +:+ "," +:+ rest -> noComma first = true ->
     ipOf r = strings.TrimSpace first) /\
  (noComma (XForwardedFor r) = true -> ipOf r = strings.TrimSpace (XForwardedFor r)) /\
  noComma (ipOf r) = true /\
  strings.TrimSpace (ipOf r) = ipOf r /\
  (forall xri addr,
     ipOf (mkRequest (XForwardedFor r) xri addr (qcity r) (qcheckin r) (qnights r) (qadults r))
     = ipOf r).
Proof.
  intros Hx Hascii. unfold ExtractIP. simpl.
  destruct (String.eqb_spec (XForwardedFor r) ""); [done|]. simpl.
  repeat split.
  - by apply stringsFacts.isASCII_TrimSpace, isASCII_firstField.
  - intros first rest -> Hfirst. by rewrite firstField_app.
  - intros H. by rewrite firstField_all.
  - apply noComma_TrimSpace, noComma_firstField.
  - apply stringsFacts.TrimSpace_idem.
Qed.

Lemma first_calls_admitted arrivals : forall l,
  0 < ratelimit.rate l ->
  NoDup (List.map (fun a => ipOf (requestOf a)) arrivals) ->
  Forall (fun a => ratelimit.buckets l !! ipOf (requestOf a) = None) arrivals ->
  Forall (fun c => ratelimit.allowed c = true)
    (fst (ratelimit.run l (List.map (allowOf SplitHostPort) arrivals))).
Proof.
  induction arrivals as [|a arrivals IH]; intros l HR Hnd Hnew; [constructor|].
  cbn [List.map].
  change (allowOf SplitHostPort a)
    with (ratelimit.EvAllow (allowAt (clockOf a)) (ipOf (requestOf a))).
  rewrite limiterFacts.run_allow. cbn [fst].
  apply Forall_cons in Hnew as [Ha Hnew]. cbn [List.map] in Hnd.
  apply NoDup_cons in Hnd as [Hnotin Hnd].
  constructor.
  - cbn [ratelimit.allowed]. rewrite limiterFacts.Allow_fst, Ha.
    rewrite limiterFacts.allowBucket_refill by done.
    by destruct (Z.ltb_spec 0 (ratelimit.rate l)); [|lia].
  - apply IH; [by rewrite limiterFacts.Allow_rate|done|].
    apply Forall_forall. intros a' Ha'.
    rewrite limiterFacts.Allow_lookup. case_decide as Heq.
    + destruct Hnotin. rewrite Heq. apply list_elem_of_fmap. by exists a'.
    + rewrite Forall_forall in Hnew. by apply Hnew.
Qed.

(** X23. The limit is per value of the header, not per connection: with a
    positive rate, requests whose [ExtractIP] values are pairwise distinct
    and have no bucket yet are never answered 429, whatever their peer
    addresses and their times. *)
Theorem distinct_clients_never_refused h arrivals :
  0 < ratelimit.rate (rateLimiter h) ->
  NoDup (List.map (fun a => ipOf (requestOf a)) arrivals) ->
  Forall (fun a => ratelimit.buckets (rateLimiter h) !! ipOf (requestOf a) = None) arrivals ->
  Forall (fun rep => refused rep = false) (fst (serving h arrivals)).
Proof.
  intros HR Hnd Hnew.
  pose proof (first_calls_admitted arrivals _ HR Hnd Hnew) as Hall.
  destruct (serve_run h arrivals) as [Hmap _].
  apply (proj1 (List.Forall_map refused (fun b => b = false) _)).
  rewrite Hmap. clear Hmap.
  induction Hall as [|c log Hc _ IH]; constructor; [|done].
  by rewrite Hc.
Qed.

End Served.

(** A result with a NaN price is answered with status 200 and no body. *)
Example NaN_price_not_encoded :
  exists resp,
    fst (SearchHandler rangeListed insertionSort noSplit (fresh 1 60000000000 30)
           (clockAt 0) (parisRequest "203.0.113.195") [UnitOk [rawNaN; rawCheap]])
    = Wrote 200 (response.NotEncoded resp).
Proof. eexists. vm_compute. reflexivity. Qed.

Lemma serve_always_answers_witness :
  Forall (fun rep => exists status b, rep = Wrote status b /\
            ((status = 200 /\ exists resp,
                (b = response.Found resp /\ encodes resp = true) \/
                (b = response.NotEncoded resp /\ encodes resp = false)) \/
             ((status = 400 \/ status = 429 \/ status = 500) /\
              exists message, b = response.Error message)))
         (fst (serve rangeListed insertionSort noSplit (fresh 1 60000000000 30000000000)
                 [mkArrival (clockAt 0) (parisRequest "203.0.113.195") unitsPartial;
                  mkArrival (clockAt 5) (parisRequest "203.0.113.195") unitsPartial;
                  mkArrival (clockAt 9) (parisRequest "198.51.100.7") unitsPartial])).
Proof.
  refine (proj1 (serve_always_answers rangeListed insertionSort noSplit (fresh 1 60000000000 30000000000) _ _)).
  split; [done|]. intros k e. simpl. by rewrite lookup_empty.
Defined.

Lemma serve_responses_witness :
  Forall2 (fun a rep => forall b, rep = Wrote 200 b ->
     exists params units res status,
       handler.ParseSearchParams (qcity (requestOf a)) (qcheckin (requestOf a))
         (qnights (requestOf a)) (qadults (requestOf a)) = inl params /\
       Search rangeListed insertionSort units = (Some res, None) /\
       (status = "hit" \/ status = "miss") /\
       types.ProvidersSucceeded res + types.ProvidersFailed res =
         types.ProvidersTotal res /\
       ((b = response.Found
               (searchResponse params res status
                  (Milliseconds (endTime (clockOf a) - startTime (clockOf a)))) /\
         forallb (fun h => jsonFloat (types.Price h)) (types.Hotels res) = true) \/
        (b = response.NotEncoded
               (searchResponse params res status
                  (Milliseconds (endTime (clockOf a) - startTime (clockOf a)))) /\
         forallb (fun h => jsonFloat (types.Price h)) (types.Hotels res) = false)))
    [mkArrival (clockAt 0) (parisRequest "203.0.113.195") unitsPartial;
     mkArrival (clockAt 50) (parisRequest "198.51.100.7") [UnitOk [rawNaN; rawCheap]]]
    (fst (serve rangeListed insertionSort noSplit (fresh 1 60000000000 30)
            [mkArrival (clockAt 0) (parisRequest "203.0.113.195") unitsPartial;
             mkArrival (clockAt 50) (parisRequest "198.51.100.7")
               [UnitOk [rawNaN; rawCheap]]])).
Proof.
  apply (serve_responses rangeListed insertionSort noSplit (fresh 1 60000000000 30)).
  split; [done|]. intros k e. simpl. by rewrite lookup_empty.
Defined.

Lemma repeat_is_hit_witness :
  exists h'' resp,
    SearchHandler rangeListed insertionSort noSplit
      (snd (serve rangeListed insertionSort noSplit
         (snd (SearchHandler rangeListed insertionSort noSplit
                 (fresh 5 60000000000 30000000000)
                 (clockAt 0) (parisRequest "203.0.113.195") unitsPartial))
         [mkArrival (clockAt 7) (parisRequest "203.0.113.195") [];
          mkArrival (clockAt 9)
            (mkRequest "" "" "192.168.1.1:12345" "rome" "2025-12-01" "2" "2")
            unitsDedup]))
      (clockAt 29000000000) (parisRequest "198.51.100.7") []
      = (Wrote 200 (response.Found resp), h'') /\
    response.Cache (response.Stats resp) = "hit" /\
    response.ProvidersTotal (response.Stats resp) = 2.
Proof.
  destruct (repeat_is_hit rangeListed insertionSort noSplit
              (fresh 5 60000000000 30000000000) (clockAt 0)
              (parisRequest "203.0.113.195") unitsPartial
              (searchResponse (handler.mkSearchParams "paris" "2025-12-01" 2 2)
                 (types.mkResult [types.mkHotel "H001" "Hotel A" "EUR" (F64.ofPos 100)] 2 1 1)
                 "miss" 1)
              (snd (SearchHandler rangeListed insertionSort noSplit
                      (fresh 5 60000000000 30000000000)
                      (clockAt 0) (parisRequest "203.0.113.195") unitsPartial))
              [mkArrival (clockAt 7) (parisRequest "203.0.113.195") [];
               mkArrival (clockAt 9)
                 (mkRequest "" "" "192.168.1.1:12345" "rome" "2025-12-01" "2" "2")
                 unitsDedup]
              (clockAt 29000000000) (parisRequest "198.51.100.7") [])
    as (h'' & Hrun & _).
  - split; [done|]. intros k e. simpl. by rewrite lookup_empty.
  - vm_compute. reflexivity.
  - reflexivity.
  - repeat constructor.
  - reflexivity.
  - vm_compute. reflexivity.
  - vm_compute. reflexivity.
  - eexists _, _. split; [exact Hrun|]. by split.
Defined.

Lemma metrics_count_witness :
  obs.requests (metrics (snd (serve rangeListed insertionSort noSplit
     (fresh 5 60000000000 30000000000)
     [mkArrival (clockAt 0) (parisRequest "203.0.113.195") unitsPartial;
      mkArrival (clockAt 5) (parisRequest "198.51.100.7") unitsPartial]))) = 0 + 2.
Proof.
  refine (proj1 (metrics_count rangeListed insertionSort noSplit (fresh 5 60000000000 30000000000)
                   [mkArrival (clockAt 0) (parisRequest "203.0.113.195") unitsPartial;
                    mkArrival (clockAt 5) (parisRequest "198.51.100.7") unitsPartial]
                   _ _ _)).
  - split; [done|]. intros k e. simpl. by rewrite lookup_empty.
  - simpl. lia.
  - simpl. lia.
Defined.

Lemma ExtractIP_forwarded_witness :
  ExtractIP noSplit (parisRequest "203.0.113.195, 70.41.3.18, 150.172.238.178")
    = strings.TrimSpace "203.0.113.195".
Proof.
  refine (proj1 (proj2 (ExtractIP_forwarded noSplit
            (parisRequest "203.0.113.195, 70.41.3.18, 150.172.238.178") _ _))
            "203.0.113.195" " 70.41.3.18, 150.172.238.178" _ _); done.
Defined.

Lemma distinct_clients_never_refused_witness :
  Forall (fun rep => refused rep = false)
    (fst (serve rangeListed insertionSort noSplit (fresh 1 60000000000 30000000000)
            [mkArrival (clockAt 0) (parisRequest "203.0.113.195") unitsPartial;
             mkArrival (clockAt 1) (parisRequest "203.0.113.196") unitsPartial;
             mkArrival (clockAt 2) (parisRequest "203.0.113.197") unitsPartial])).
Proof.
  apply (distinct_clients_never_refused rangeListed insertionSort noSplit
           (fresh 1 60000000000 30000000000)).
  - simpl. lia.
  - apply NoDup_ListNoDup. repeat constructor; simpl; intuition discriminate.
  - repeat constructor.
Defined.

End endpointFacts.

(** ** The query sent to the providers *)

Module providerFacts.
Import handler.

Lemma pretty_N_char_digit d :
  (d < 10)%N -> isDigit (pretty_N_char d) = true /\ digitVal (pretty_N_char d) = Z.of_N d.
Proof.
  intros Hd.
  assert (d = 0 \/ d = 1 \/ d = 2 \/ d = 3 \/ d = 4 \/ d = 5 \/ d = 6 \/ d = 7 \/
          d = 8 \/ d = 9)%N as Hcases by lia.
  repeat (destruct Hcases as [->|Hcases]; [by split|]).
  subst d. by split.
Qed.

Lemma allDigits_pretty_N_go x : forall s,
  allDigits s = true -> allDigits (pretty_N_go x s) = true.
Proof.
  induction (N.lt_wf_0 x) as [x _ IH]. intros s Hs.
  destruct (decide (x = 0%N)) as [->|Hx].
  - by rewrite pretty_N_go_0.
  - rewrite pretty_N_go_step by lia.
    apply IH; [apply N.div_lt; lia|]. simpl.
    destruct (pretty_N_char_digit (x `mod` 10)) as [-> _]; [|done].
    apply N.mod_lt. lia.
Qed.

Lemma digitsVal_pretty_N_go x : forall s,
  digitsVal 0 (pretty_N_go x s) = digitsVal (Z.of_N x) s.
Proof.
  induction (N.lt_wf_0 x) as [x _ IH]. intros s.
  destruct (decide (x = 0%N)) as [->|Hx].
  - by rewrite pretty_N_go_0.
  - rewrite pretty_N_go_step by lia.
    rewrite IH by (apply N.div_lt; lia). simpl.
    destruct (pretty_N_char_digit (x `mod` 10)) as [_ ->]; [apply N.mod_lt; lia|].
    f_equal. rewrite N2Z.inj_div, N2Z.inj_mod. simpl.
    pose proof (Z.div_mod (Z.of_N x) 10). lia.
Qed.

Lemma pretty_N_go_nonempty x : forall s,
  (0 < x)%N \/ s <> "" -> pretty_N_go x s <> "".
Proof.
  induction (N.lt_wf_0 x) as [x _ IH]. intros s Hs.
  destruct (decide (x = 0%N)) as [->|Hx].
  - rewrite pretty_N_go_0. destruct Hs; [lia|done].
  - rewrite pretty_N_go_step by lia. apply IH; [apply N.div_lt; lia|]. by right.
Qed.

(** [Atoi] on a string of digits. *)
Lemma Atoi_digits s :
  s <> "" -> allDigits s = true ->
  Atoi s = if (- 2 ^ 63 <=? digitsVal 0 s) && (digitsVal 0 s <=? 2 ^ 63 - 1)
           then Some (digitsVal 0 s) else None.
Proof.
  destruct s as [|c r]; [done|]. intros _ Hall.
  assert (isDigit c = true) as Hc.
  { simpl in Hall. by apply andb_true_iff in Hall as [? _]. }
  unfold Atoi.
  assert ((match String c r with
           | String "-" r0 => (true, r0)
           | String "+" r0 => (false, r0)
           | _ => (false, String c r)
           end) = (false, String c r)) as ->.
  { destruct c as [[] [] [] [] [] [] [] []]; try done. }
  by rewrite Hall.
Qed.

(** What [%d] prints of a positive [int], [Atoi] reads back. *)
Lemma Atoi_itoa n : 0 < n <= 2 ^ 63 - 1 -> Atoi (cache.itoa n) = Some n /\ cache.itoa n <> "".
Proof.
  intros Hn. destruct n as [|p|p]; [lia| |lia].
  unfold cache.itoa, pretty, pretty_Z, pretty, pretty_positive, pretty, pretty_N.
  case_decide; [done|].
  assert (pretty_N_go (N.pos p) "" <> "") as Hne.
  { apply pretty_N_go_nonempty. left. lia. }
  split; [|done].
  rewrite Atoi_digits; [|done|by apply allDigits_pretty_N_go].
  rewrite digitsVal_pretty_N_go. simpl digitsVal.
  change (Z.of_N (N.pos p)) with (Z.pos p).
  destruct (Z.leb_spec (- 2 ^ 63) (Z.pos p)); [|lia].
  destruct (Z.leb_spec (Z.pos p) (2 ^ 63 - 1)); [done|lia].
Qed.

Lemma Atoi_range s n : Atoi s = Some n -> - 2 ^ 63 <= n <= 2 ^ 63 - 1.
Proof.
  unfold Atoi.
  destruct (match s with
            | String "-" r => (true, r)
            | String "+" r => (false, r)
            | _ => (false, s)
            end) as [negative body].
  destruct body as [|a body]; [done|]. destruct (allDigits _); [|done].
  generalize (if negative then - digitsVal 0 (String a body)
              else digitsVal 0 (String a body)).
  intros v. destruct (_ && _) eqn:E; [|done]. intros [= <-].
  apply andb_true_iff in E as [?%Z.leb_le ?%Z.leb_le]. lia.
Qed.

Lemma ParseSearchParams_fields qcity qcheckin qnights qadults q :
  ParseSearchParams qcity qcheckin qnights qadults = inl q ->
  (City q = strings.TrimSpace qcity /\ City q <> "") /\
  (Checkin q = strings.TrimSpace qcheckin /\ Checkin q <> "") /\
  (Atoi qnights = Some (Nights q) /\ 0 < Nights q) /\
  (Atoi qadults = Some (Adults q) /\ 0 < Adults q).
Proof.
  unfold ParseSearchParams.
  destruct (String.eqb_spec (strings.TrimSpace qcity) "") as [|Hcity]; [done|].
  destruct (String.eqb_spec (strings.TrimSpace qcheckin) "") as [|Hcheckin]; [done|].
  destruct (validDate (strings.TrimSpace qcheckin)); [|done]. simpl.
  destruct (String.eqb qnights ""); [done|].
  destruct (Atoi qnights) as [nights|]; [|done].
  destruct (Z.leb_spec nights 0); [done|].
  destruct (String.eqb qadults ""); [done|].
  destruct (Atoi qadults) as [adults|]; [|done].
  destruct (Z.leb_spec adults 0); [done|].
  intros [= <-]. simpl. repeat split; done.
Qed.

(** X24. A query with a city and a checkin of ASCII text (on which
    [strings.TrimSpace] is as modelled) that [ParseSearchParams] accepted is
    never turned down by the checks of a mock provider: sent on by
    [HTTPProvider.Search], it passes them and reaches [search] with the same
    city, checkin, nights and adults, the two strings being ASCII text
    again. *)
Theorem forwarded_query_accepted qcity qcheckin qnights qadults q :
  strings.isASCII qcity = true ->
  strings.isASCII qcheckin = true ->
  ParseSearchParams qcity qcheckin qnights qadults = inl q ->
  (strings.isASCII (City q) = true /\ strings.isASCII (Checkin q) = true) /\
  mock.ServeHTTP (httpprovider.query (City q) (Checkin q) (Nights q) (Adults q)) =
    mock.Searches (City q) (Checkin q) (Nights q) (Adults q).
Proof.
  intros Hqc Hqk ((Hc & Hc') & (Hk & Hk') & (Hn & Hn') & (Ha & Ha'))%ParseSearchParams_fields.
  split.
  { rewrite Hc, Hk. split; by apply stringsFacts.isASCII_TrimSpace. }
  apply Atoi_range in Hn, Ha.
  destruct (Atoi_itoa (Nights q)) as [Hn1 Hn2]; [lia|].
  destruct (Atoi_itoa (Adults q)) as [Ha1 Ha2]; [lia|].
  unfold mock.ServeHTTP, httpprovider.query. cbn [pcity pcheckin pnights padults].
  assert (strings.TrimSpace (City q) = City q) as ->.
  { rewrite Hc. apply stringsFacts.TrimSpace_idem. }
  assert (strings.TrimSpace (Checkin q) = Checkin q) as ->.
  { rewrite Hk. apply stringsFacts.TrimSpace_idem. }
  destruct (String.eqb_spec (City q) ""); [done|].
  destruct (String.eqb_spec (Checkin q) ""); [done|].
  destruct (String.eqb_spec (cache.itoa (Nights q)) ""); [done|].
  destruct (String.eqb_spec (cache.itoa (Adults q)) ""); [done|].
  cbn [orb]. rewrite Hn1, Ha1.
  destruct (Z.leb_spec (Nights q) 0); [lia|].
  destruct (Z.leb_spec (Adults q) 0); [lia|]. done.
Qed.

Lemma forwarded_query_accepted_witness :
  mock.ServeHTTP (httpprovider.query "paris" "2025-12-01" 2 12) =
    mock.Searches "paris" "2025-12-01" 2 12.
Proof.
  apply (forwarded_query_accepted "  paris " "2025-12-01" "2" "+12"
           (mkSearchParams "paris" "2025-12-01" 2 12)); vm_compute; reflexivity.
Defined.

End providerFacts.

(** ** The logging middleware *)

Module middlewareFacts.
Import middleware.

Lemma handled_consistent calls : forall rw,
  consistent rw ->
  consistent (handled rw calls) /\
  List.filter isWrite (ResponseWriter (handled rw calls)) =
    (List.filter isWrite (ResponseWriter rw) ++ List.filter isWrite calls)%list.
Proof.
  induction calls as [|c calls IH]; intros rw Hrw.
  { split; [done|]. by rewrite app_nil_r. }
  cbn [handled fold_left List.filter]. fold (handled (match c with
    | CallWriteHeader code => WriteHeader rw code
    | CallWrite b => Write rw b end) calls).
  destruct c as [code|b]; cbn [isWrite].
  - unfold WriteHeader. destruct (written rw) eqn:Hw; [by apply IH|].
    destruct Hrw as [Htl Hhead].
    destruct (ResponseWriter rw) as [|[code'|b'] rest] eqn:Hrest.
    + destruct (IH (mkResponseWriter [CallWriteHeader code] code true)) as [IH1 IH2].
      { split; simpl; [constructor|done]. }
      by split.
    + destruct Hhead as [Hbad _]. congruence.
    + destruct Hhead as [Hbad _]. congruence.
  - destruct (IH (Write rw b)) as [IH1 IH2].
    { destruct Hrw as [Htl Hhead]. unfold consistent, Write.
      destruct (ResponseWriter rw) as [|[code'|b'] rest] eqn:Hrest; simpl in *.
      - destruct Hhead as [-> _]. split; [constructor|done].
      - destruct Hhead as [-> ->]. split; [|done].
        apply Forall_app. split; [done|]. by repeat constructor.
      - destruct Hhead as [-> ->]. split; [|done].
        apply Forall_app. split; [done|]. by repeat constructor. }
    split; [done|]. rewrite IH2. unfold Write. cbn [ResponseWriter].
    rewrite List.filter_app. cbn [List.filter isWrite]. by rewrite <- app_assoc.
Qed.

(** X25. Whatever the handler calls on the wrapper of [Logging]: every
    [Write] reaches the wrapped writer, in order; at most one [WriteHeader]
    reaches it, before any write; and the status the middleware logs is the
    code of that [WriteHeader], or 200 when none was forwarded. *)
Theorem logged_status_is_sent calls :
  List.filter isWrite (ResponseWriter (handled wrap calls)) = List.filter isWrite calls /\
  ((exists code writes,
      ResponseWriter (handled wrap calls) = CallWriteHeader code :: writes /\
      Forall (fun c => isWrite c = true) writes /\
      statusCode (handled wrap calls) = code) \/
   (Forall (fun c => isWrite c = true) (ResponseWriter (handled wrap calls)) /\
    statusCode (handled wrap calls) = 200)).
Proof.
  destruct (handled_consistent calls wrap) as [[Htl Hhead] Hw].
  { split; simpl; [constructor|done]. }
  split; [done|].
  destruct (ResponseWriter (handled wrap calls)) as [|[code|b] rest].
  - right. by destruct Hhead.
  - left. exists code, rest. by destruct Hhead.
  - right. destruct Hhead. split; [|done]. by constructor.
Qed.

End middlewareFacts.
